(** * UNO engine: a shallow embedding of [uno_engine/game.py]

    The engine mutates one [GameState] in place, draws randomness from an
    injected [random.Random], card and game identifiers from [uuid.uuid4] and
    timestamps from [time.time].  The embedding threads the game state and the
    three external sources explicitly, and keeps Python's exceptions as
    outcomes that carry the state reached when they were raised. *)

From Stdlib Require Import ZArith List String DecimalString Bool Arith Lia Permutation.
Import ListNotations.
Local Open Scope string_scope.
Local Open Scope Z_scope.

Set Implicit Arguments.

(** ** External sources *)

(** A source that is read one value at a time: [feed] is everything it will
    ever return, [cursor] the number of values consumed so far. *)
Record Oracle (A : Type) := mkOracle { feed : nat -> A; cursor : nat }.

Definition next {A} (o : Oracle A) : A * Oracle A :=
  (feed o (cursor o), mkOracle (feed o) (S (cursor o))).

(** The environment of a session: the session's [random.Random] (raw draws),
    the process-wide [uuid.uuid4] and the wall clock [time.time]. *)
Record Env := mkEnv {
  rng : Oracle nat;
  uuid : Oracle string;
  clock : Oracle Z
}.

Definition with_rng (g : Oracle nat) (e : Env) : Env := mkEnv g (uuid e) (clock e).
Definition with_uuid (u : Oracle string) (e : Env) : Env := mkEnv (rng e) u (clock e).
Definition with_clock (c : Oracle Z) (e : Env) : Env := mkEnv (rng e) (uuid e) c.

(** [random.Random._randbelow n]: a value below [n] (for [0 < n]). *)
Definition randbelow (n : nat) (g : Oracle nat) : nat * Oracle nat :=
  let (r, g') := next g in (Nat.modulo r n, g').

(** [x[i] = v] on a list, inside its bounds. *)
Fixpoint list_set {A} (l : list A) (i : nat) (v : A) : list A :=
  match l, i with
  | [], _ => []
  | _ :: t, O => v :: t
  | h :: t, S i' => h :: list_set t i' v
  end.

(** [x[i], x[j] = x[j], x[i]] *)
Definition swap {A} (l : list A) (i j : nat) : list A :=
  match nth_error l i, nth_error l j with
  | Some a, Some b => list_set (list_set l i b) j a
  | _, _ => l
  end.

(** [random.Random.shuffle]:
    [for i in reversed(range(1, len(x))): j = randbelow(i + 1); swap]. *)
Fixpoint shuffle_from {A} (i : nat) (l : list A) (g : Oracle nat) : list A * Oracle nat :=
  match i with
  | O => (l, g)
  | S i' => let (j, g') := randbelow (S i) g in shuffle_from i' (swap l i j) g'
  end.

Definition shuffle {A} (l : list A) (g : Oracle nat) : list A * Oracle nat :=
  shuffle_from (Nat.pred (List.length l)) l g.

(** [random.Random.choice seq] on a non-empty sequence. *)
Definition choice {A} (d : A) (l : list A) (g : Oracle nat) : A * Oracle nat :=
  let (j, g') := randbelow (List.length l) g in (nth j l d, g').

(** ** Data model *)

Inductive CardColor := red | yellow | green | blue | wild.

Inductive CardValue :=
  | V0 | V1 | V2 | V3 | V4 | V5 | V6 | V7 | V8 | V9
  | SKIP | REVERSE | DRAW_TWO | WILD | WILD_DRAW_FOUR.

Definition VALID_COLORS : list CardColor := [red; yellow; green; blue].

Record UnoCard := mkCard { card_id : string; color : CardColor; value : CardValue }.

Record Player := mkPlayer {
  pid : string;
  name : string;
  is_ai : bool;
  score : Z;
  hand : list UnoCard
}.

Record GameSettings := mkSettings {
  hand_size : Z;
  ai_enabled : bool;
  ai_delay_ms : Z;
  auto_play_if_drawn_playable : bool;
  allow_illegal_wild_draw_four : bool;
  score_limit : Z
}.

Definition default_settings : GameSettings := mkSettings 7 true 250 true false 500.

Inductive Status := lobby | playing | round_over | match_over.

Record GameState := mkState {
  gid : string;
  status : Status;
  created_at : Z;
  updated_at : Z;
  players : list Player;
  current_player_index : Z;
  direction : Z;
  draw_pile : list UnoCard;
  discard_pile : list UnoCard;
  current_color : option CardColor;
  pending_draw : Z;
  must_play_or_pass : bool;
  last_drawn_card_id : option string;
  winner_player_id : option string;
  message : option string;
  settings : GameSettings
}.

Definition color_eqb (a b : CardColor) : bool :=
  match a, b with
  | red, red | yellow, yellow | green, green | blue, blue | wild, wild => true
  | _, _ => false
  end.

Definition value_index (v : CardValue) : nat :=
  match v with
  | V0 => 0 | V1 => 1 | V2 => 2 | V3 => 3 | V4 => 4 | V5 => 5 | V6 => 6
  | V7 => 7 | V8 => 8 | V9 => 9 | SKIP => 10 | REVERSE => 11 | DRAW_TWO => 12
  | WILD => 13 | WILD_DRAW_FOUR => 14
  end%nat.

Definition value_eqb (a b : CardValue) : bool := Nat.eqb (value_index a) (value_index b).

(** [c.color in VALID_COLORS] *)
Definition is_valid_color (c : CardColor) : bool :=
  existsb (color_eqb c) VALID_COLORS.

(** The string of a card value, as f-strings print it. *)
Definition value_str (v : CardValue) : string :=
  match v with
  | V0 => "0" | V1 => "1" | V2 => "2" | V3 => "3" | V4 => "4" | V5 => "5"
  | V6 => "6" | V7 => "7" | V8 => "8" | V9 => "9" | SKIP => "SKIP"
  | REVERSE => "REVERSE" | DRAW_TWO => "DRAW_TWO" | WILD => "WILD"
  | WILD_DRAW_FOUR => "WILD_DRAW_FOUR"
  end.

(** ** Deck model *)

(** [_new_card_id]: one [uuid4] per card. *)
Definition _new_card_id (u : Oracle string) : string * Oracle string := next u.

(** The faces appended by the loops of [build_uno_deck], in append order. *)
Definition colored_faces (c : CardColor) : list (CardColor * CardValue) :=
  (c, V0)
  :: flat_map (fun v => [(c, v); (c, v)]) [V1; V2; V3; V4; V5; V6; V7; V8; V9]
  ++ flat_map (fun v => [(c, v); (c, v)]) [SKIP; REVERSE; DRAW_TWO].

Definition deck_faces : list (CardColor * CardValue) :=
  flat_map colored_faces VALID_COLORS
  ++ flat_map (fun _ => [(wild, WILD); (wild, WILD_DRAW_FOUR)]) (seq 0 4).

(** [deck.append(UnoCard(id=_new_card_id(), color=.., value=..))], face by face. *)
Fixpoint new_cards (faces : list (CardColor * CardValue)) (u : Oracle string)
  : list UnoCard * Oracle string :=
  match faces with
  | [] => ([], u)
  | (c, v) :: fs =>
      let (i, u1) := _new_card_id u in
      let (cs, u2) := new_cards fs u1 in
      (mkCard i c v :: cs, u2)
  end.

Definition build_uno_deck (e : Env) : list UnoCard * Env :=
  let (deck, u') := new_cards deck_faces (uuid e) in
  let (deck', g') := shuffle deck (rng e) in
  (deck', with_rng g' (with_uuid u' e)).

Definition score_card (card : UnoCard) : Z :=
  match value card with
  | SKIP | REVERSE | DRAW_TWO => 20
  | WILD | WILD_DRAW_FOUR => 50
  | v => Z.of_nat (value_index v)
  end.

Definition _is_numeric (v : CardValue) : bool := Nat.ltb (value_index v) 10.

(** ** Rule predicate *)

Definition can_play_on (card top : UnoCard) (cur : option CardColor) : bool :=
  if color_eqb (color card) wild then true
  else
    let color_to_match := match cur with Some c => c | None => color top end in
    if color_eqb (color card) color_to_match then true
    else value_eqb (value card) (value top).

(** ** Field updates (Python attribute assignment) *)

Definition set_hand (h : list UnoCard) (p : Player) : Player :=
  mkPlayer (pid p) (name p) (is_ai p) (score p) h.
Definition set_score (s : Z) (p : Player) : Player :=
  mkPlayer (pid p) (name p) (is_ai p) s (hand p).
Definition set_is_ai (b : bool) (p : Player) : Player :=
  mkPlayer (pid p) (name p) b (score p) (hand p).

Definition set_status v (s : GameState) :=
  mkState (gid s) v (created_at s) (updated_at s) (players s) (current_player_index s)
    (direction s) (draw_pile s) (discard_pile s) (current_color s) (pending_draw s)
    (must_play_or_pass s) (last_drawn_card_id s) (winner_player_id s) (message s) (settings s).
Definition set_updated_at v (s : GameState) :=
  mkState (gid s) (status s) (created_at s) v (players s) (current_player_index s)
    (direction s) (draw_pile s) (discard_pile s) (current_color s) (pending_draw s)
    (must_play_or_pass s) (last_drawn_card_id s) (winner_player_id s) (message s) (settings s).
Definition set_players v (s : GameState) :=
  mkState (gid s) (status s) (created_at s) (updated_at s) v (current_player_index s)
    (direction s) (draw_pile s) (discard_pile s) (current_color s) (pending_draw s)
    (must_play_or_pass s) (last_drawn_card_id s) (winner_player_id s) (message s) (settings s).
Definition set_current_player_index v (s : GameState) :=
  mkState (gid s) (status s) (created_at s) (updated_at s) (players s) v
    (direction s) (draw_pile s) (discard_pile s) (current_color s) (pending_draw s)
    (must_play_or_pass s) (last_drawn_card_id s) (winner_player_id s) (message s) (settings s).
Definition set_direction v (s : GameState) :=
  mkState (gid s) (status s) (created_at s) (updated_at s) (players s) (current_player_index s)
    v (draw_pile s) (discard_pile s) (current_color s) (pending_draw s)
    (must_play_or_pass s) (last_drawn_card_id s) (winner_player_id s) (message s) (settings s).
Definition set_draw_pile v (s : GameState) :=
  mkState (gid s) (status s) (created_at s) (updated_at s) (players s) (current_player_index s)
    (direction s) v (discard_pile s) (current_color s) (pending_draw s)
    (must_play_or_pass s) (last_drawn_card_id s) (winner_player_id s) (message s) (settings s).
Definition set_discard_pile v (s : GameState) :=
  mkState (gid s) (status s) (created_at s) (updated_at s) (players s) (current_player_index s)
    (direction s) (draw_pile s) v (current_color s) (pending_draw s)
    (must_play_or_pass s) (last_drawn_card_id s) (winner_player_id s) (message s) (settings s).
Definition set_current_color v (s : GameState) :=
  mkState (gid s) (status s) (created_at s) (updated_at s) (players s) (current_player_index s)
    (direction s) (draw_pile s) (discard_pile s) v (pending_draw s)
    (must_play_or_pass s) (last_drawn_card_id s) (winner_player_id s) (message s) (settings s).
Definition set_pending_draw v (s : GameState) :=
  mkState (gid s) (status s) (created_at s) (updated_at s) (players s) (current_player_index s)
    (direction s) (draw_pile s) (discard_pile s) (current_color s) v
    (must_play_or_pass s) (last_drawn_card_id s) (winner_player_id s) (message s) (settings s).
Definition set_must_play_or_pass v (s : GameState) :=
  mkState (gid s) (status s) (created_at s) (updated_at s) (players s) (current_player_index s)
    (direction s) (draw_pile s) (discard_pile s) (current_color s) (pending_draw s)
    v (last_drawn_card_id s) (winner_player_id s) (message s) (settings s).
Definition set_last_drawn_card_id v (s : GameState) :=
  mkState (gid s) (status s) (created_at s) (updated_at s) (players s) (current_player_index s)
    (direction s) (draw_pile s) (discard_pile s) (current_color s) (pending_draw s)
    (must_play_or_pass s) v (winner_player_id s) (message s) (settings s).
Definition set_winner_player_id v (s : GameState) :=
  mkState (gid s) (status s) (created_at s) (updated_at s) (players s) (current_player_index s)
    (direction s) (draw_pile s) (discard_pile s) (current_color s) (pending_draw s)
    (must_play_or_pass s) (last_drawn_card_id s) v (message s) (settings s).
Definition set_message v (s : GameState) :=
  mkState (gid s) (status s) (created_at s) (updated_at s) (players s) (current_player_index s)
    (direction s) (draw_pile s) (discard_pile s) (current_color s) (pending_draw s)
    (must_play_or_pass s) (last_drawn_card_id s) (winner_player_id s) v (settings s).
Definition set_settings v (s : GameState) :=
  mkState (gid s) (status s) (created_at s) (updated_at s) (players s) (current_player_index s)
    (direction s) (draw_pile s) (discard_pile s) (current_color s) (pending_draw s)
    (must_play_or_pass s) (last_drawn_card_id s) (winner_player_id s) (message s) v.

(** ** Python list access *)

(** [l[-1]] *)
Definition py_last {A} (l : list A) : option A :=
  match rev l with
  | [] => None
  | x :: _ => Some x
  end.

(** [l[i]] for a Python int [i]: negative indices count from the end; the
    result is the position read, [None] standing for [IndexError]. *)
Definition py_index {A} (l : list A) (i : Z) : option nat :=
  let n := Z.of_nat (List.length l) in
  if (0 <=? i) && (i <? n) then Some (Z.to_nat i)
  else if (- n <=? i) && (i <? 0) then Some (Z.to_nat (n + i))
  else None.

(** Apply [f] to the element at position [i] (mutation of the object there). *)
Fixpoint list_alter {A} (f : A -> A) (i : nat) (l : list A) : list A :=
  match l, i with
  | [], _ => []
  | h :: t, O => f h :: t
  | h :: t, S i' => h :: list_alter f i' t
  end.

(** Position of the first element satisfying [f] ([next(... for ...)]). *)
Fixpoint find_index {A} (f : A -> bool) (l : list A) : option nat :=
  match l with
  | [] => None
  | h :: t => if f h then Some O else option_map S (find_index f t)
  end.

(** ** Exceptions, outcomes and the engine monad *)

Inductive Exn :=
  | UnoRuleError (msg : string)
  | IndexError
  | ZeroDivisionError.

Inductive Outcome (A : Type) :=
  | Return (a : A)
  | Raise (e : Exn)
  | OutOfFuel.
Arguments Raise {A} e.
Arguments OutOfFuel {A}.

Record World := mkWorld { game : GameState; env : Env }.

Definition M (A : Type) : Type := World -> Outcome A * World.

Definition ret {A} (a : A) : M A := fun w => (Return a, w).

Definition bind {A B} (m : M A) (k : A -> M B) : M B :=
  fun w =>
    match m w with
    | (Return a, w') => k a w'
    | (Raise e, w') => (Raise e, w')
    | (OutOfFuel, w') => (OutOfFuel, w')
    end.

Definition raise {A} (e : Exn) : M A := fun w => (Raise e, w).

Declare Scope uno_scope.
Delimit Scope uno_scope with uno.
Notation "x <- c ;; k" := (bind c (fun x => k))
  (at level 61, c at next level, right associativity) : uno_scope.
Notation "c ;; k" := (bind c (fun _ => k))
  (at level 61, right associativity) : uno_scope.
Local Open Scope uno_scope.

Definition get : M GameState := fun w => (Return (game w), w).
Definition modify (f : GameState -> GameState) : M unit :=
  fun w => (Return tt, mkWorld (f (game w)) (env w)).
Definition lift_env {A} (f : Env -> A * Env) : M A :=
  fun w => let (a, e') := f (env w) in (Return a, mkWorld (game w) e').
Definition from_option {A} (e : Exn) (o : option A) : M A :=
  match o with Some a => ret a | None => raise e end.

(** [time.time()] *)
Definition time_time : M Z :=
  lift_env (fun e => let (t, c') := next (clock e) in (t, with_clock c' e)).

(** [state.updated_at = time.time()] *)
Definition touch : M unit := t <- time_time ;; modify (set_updated_at t).

Definition modify_player (j : nat) (f : Player -> Player) : M unit :=
  modify (fun s => set_players (list_alter f j (players s)) s).

(** The player object held in a local variable, read back through its position. *)
Definition player_at (j : nat) : M Player :=
  s <- get ;; from_option IndexError (nth_error (players s) j).

(** [str(n)] for a Python int, as f-strings print it. *)
Definition str_of_int (z : Z) : string := NilZero.string_of_int (Z.to_int z).

Definition status_str (s : Status) : string :=
  match s with
  | lobby => "lobby" | playing => "playing"
  | round_over => "round_over" | match_over => "match_over"
  end.

Definition is_wild_value (v : CardValue) : bool :=
  match v with WILD | WILD_DRAW_FOUR => true | _ => false end.

(** ** Turn engine *)

Definition _next_index (steps : Z) : M Z :=
  s <- get ;;
  let n := Z.of_nat (List.length (players s)) in
  if n =? 0 then raise ZeroDivisionError
  else ret ((current_player_index s + direction s * steps) mod n).

Definition rng_shuffle {A} (l : list A) : M (list A) :=
  lift_env (fun e => let (r, g') := shuffle l (rng e) in (r, with_rng g' e)).

Definition rng_choice_color : M CardColor :=
  lift_env (fun e => let (c, g') := choice red VALID_COLORS (rng e) in (c, with_rng g' e)).

Definition _reshuffle_if_needed : M unit :=
  s <- get ;;
  match draw_pile s with
  | _ :: _ => ret tt
  | [] =>
      if (List.length (discard_pile s) <=? 1)%nat then ret tt
      else
        top <- from_option IndexError (py_last (discard_pile s)) ;;
        rest <- rng_shuffle (removelast (discard_pile s)) ;;
        modify (set_draw_pile rest) ;;
        modify (set_discard_pile [top])
  end.

Definition _draw_one : M UnoCard :=
  _reshuffle_if_needed ;;
  s <- get ;;
  match draw_pile s with
  | [] => deck <- lift_env build_uno_deck ;; modify (set_draw_pile deck)
  | _ :: _ => ret tt
  end ;;
  s <- get ;;
  c <- from_option IndexError (py_last (draw_pile s)) ;;
  modify (set_draw_pile (removelast (draw_pile s))) ;;
  ret c.

(** The body of [_draw_cards_to_player]'s loop, [k] iterations left; [j] is
    the position of [player] in [state.players]. *)
Fixpoint draw_loop (j : nat) (k : nat) (drawn : list UnoCard) : M (list UnoCard) :=
  match k with
  | O => ret drawn
  | S k' =>
      c <- _draw_one ;;
      modify_player j (fun p => set_hand (hand p ++ [c]) p) ;;
      draw_loop j k' (drawn ++ [c])
  end.

Definition _draw_cards_to_player (j : nat) (count : Z) : M (list UnoCard) :=
  draw_loop j (Z.to_nat (Z.max 0 count)) [].

(** The [while True] of the source returns at the end of its first iteration. *)
Definition _find_starting_discard : M UnoCard :=
  c <- _draw_one ;;
  modify (fun s => set_discard_pile (discard_pile s ++ [c]) s) ;;
  (if is_wild_value (value c) then
     col <- rng_choice_color ;; modify (set_current_color (Some col))
   else if is_valid_color (color c) then
     modify (set_current_color (Some (color c)))
   else
     col <- rng_choice_color ;; modify (set_current_color (Some col))) ;;
  ret c.

Definition _apply_action_effects_after_play (played : UnoCard) : M (Z * bool) :=
  s <- get ;;
  let n := List.length (players s) in
  match value played with
  | SKIP => ret (2, false)
  | REVERSE => if (n =? 2)%nat then ret (2, true) else ret (1, true)
  | DRAW_TWO =>
      modify (fun s => set_pending_draw (pending_draw s + 2) s) ;; ret (2, false)
  | WILD_DRAW_FOUR =>
      modify (fun s => set_pending_draw (pending_draw s + 4) s) ;; ret (2, false)
  | _ => ret (1, false)
  end.

(** [if flip_dir: state.direction = -state.direction] *)
Definition flip_if (flip_dir : bool) : M unit :=
  if flip_dir then modify (fun s => set_direction (- direction s) s) else ret tt.

(** The two nested loops of [_resolve_round_if_won] that add up [points]. *)
Definition hand_points (acc : Z) (h : list UnoCard) : Z :=
  fold_left (fun a c => a + score_card c) h acc.

Definition round_points (winner_id : string) (ps : list Player) : Z :=
  fold_left (fun a p => if String.eqb (pid p) winner_id then a else hand_points a (hand p)) ps 0.

Definition _resolve_round_if_won : M bool :=
  s <- get ;;
  match find_index (fun p => (List.length (hand p) =? 0)%nat) (players s) with
  | None => ret false
  | Some k =>
      winner <- player_at k ;;
      let points := round_points (pid winner) (players s) in
      modify_player k (fun p => set_score (score p + points) p) ;;
      modify (set_winner_player_id (Some (pid winner))) ;;
      (if score winner + points >=? score_limit (settings s) then
         modify (set_status match_over) ;;
         modify (set_message
           (Some (name winner ++ " wins the match (+" ++ str_of_int points ++ ").")))
       else
         modify (set_status round_over) ;;
         modify (set_message
           (Some (name winner ++ " wins the round (+" ++ str_of_int points ++ ").")))) ;;
      ret true
  end.

(** ** Automated player *)

Definition count_color (h : list UnoCard) (c : CardColor) : nat :=
  List.length (filter (fun card => color_eqb (color card) c) h).

(** [max(counts.items(), key=...)[0]]: the first colour, in [VALID_COLORS]
    order, whose count is maximal. *)
Definition _ai_choose_color (player : Player) : CardColor :=
  fold_left
    (fun best c => if (count_color (hand player) best <? count_color (hand player) c)%nat
                   then c else best)
    [yellow; green; blue] red.

Definition prio (c : UnoCard) : nat :=
  match value c with
  | WILD_DRAW_FOUR | DRAW_TWO | SKIP | REVERSE => 0
  | WILD => 1
  | v => if _is_numeric v then 2 else 3
  end.

(** [playable.sort(key=prio)]: a stable sort on keys 0..3. *)
Definition sort_by_prio (l : list UnoCard) : list UnoCard :=
  flat_map (fun k => filter (fun c => Nat.eqb (prio c) k) l) (seq 0 4).

Definition _ai_choose_play (s : GameState) (player : Player)
  : option UnoCard * option CardColor :=
  match py_last (discard_pile s) with
  | None => (None, None)
  | Some top =>
      let playable := filter (fun c => can_play_on c top (current_color s)) (hand player) in
      match sort_by_prio playable with
      | [] => (None, None)
      | chosen :: _ =>
          (Some chosen,
           if color_eqb (color chosen) wild then Some (_ai_choose_color player) else None)
      end
  end.

(** ** Validation *)

Definition status_eqb (a b : Status) : bool :=
  match a, b with
  | lobby, lobby | playing, playing | round_over, round_over
  | match_over, match_over => true
  | _, _ => false
  end.

Definition _require_playing : M unit :=
  s <- get ;;
  if status_eqb (status s) playing then ret tt
  else raise (UnoRuleError
         ("Game is not in playing state (status=" ++ status_str (status s) ++ ").")).

(** The player object is returned as its position in [state.players]. *)
Definition _get_player (player_id : string) : M nat :=
  s <- get ;;
  from_option (UnoRuleError "Unknown player.")
    (find_index (fun p => String.eqb (pid p) player_id) (players s)).

Definition _require_turn (player_id : string) : M nat :=
  _require_playing ;;
  p <- _get_player player_id ;;
  s <- get ;;
  i <- from_option IndexError (py_index (players s) (current_player_index s)) ;;
  cur <- player_at i ;;
  if negb (String.eqb (pid cur) player_id) then raise (UnoRuleError "Not your turn.")
  else ret p.

(** [[c for c in hand if c.id != cid]] *)
Definition remove_by_id (cid : string) (h : list UnoCard) : list UnoCard :=
  filter (fun c => negb (String.eqb (card_id c) cid)) h.

Definition discard_append (c : UnoCard) : M unit :=
  modify (fun s => set_discard_pile (discard_pile s ++ [c]) s).

Definition advance (steps : Z) : M unit :=
  ni <- _next_index steps ;; modify (set_current_player_index ni).

(** ** Automated-player driver

    The [while] loop of the source can run for ever (an automated player that
    keeps drawing and auto-playing SKIP cards), so the loop takes [fuel]: one
    unit per evaluation of the loop condition. *)
Fixpoint _auto_resolve_ai_turns (fuel : nat) : M unit :=
  match fuel with
  | O => fun w => (OutOfFuel, w)
  | S fuel' =>
      s <- get ;;
      if negb (status_eqb (status s) playing) then ret tt else
      i <- from_option IndexError (py_index (players s) (current_player_index s)) ;;
      cur <- player_at i ;;
      if negb (is_ai cur) then ret tt else
      if pending_draw s >? 0 then
        _draw_cards_to_player i (pending_draw s) ;;
        modify (set_pending_draw 0) ;;
        modify (set_must_play_or_pass false) ;;
        modify (set_last_drawn_card_id None) ;;
        advance 1 ;;
        touch ;;
        _auto_resolve_ai_turns fuel'
      else
        match _ai_choose_play s cur with
        | (None, wild_color) =>
            drawn_l <- _draw_cards_to_player i 1 ;;
            drawn <- from_option IndexError (hd_error drawn_l) ;;
            s1 <- get ;;
            auto <- (if auto_play_if_drawn_playable (settings s1) then
                       top <- from_option IndexError (py_last (discard_pile s1)) ;;
                       ret (can_play_on drawn top (current_color s1))
                     else ret false) ;;
            if (auto : bool) then
              modify_player i (fun p => set_hand (remove_by_id (card_id drawn) (hand p)) p) ;;
              discard_append drawn ;;
              (if is_valid_color (color drawn) then
                 modify (set_current_color (Some (color drawn)))
               else
                 cur' <- player_at i ;;
                 modify (set_current_color
                   (Some (match wild_color with
                          | Some c => c
                          | None => _ai_choose_color cur'
                          end)))) ;;
              eff <- _apply_action_effects_after_play drawn ;;
              flip_if (snd eff) ;;
              won <- _resolve_round_if_won ;;
              if (won : bool) then touch
              else
                advance (fst eff) ;;
                touch ;;
                _auto_resolve_ai_turns fuel'
            else
              advance 1 ;;
              touch ;;
              _auto_resolve_ai_turns fuel'
        | (Some chosen, wild_color) =>
            modify_player i (fun p => set_hand (remove_by_id (card_id chosen) (hand p)) p) ;;
            discard_append chosen ;;
            (if is_valid_color (color chosen) then
               modify (set_current_color (Some (color chosen)))
             else
               cur' <- player_at i ;;
               modify (set_current_color
                 (Some (match wild_color with
                        | Some c => c
                        | None => _ai_choose_color cur'
                        end)))) ;;
            eff <- _apply_action_effects_after_play chosen ;;
            flip_if (snd eff) ;;
            won <- _resolve_round_if_won ;;
            if (won : bool) then touch
            else
              advance (fst eff) ;;
              touch ;;
              _auto_resolve_ai_turns fuel'
        end
  end.

(** ** Public operations *)

(** [chosen_color] as the caller passes it, read as one of [VALID_COLORS]. *)
Definition parse_color (c : option string) : option CardColor :=
  match c with
  | None => None
  | Some s =>
      if String.eqb s "red" then Some red
      else if String.eqb s "yellow" then Some yellow
      else if String.eqb s "green" then Some green
      else if String.eqb s "blue" then Some blue
      else None
  end.

Definition play_card (fuel : nat) (player_id cid : string) (chosen_color : option string)
  : M unit :=
  player <- _require_turn player_id ;;
  s <- get ;;
  if pending_draw s >? 0 then
    raise (UnoRuleError "You must draw the pending penalty before playing.")
  else
  match py_last (discard_pile s) with
  | None => raise (UnoRuleError "No discard pile to play on.")
  | Some top =>
      p <- player_at player ;;
      match find (fun c => String.eqb (card_id c) cid) (hand p) with
      | None => raise (UnoRuleError "Card not in your hand.")
      | Some card =>
          if negb (can_play_on card top (current_color s)) then
            raise (UnoRuleError "Card is not playable on the current discard.")
          else
            (if is_wild_value (value card) then
               match parse_color chosen_color with
               | None => raise (UnoRuleError "chosenColor is required for wild cards.")
               | Some cc =>
                   (if negb (allow_illegal_wild_draw_four (settings s))
                       && value_eqb (value card) WILD_DRAW_FOUR then
                      let color_to_match :=
                        match current_color s with
                        | Some c => Some c
                        | None => if is_valid_color (color top) then Some (color top) else None
                        end in
                      match color_to_match with
                      | Some m =>
                          if existsb (fun c => color_eqb (color c) m)
                               (remove_by_id (card_id card) (hand p))
                          then raise (UnoRuleError
                                 "Wild Draw Four not allowed when you have a matching color.")
                          else ret tt
                      | None => ret tt
                      end
                    else ret tt) ;;
                   modify (set_current_color (Some cc))
               end
             else if is_valid_color (color card) then
               modify (set_current_color (Some (color card)))
             else ret tt) ;;
            modify_player player
              (fun q => set_hand (remove_by_id (card_id card) (hand q)) q) ;;
            discard_append card ;;
            modify (set_must_play_or_pass false) ;;
            modify (set_last_drawn_card_id None) ;;
            eff <- _apply_action_effects_after_play card ;;
            flip_if (snd eff) ;;
            won <- _resolve_round_if_won ;;
            if (won : bool) then touch
            else
              advance (fst eff) ;;
              touch ;;
              q <- player_at player ;;
              modify (set_message (Some (name q ++ " played " ++ value_str (value card) ++ "."))) ;;
              _auto_resolve_ai_turns fuel
      end
  end.

Definition draw_card (fuel : nat) (player_id : string) : M UnoCard :=
  player <- _require_turn player_id ;;
  s <- get ;;
  if pending_draw s >? 0 then
    _draw_cards_to_player player (pending_draw s) ;;
    q <- player_at player ;;
    s' <- get ;;
    modify (set_message
      (Some (name q ++ " drew " ++ str_of_int (pending_draw s') ++ " cards."))) ;;
    modify (set_pending_draw 0) ;;
    modify (set_must_play_or_pass false) ;;
    modify (set_last_drawn_card_id None) ;;
    advance 1 ;;
    touch ;;
    _auto_resolve_ai_turns fuel ;;
    q' <- player_at player ;;
    from_option IndexError (py_last (hand q'))
  else
    drawn_l <- _draw_cards_to_player player 1 ;;
    drawn <- from_option IndexError (hd_error drawn_l) ;;
    modify (set_last_drawn_card_id (Some (card_id drawn))) ;;
    s1 <- get ;;
    top <- from_option IndexError (py_last (discard_pile s1)) ;;
    if auto_play_if_drawn_playable (settings s1) && can_play_on drawn top (current_color s1)
    then
      modify_player player
        (fun q => set_hand (remove_by_id (card_id drawn) (hand q)) q) ;;
      discard_append drawn ;;
      (if is_wild_value (value drawn) then
         q <- player_at player ;;
         modify (set_current_color (Some (if is_ai q then _ai_choose_color q else red)))
       else if is_valid_color (color drawn) then
         modify (set_current_color (Some (color drawn)))
       else ret tt) ;;
      eff <- _apply_action_effects_after_play drawn ;;
      flip_if (snd eff) ;;
      won <- _resolve_round_if_won ;;
      if (won : bool) then touch ;; ret drawn
      else
        advance (fst eff) ;;
        touch ;;
        q <- player_at player ;;
        modify (set_message
          (Some (name q ++ " drew and played " ++ value_str (value drawn) ++ "."))) ;;
        _auto_resolve_ai_turns fuel ;;
        ret drawn
    else
      advance 1 ;;
      touch ;;
      q <- player_at player ;;
      modify (set_message (Some (name q ++ " drew a card."))) ;;
      _auto_resolve_ai_turns fuel ;;
      ret drawn.

Definition pass_turn (fuel : nat) (player_id : string) : M unit :=
  _require_turn player_id ;;
  s <- get ;;
  if pending_draw s >? 0 then
    raise (UnoRuleError "Cannot pass while a pending draw penalty exists. Draw first.")
  else
    modify (set_must_play_or_pass false) ;;
    modify (set_last_drawn_card_id None) ;;
    advance 1 ;;
    touch ;;
    modify (set_message (Some "Turn passed.")) ;;
    _auto_resolve_ai_turns fuel.

(** ** Game creation and restart *)

(** [for p in state.players: _draw_cards_to_player(state, p, hand_size, rng)] *)
Fixpoint deal (js : list nat) : M unit :=
  match js with
  | [] => ret tt
  | j :: js' =>
      s <- get ;;
      _draw_cards_to_player j (hand_size (settings s)) ;;
      deal js'
  end.

Definition is_action_start (v : CardValue) : bool :=
  match v with
  | SKIP | REVERSE | DRAW_TWO | WILD_DRAW_FOUR => true
  | _ => false
  end.

(** The effect of the flipped starting card, shared by [new_game] and
    [restart_round]. *)
Definition apply_start_effect (first : UnoCard) : M unit :=
  if is_action_start (value first) then
    eff <- _apply_action_effects_after_play first ;;
    flip_if (snd eff) ;;
    advance (fst eff - 1)
  else ret tt.

Definition new_game_players (mode human_name cpu_name : string) (st : GameSettings)
  : list Player :=
  let human := mkPlayer "p1" human_name false 0 [] in
  if String.eqb mode "singleplayer" || String.eqb mode "vs_ai" then
    if ai_enabled st then [human; mkPlayer "p2" cpu_name true 0 []] else [human]
  else if String.eqb mode "local" || String.eqb mode "multiplayer" then
    [human; mkPlayer "p2" "Player 2" false 0 []]
  else [human].

Definition new_game (mode human_name cpu_name : string) (settings : option GameSettings)
  (e : Env) : Outcome GameState * Env :=
  let (g, u1) := next (uuid e) in
  let (t_created, c1) := next (clock e) in
  let (t_updated, c2) := next c1 in
  let stg := match settings with Some s => s | None => default_settings end in
  let st := mkState g playing t_created t_updated
              (new_game_players mode human_name cpu_name stg)
              0 1 [] [] None 0 false None None None stg in
  let body : M GameState :=
    deck <- lift_env build_uno_deck ;;
    modify (set_draw_pile deck) ;;
    modify (set_discard_pile []) ;;
    deal (seq 0 (List.length (players st))) ;;
    first <- _find_starting_discard ;;
    apply_start_effect first ;;
    modify (set_status playing) ;;
    touch ;;
    modify (set_message (Some "Game started.")) ;;
    get in
  let (r, w) := body (mkWorld st (with_clock c2 (with_uuid u1 e))) in
  (r, env w).

Definition restart_round : M unit :=
  modify (fun s => set_players (map (set_hand []) (players s)) s) ;;
  deck <- lift_env build_uno_deck ;;
  modify (set_draw_pile deck) ;;
  modify (set_discard_pile []) ;;
  s <- get ;;
  deal (seq 0 (List.length (players s))) ;;
  first <- _find_starting_discard ;;
  modify (set_current_player_index 0) ;;
  modify (set_direction 1) ;;
  modify (set_pending_draw 0) ;;
  modify (set_must_play_or_pass false) ;;
  modify (set_last_drawn_card_id None) ;;
  modify (set_winner_player_id None) ;;
  modify (set_status playing) ;;
  touch ;;
  modify (set_message (Some "Round restarted.")) ;;
  apply_start_effect first.

(** ** Settings *)

(** The values a patch dictionary can hold. *)
Inductive PyVal :=
  | PyInt (z : Z)
  | PyBool (b : bool)
  | PyStr (s : string)
  | PyNone.

(** [isinstance(v, int)]: Python's [bool] is a subclass of [int]. *)
Definition as_int (v : PyVal) : option Z :=
  match v with
  | PyInt z => Some z
  | PyBool b => Some (if b then 1 else 0)
  | _ => None
  end.

(** [isinstance(v, bool)] *)
Definition as_bool (v : PyVal) : option bool :=
  match v with
  | PyBool b => Some b
  | _ => None
  end.

Definition Patch := list (string * PyVal).

Fixpoint patch_get (k : string) (p : Patch) : option PyVal :=
  match p with
  | [] => None
  | (k', v) :: t => if String.eqb k' k then Some v else patch_get k t
  end.

(** [k in patch and isinstance(patch[k], int) and lo <= patch[k] <= hi] *)
Definition int_field (k : string) (lo hi : Z) (p : Patch) : option Z :=
  match patch_get k p with
  | Some v =>
      match as_int v with
      | Some z => if (lo <=? z) && (z <=? hi) then Some z else None
      | None => None
      end
  | None => None
  end.

Definition bool_field (k : string) (p : Patch) : option bool :=
  match patch_get k p with
  | Some v => as_bool v
  | None => None
  end.

Definition set_hand_size v (s : GameSettings) :=
  mkSettings v (ai_enabled s) (ai_delay_ms s) (auto_play_if_drawn_playable s)
    (allow_illegal_wild_draw_four s) (score_limit s).
Definition set_ai_enabled v (s : GameSettings) :=
  mkSettings (hand_size s) v (ai_delay_ms s) (auto_play_if_drawn_playable s)
    (allow_illegal_wild_draw_four s) (score_limit s).
Definition set_ai_delay_ms v (s : GameSettings) :=
  mkSettings (hand_size s) (ai_enabled s) v (auto_play_if_drawn_playable s)
    (allow_illegal_wild_draw_four s) (score_limit s).
Definition set_auto_play_if_drawn_playable v (s : GameSettings) :=
  mkSettings (hand_size s) (ai_enabled s) (ai_delay_ms s) v
    (allow_illegal_wild_draw_four s) (score_limit s).
Definition set_allow_illegal_wild_draw_four v (s : GameSettings) :=
  mkSettings (hand_size s) (ai_enabled s) (ai_delay_ms s) (auto_play_if_drawn_playable s)
    v (score_limit s).
Definition set_score_limit v (s : GameSettings) :=
  mkSettings (hand_size s) (ai_enabled s) (ai_delay_ms s) (auto_play_if_drawn_playable s)
    (allow_illegal_wild_draw_four s) v.

Definition modify_settings (f : GameSettings -> GameSettings) : M unit :=
  modify (fun s => set_settings (f (settings s)) s).

Definition when_some {A} (o : option A) (k : A -> M unit) : M unit :=
  match o with Some a => k a | None => ret tt end.

(** [for p in state.players[1:]: p.is_ai = b] *)
Definition set_ai_beyond_first (b : bool) (ps : list Player) : list Player :=
  match ps with
  | [] => []
  | p :: rest => p :: map (set_is_ai b) rest
  end.

Definition update_settings (patch : Patch) : M unit :=
  when_some (int_field "handSize" 1 15 patch)
    (fun v => modify_settings (set_hand_size v)) ;;
  when_some (bool_field "aiEnabled" patch)
    (fun b =>
       modify_settings (set_ai_enabled b) ;;
       modify (fun s => set_players (set_ai_beyond_first b (players s)) s)) ;;
  when_some (int_field "aiDelayMs" 0 5000 patch)
    (fun v => modify_settings (set_ai_delay_ms v)) ;;
  when_some (bool_field "autoPlayIfDrawnPlayable" patch)
    (fun b => modify_settings (set_auto_play_if_drawn_playable b)) ;;
  when_some (bool_field "allowIllegalWildDrawFour" patch)
    (fun b => modify_settings (set_allow_illegal_wild_draw_four b)) ;;
  when_some (int_field "scoreLimit" 50 5000 patch)
    (fun v => modify_settings (set_score_limit v)) ;;
  touch ;;
  modify (set_message (Some "Settings updated.")).

(** ** Public view *)

Record PlayerView := mkPlayerView {
  pv_id : string;
  pv_name : string;
  pv_isAI : bool;
  pv_score : Z;
  pv_handCount : nat;
  pv_isYou : bool
}.

Record PublicView := mkView {
  v_gameId : string;
  v_status : Status;
  v_message : option string;
  v_currentPlayerIndex : Z;
  v_direction : Z;
  v_players : list PlayerView;
  v_you_playerId : string;
  v_you_hand : list UnoCard;
  v_discardTop : option UnoCard;
  v_currentColor : option CardColor;
  v_drawPileCount : nat;
  v_pendingDraw : Z;
  v_mustPlayOrPass : bool;
  v_winnerPlayerId : option string;
  v_updatedAt : Z;
  v_settings : GameSettings
}.

(** [None] stands for the [IndexError] of [state.players[0]] on an empty
    player list (the default of [next] is evaluated eagerly). *)
Definition as_public_state (s : GameState) (you_player_id : string) : option PublicView :=
  let top := py_last (discard_pile s) in
  let players_out :=
    map (fun p => mkPlayerView (pid p) (name p) (is_ai p) (score p)
                    (List.length (hand p)) (String.eqb (pid p) you_player_id))
        (players s) in
  match players s with
  | [] => None
  | p0 :: _ =>
      let you :=
        match find (fun p => String.eqb (pid p) you_player_id) (players s) with
        | Some p => p
        | None => p0
        end in
      Some (mkView (gid s) (status s) (message s) (current_player_index s) (direction s)
              players_out (pid you) (hand you) top (current_color s)
              (List.length (draw_pile s)) (pending_draw s) (must_play_or_pass s)
              (winner_player_id s) (updated_at s) (settings s))
  end.

(** ** Sessions and scripted runs *)

Inductive Action :=
  | APlay (player_id cid : string) (chosen_color : option string)
  | ADraw (player_id : string)
  | APass (player_id : string)
  | APatch (patch : Patch)
  | ARestart.

Definition run_action (fuel : nat) (a : Action) : M unit :=
  match a with
  | APlay p c col => play_card fuel p c col
  | ADraw p => draw_card fuel p ;; ret tt
  | APass p => pass_turn fuel p
  | APatch patch => update_settings patch
  | ARestart => restart_round
  end.

(** Each request runs on the state the previous one left, whatever its outcome. *)
Fixpoint run_script (fuel : nat) (acts : list Action) (w : World) : World :=
  match acts with
  | [] => w
  | a :: rest => run_script fuel rest (snd (run_action fuel a w))
  end.

(** [InMemoryGameStore.create] followed by the requests of a script and a
    final [as_public_state]. *)
Definition session_view (fuel : nat) (mode : string) (acts : list Action)
  (you : string) (e : Env) : option PublicView :=
  match new_game mode "You" "CPU" None e with
  | (Return st, e') => as_public_state (game (run_script fuel acts (mkWorld st e'))) you
  | _ => None
  end.

(** ** Card accounting *)

Definition hands (s : GameState) : list UnoCard := flat_map hand (players s).

Definition all_cards (s : GameState) : list UnoCard :=
  draw_pile s ++ discard_pile s ++ hands s.

Definition total_cards (s : GameState) : nat := List.length (all_cards s).

(** A concrete environment for closed examples. *)
Definition demo_uuid : Oracle string :=
  mkOracle (fun n => NilZero.string_of_uint (Nat.to_uint n)) 0.
Definition demo_env : Env :=
  mkEnv (mkOracle (fun n => (7 * n + 3)%nat) 0) demo_uuid (mkOracle Z.of_nat 0).

(** * Properties *)

Local Open Scope list_scope.

(** The deck is 108 cards long: keep reduction tactics from building it. *)
Opaque deck_faces.

(** ** Shuffling permutes *)

Section Shuffle.
Context {A : Type}.

Lemma list_set_perm (l : list A) (i : nat) (a v : A) :
  nth_error l i = Some a ->
  Permutation (a :: list_set l i v) (v :: l).
Proof.
  revert i; induction l as [|h t IH]; intros [|i] H; simpl in *; try discriminate.
  - injection H as ->. apply perm_swap.
  - rewrite perm_swap. rewrite (IH i H). apply perm_swap.
Qed.

Lemma list_set_nth (l : list A) (i : nat) (a v : A) :
  nth_error l i = Some a -> nth_error (list_set l i v) i = Some v.
Proof.
  revert i; induction l as [|h t IH]; intros [|i] H; simpl in *; try discriminate; auto.
Qed.

Lemma list_set_nth_other (l : list A) (i j : nat) (v : A) :
  i <> j -> nth_error (list_set l i v) j = nth_error l j.
Proof.
  revert i j; induction l as [|h t IH]; intros [|i] [|j] H; simpl; auto.
  congruence.
Qed.

Lemma swap_perm (l : list A) (i j : nat) : Permutation (swap l i j) l.
Proof.
  unfold swap.
  destruct (nth_error l i) as [a|] eqn:Hi; [|reflexivity].
  destruct (nth_error l j) as [b|] eqn:Hj; [|reflexivity].
  apply Permutation_cons_inv with (a := b).
  assert (Hb : nth_error (list_set l i b) j = Some b).
  { destruct (Nat.eq_dec i j) as [->|Hne].
    - eapply list_set_nth; eauto.
    - rewrite list_set_nth_other; auto. }
  rewrite (list_set_perm _ _ a Hb).
  apply (list_set_perm _ _ b Hi).
Qed.

Lemma shuffle_from_perm (i : nat) (l : list A) (g : Oracle nat) :
  Permutation (fst (shuffle_from i l g)) l.
Proof.
  revert l g; induction i as [|i IH]; intros l g; simpl; [reflexivity|].
  unfold randbelow. simpl.
  rewrite IH. apply swap_perm.
Qed.

Lemma shuffle_perm (l : list A) (g : Oracle nat) : Permutation (fst (shuffle l g)) l.
Proof. apply shuffle_from_perm. Qed.
End Shuffle.

(** ** Deck construction *)

(** The next [n] identifiers of the [uuid4] source are pairwise distinct. *)
Definition fresh_ids (u : Oracle string) (n : nat) : Prop :=
  NoDup (map (feed u) (seq (cursor u) n)).

Definition face (c : UnoCard) : CardColor * CardValue := (color c, value c).

Definition face_eqb (a b : CardColor * CardValue) : bool :=
  color_eqb (fst a) (fst b) && value_eqb (snd a) (snd b).

(** Number of cards of a deck showing colour [c] and value [v]. *)
Definition count_face (c : CardColor) (v : CardValue) (deck : list UnoCard) : nat :=
  List.length (filter (fun k => face_eqb (face k) (c, v)) deck).

(** The canonical deck in the words of the specification: per colour one "0",
    two each of "1".."9" and of SKIP, REVERSE, DRAW_TWO; four WILD and four
    WILD_DRAW_FOUR. *)
Definition canonical_count (c : CardColor) (v : CardValue) : nat :=
  match c, v with
  | wild, (WILD | WILD_DRAW_FOUR) => 4
  | wild, _ => 0
  | _, (WILD | WILD_DRAW_FOUR) => 0
  | _, V0 => 1
  | _, _ => 2
  end.

Lemma new_cards_faces faces u : map face (fst (new_cards faces u)) = faces.
Proof.
  revert u; induction faces as [|[c v] fs IH]; intro u; simpl; [reflexivity|].
  specialize (IH (mkOracle (feed u) (S (cursor u)))).
  destruct (new_cards fs (mkOracle (feed u) (S (cursor u)))) as [cs u2].
  simpl in *. now rewrite IH.
Qed.

Lemma new_cards_ids faces u :
  map card_id (fst (new_cards faces u)) = map (feed u) (seq (cursor u) (List.length faces)).
Proof.
  revert u; induction faces as [|[c v] fs IH]; intro u; simpl; [reflexivity|].
  specialize (IH (mkOracle (feed u) (S (cursor u)))).
  destruct (new_cards fs (mkOracle (feed u) (S (cursor u)))) as [cs u2].
  simpl in *. now rewrite IH.
Qed.

Lemma new_cards_cursor faces u :
  snd (new_cards faces u) = mkOracle (feed u) (cursor u + List.length faces).
Proof.
  revert u; induction faces as [|[c v] fs IH]; intro u; simpl.
  - destruct u; simpl; f_equal; lia.
  - specialize (IH (mkOracle (feed u) (S (cursor u)))).
    destruct (new_cards fs (mkOracle (feed u) (S (cursor u)))) as [cs u2].
    simpl in *. rewrite IH. f_equal; lia.
Qed.

Lemma deck_faces_length : List.length deck_faces = 108%nat.
Proof. vm_compute. reflexivity. Qed.

(** What [build_uno_deck] returns, without running it: a permutation of the
    cards created face by face, a rng that moved on, 108 identifiers consumed
    and the clock untouched. *)
Lemma build_uno_deck_spec e :
  exists deck g',
    build_uno_deck e
    = (deck, mkEnv g' (mkOracle (feed (uuid e)) (cursor (uuid e) + 108)) (clock e))
    /\ Permutation deck (fst (new_cards deck_faces (uuid e))).
Proof.
  unfold build_uno_deck.
  pose proof deck_faces_length as Hlen. revert Hlen.
  generalize deck_faces. intros fs Hlen.
  pose proof (new_cards_cursor fs (uuid e)) as Hc.
  destruct (new_cards fs (uuid e)) as [d u'].
  pose proof (shuffle_perm d (rng e)) as HP.
  destruct (shuffle d (rng e)) as [d' g'].
  simpl in *. exists d', g'. split; [|exact HP].
  rewrite Hc, Hlen. reflexivity.
Qed.

Lemma build_uno_deck_perm e :
  Permutation (fst (build_uno_deck e)) (fst (new_cards deck_faces (uuid e))).
Proof.
  destruct (build_uno_deck_spec e) as (deck & g' & E & HP).
  rewrite E. exact HP.
Qed.

Lemma filter_length_perm {A} (f : A -> bool) (l l' : list A) :
  Permutation l l' -> List.length (filter f l) = List.length (filter f l').
Proof.
  induction 1; simpl; auto.
  - destruct (f x); simpl; auto.
  - destruct (f x), (f y); simpl; auto.
  - congruence.
Qed.

Lemma count_face_map c v deck :
  count_face c v deck
  = List.length (filter (fun f => face_eqb f (c, v)) (map face deck)).
Proof.
  unfold count_face. induction deck as [|k t IH]; simpl; [reflexivity|].
  destruct (face_eqb (face k) (c, v)); simpl; auto.
Qed.

Lemma count_face_perm c v l l' :
  Permutation l l' -> count_face c v l = count_face c v l'.
Proof. apply filter_length_perm. Qed.

Lemma deck_faces_canonical c v :
  List.length (filter (fun f => face_eqb f (c, v)) deck_faces) = canonical_count c v.
Proof. destruct c, v; vm_compute; reflexivity. Qed.

(** C8 — Deck construction: for every random source, [build_uno_deck] returns
    exactly 108 cards; for each of the four colours there is one "0", two each
    of "1".."9" and two each of SKIP, REVERSE and DRAW_TWO, and there are four
    WILD and four WILD_DRAW_FOUR; the 108 card ids are pairwise distinct
    (the ids are the next 108 values of [uuid4], which returns fresh tokens). *)
Theorem build_uno_deck_canonical (e : Env) :
  fresh_ids (uuid e) 108 ->
  let deck := fst (build_uno_deck e) in
  List.length deck = 108%nat
  /\ (forall c v, count_face c v deck = canonical_count c v)
  /\ NoDup (map card_id deck).
Proof.
  intros Hfresh deck.
  pose proof (build_uno_deck_perm e) as HP. fold deck in HP.
  repeat split.
  - rewrite (Permutation_length HP).
    rewrite <- (length_map face), new_cards_faces. apply deck_faces_length.
  - intros c v.
    rewrite (count_face_perm c v HP).
    rewrite count_face_map, new_cards_faces. apply deck_faces_canonical.
  - eapply Permutation_NoDup.
    + apply Permutation_map. symmetry. exact HP.
    + rewrite new_cards_ids. exact Hfresh.
Qed.

(** Boolean check that a list of identifiers has no repetition. *)
Fixpoint nodupb (l : list string) : bool :=
  match l with
  | [] => true
  | x :: t => negb (existsb (String.eqb x) t) && nodupb t
  end.

Lemma nodupb_sound l : nodupb l = true -> NoDup l.
Proof.
  induction l as [|x t IH]; simpl; intro H; constructor.
  - apply andb_prop in H as [H _]. intro Hin.
    apply negb_true_iff in H.
    assert (existsb (String.eqb x) t = true) as E.
    { apply existsb_exists. exists x. split; auto. apply String.eqb_refl. }
    congruence.
  - apply IH. apply andb_prop in H as [_ H]. exact H.
Qed.

Lemma demo_fresh n k : nodupb (map (feed demo_uuid) (seq k n)) = true ->
  fresh_ids (mkOracle (feed demo_uuid) k) n.
Proof. intro H. apply nodupb_sound. exact H. Qed.

Lemma build_uno_deck_canonical_witness :
  let deck := fst (build_uno_deck demo_env) in
  List.length deck = 108%nat
  /\ (forall c v, count_face c v deck = canonical_count c v)
  /\ NoDup (map card_id deck).
Proof.
  apply (build_uno_deck_canonical demo_env).
  apply (demo_fresh 108 0). vm_compute. reflexivity.
Defined.


(** ** Turn pointer: REVERSE with two players *)

(** The effect of a played card followed by the turn-pointer advance, as
    [play_card] runs them when the round is not won. *)
Definition effect_then_advance (played : UnoCard) : M unit :=
  eff <- _apply_action_effects_after_play played ;;
  flip_if (snd eff) ;;
  advance (fst eff).

(** C6 — Two-player REVERSE equals SKIP on the turn index: with exactly two
    players, the effect of a REVERSE card followed by the turn-pointer advance
    and the effect of a SKIP card followed by the advance both succeed and give
    the same [current_player_index], which is the old index modulo 2. *)
Theorem reverse_is_skip_for_two (w : World) (rev skip : UnoCard) :
  List.length (players (game w)) = 2%nat ->
  value rev = REVERSE ->
  value skip = SKIP ->
  exists w1 w2,
    effect_then_advance rev w = (Return tt, w1)
    /\ effect_then_advance skip w = (Return tt, w2)
    /\ current_player_index (game w1) = current_player_index (game w2)
    /\ current_player_index (game w2) = current_player_index (game w) mod 2.
Proof.
  intros Hn Hr Hs.
  unfold effect_then_advance, _apply_action_effects_after_play, flip_if, advance,
    _next_index, bind, get, ret, modify.
  rewrite Hr, Hs. cbn. rewrite !Hn. cbn. rewrite !Hn. cbn.
  do 2 eexists. split; [reflexivity|]. split; [reflexivity|]. cbn. split.
  - rewrite !Z_mod_plus_full. reflexivity.
  - apply Z_mod_plus_full.
Qed.

Definition two_player_state : GameState :=
  mkState "g" playing 0 0
    [mkPlayer "p1" "You" false 0 [mkCard "a" red REVERSE; mkCard "b" blue V3];
     mkPlayer "p2" "CPU" true 0 [mkCard "c" red SKIP; mkCard "d" green V7]]
    1 1 [mkCard "e" yellow V1; mkCard "f" yellow V2] [mkCard "t" red V5]
    (Some red) 0 false None None None default_settings.

Lemma reverse_is_skip_for_two_witness :
  exists w1 w2,
    effect_then_advance (mkCard "a" red REVERSE) (mkWorld two_player_state demo_env)
      = (Return tt, w1)
    /\ effect_then_advance (mkCard "c" red SKIP) (mkWorld two_player_state demo_env)
      = (Return tt, w2)
    /\ current_player_index (game w1) = current_player_index (game w2)
    /\ current_player_index (game w2) = 1 mod 2.
Proof.
  apply (reverse_is_skip_for_two (mkWorld two_player_state demo_env)
           (mkCard "a" red REVERSE) (mkCard "c" red SKIP)); reflexivity.
Defined.


(** ** Settings patches *)

Ltac settings_cases patch :=
  unfold update_settings, when_some, modify_settings, touch, time_time, lift_env,
    bind, ret, modify;
  repeat match goal with
  | |- context [int_field ?k ?lo ?hi patch] => destruct (int_field k lo hi patch)
  | |- context [bool_field ?k patch] => destruct (bool_field k patch)
  end.

Lemma update_settings_returns patch w : fst (update_settings patch w) = Return tt.
Proof. settings_cases patch; reflexivity. Qed.

(** No patch touches the cards or the turn state. *)
Lemma update_settings_frame patch w :
  let s := game w in
  let s' := game (snd (update_settings patch w)) in
  map hand (players s') = map hand (players s)
  /\ draw_pile s' = draw_pile s
  /\ discard_pile s' = discard_pile s
  /\ current_player_index s' = current_player_index s
  /\ direction s' = direction s
  /\ pending_draw s' = pending_draw s
  /\ current_color s' = current_color s
  /\ status s' = status s.
Proof.
  assert (Hh : forall b ps, map hand (set_ai_beyond_first b ps) = map hand ps).
  { intros b [|p ps]; simpl; [reflexivity|]. f_equal.
    rewrite map_map. apply map_ext. reflexivity. }
  settings_cases patch; simpl; repeat split; auto.
Qed.

(** C9 — Settings patch validation and frame: a patch whose handSize lies
    outside [1,15] leaves [hand_size] unchanged; the patch {handSize: 5} sets
    [hand_size] to 5 and leaves every other settings field, every player, both
    piles and the turn state (index, direction, pending draw, active colour,
    status) unchanged. *)
Theorem update_settings_hand_size (w : World) :
  (forall patch z,
      patch_get "handSize" patch = Some (PyInt z) ->
      z < 1 \/ 15 < z ->
      hand_size (settings (game (snd (update_settings patch w))))
      = hand_size (settings (game w)))
  /\ (let s := game w in
      let s' := game (snd (update_settings [("handSize", PyInt 5)] w)) in
      fst (update_settings [("handSize", PyInt 5)] w) = Return tt
      /\ settings s' = set_hand_size 5 (settings s)
      /\ players s' = players s
      /\ draw_pile s' = draw_pile s
      /\ discard_pile s' = discard_pile s
      /\ current_player_index s' = current_player_index s
      /\ direction s' = direction s
      /\ pending_draw s' = pending_draw s
      /\ current_color s' = current_color s
      /\ status s' = status s).
Proof.
  split.
  - intros patch z Hget Hrange.
    assert (Hf : int_field "handSize" 1 15 patch = None).
    { unfold int_field. rewrite Hget. simpl.
      destruct (1 <=? z) eqn:E1, (z <=? 15) eqn:E2; simpl; auto. lia. }
    unfold update_settings. rewrite Hf.
    settings_cases patch; reflexivity.
  - repeat split; reflexivity.
Qed.

(** C10 — Enabling AI promotes: a patch with aiEnabled = true sets [is_ai] on
    every player but the first, whatever it was, and leaves the first player
    as it was; with at least two players the second one is automated
    afterwards. *)
Theorem update_settings_ai_enabled_promotes (w : World) (patch : Patch) :
  patch_get "aiEnabled" patch = Some (PyBool true) ->
  (2 <= List.length (players (game w)))%nat ->
  let ps' := players (game (snd (update_settings patch w))) in
  ps' = set_ai_beyond_first true (players (game w))
  /\ nth_error ps' 0 = nth_error (players (game w)) 0
  /\ (forall k p, nth_error ps' (S k) = Some p -> is_ai p = true)
  /\ (exists p2, nth_error ps' 1 = Some p2 /\ is_ai p2 = true).
Proof.
  intros Hget Hlen ps'.
  assert (E : ps' = set_ai_beyond_first true (players (game w))).
  { subst ps'.
    assert (Hf : bool_field "aiEnabled" patch = Some true).
    { unfold bool_field. rewrite Hget. reflexivity. }
    unfold update_settings. rewrite Hf.
    settings_cases patch; reflexivity. }
  rewrite E. clear E ps'.
  destruct (players (game w)) as [|p0 [|p1 rest]]; simpl in Hlen; try lia.
  repeat split.
  - intros k p H. simpl in H.
    change (nth_error (map (set_is_ai true) (p1 :: rest)) k = Some p) in H.
    apply nth_error_In, in_map_iff in H as (q & <- & _). reflexivity.
  - exists (set_is_ai true p1). split; reflexivity.
Qed.

Definition local_state : GameState :=
  mkState "g" playing 0 0
    [mkPlayer "p1" "You" false 0 [mkCard "a" red V1];
     mkPlayer "p2" "Player 2" false 0 [mkCard "b" blue V3]]
    1 1 [mkCard "e" yellow V1] [mkCard "t" red V5]
    (Some red) 0 false None None None default_settings.

Lemma update_settings_ai_enabled_promotes_witness :
  let ps' := players (game (snd (update_settings [("aiEnabled", PyBool true)]
                                   (mkWorld local_state demo_env)))) in
  ps' = set_ai_beyond_first true (players local_state)
  /\ nth_error ps' 0 = nth_error (players local_state) 0
  /\ (forall k p, nth_error ps' (S k) = Some p -> is_ai p = true)
  /\ (exists p2, nth_error ps' 1 = Some p2 /\ is_ai p2 = true).
Proof.
  apply (update_settings_ai_enabled_promotes (mkWorld local_state demo_env)
           [("aiEnabled", PyBool true)]).
  - reflexivity.
  - simpl. lia.
Defined.

Lemma update_settings_hand_size_witness :
  hand_size (settings (game (snd (update_settings [("handSize", PyInt 20)]
                                    (mkWorld local_state demo_env))))) = 7
  /\ hand_size (settings (game (snd (update_settings [("handSize", PyInt 5)]
                                       (mkWorld local_state demo_env))))) = 5.
Proof.
  destruct (update_settings_hand_size (mkWorld local_state demo_env)) as [Hout Hin].
  split.
  - apply (Hout [("handSize", PyInt 20)] 20); [reflexivity | lia].
  - destruct Hin as (_ & Hs & _). rewrite Hs. reflexivity.
Defined.


(** ** Stepping through the monad *)

Lemma bind_Return {A B} (m : M A) (k : A -> M B) w a w1 :
  m w = (Return a, w1) -> bind m k w = k a w1.
Proof. unfold bind. now intros ->. Qed.

Lemma bind_Raise {A B} (m : M A) (k : A -> M B) w e w1 :
  m w = (Raise e, w1) -> bind m k w = (Raise e, w1).
Proof. unfold bind. now intros ->. Qed.

Lemma bind_OutOfFuel {A B} (m : M A) (k : A -> M B) w w1 :
  m w = (OutOfFuel, w1) -> bind m k w = (OutOfFuel, w1).
Proof. unfold bind. now intros ->. Qed.

(** ** Lists read from the end *)

Lemma py_last_app {A} (l : list A) (x : A) : py_last (l ++ [x])%list = Some x.
Proof. unfold py_last. rewrite rev_app_distr. reflexivity. Qed.

Lemma py_last_Some {A} (l : list A) (x : A) :
  py_last l = Some x -> l = (removelast l ++ [x])%list.
Proof.
  unfold py_last. intro H.
  destruct (rev l) as [|y t] eqn:E; [discriminate|]. injection H as ->.
  apply (f_equal (@rev A)) in E. rewrite rev_involutive in E. simpl in E.
  subst l. now rewrite removelast_last.
Qed.

Lemma py_last_None {A} (l : list A) : py_last l = None -> l = [].
Proof.
  unfold py_last. destruct (rev l) eqn:E; [|discriminate]. intros _.
  apply (f_equal (@rev A)) in E. now rewrite rev_involutive in E.
Qed.

Lemma app_last_not_nil {A} (l : list A) (x : A) : (l ++ [x])%list <> [].
Proof. destruct l; discriminate. Qed.

(** ** Drawing *)

Lemma reshuffle_noop w :
  draw_pile (game w) <> [] -> _reshuffle_if_needed w = (Return tt, w).
Proof.
  unfold _reshuffle_if_needed, bind, get. simpl.
  destruct (draw_pile (game w)); [congruence | reflexivity].
Qed.

(** The reshuffle proper: empty draw pile, at least two discards. *)
Lemma reshuffle_spec w rest top :
  draw_pile (game w) = [] ->
  discard_pile (game w) = rest ++ [top] ->
  rest <> [] ->
  _reshuffle_if_needed w
  = (Return tt,
     mkWorld (set_discard_pile [top]
                (set_draw_pile (fst (shuffle rest (rng (env w)))) (game w)))
             (with_rng (snd (shuffle rest (rng (env w)))) (env w))).
Proof.
  intros Hd Hdis Hrest.
  unfold _reshuffle_if_needed, bind, get. simpl. rewrite Hd, Hdis.
  rewrite length_app. simpl.
  destruct (List.length rest) eqn:El.
  { destruct rest; [congruence | discriminate]. }
  replace (S n + 1 <=? 1)%nat with false by (symmetry; apply Nat.leb_gt; lia).
  rewrite py_last_app, removelast_last. simpl.
  unfold rng_shuffle, lift_env. simpl.
  destruct (shuffle rest (rng (env w))) as [r g']. reflexivity.
Qed.

(** Popping from a draw pile that holds a card. *)
Lemma draw_one_pop w d c :
  draw_pile (game w) = d ++ [c] ->
  _draw_one w = (Return c, mkWorld (set_draw_pile d (game w)) (env w)).
Proof.
  intro H. unfold _draw_one.
  rewrite (bind_Return _ _ _ (reshuffle_noop w ltac:(rewrite H; apply app_last_not_nil))).
  unfold bind, get, ret, modify, from_option. cbn [fst snd game env].
  destruct (draw_pile (game w)) as [|x t] eqn:Hd.
  { symmetry in H. now apply app_last_not_nil in H. }
  cbn [game env]. rewrite Hd, H, py_last_app, removelast_last. reflexivity.
Qed.

Lemma draw_one_via w w1 d c :
  _reshuffle_if_needed w = (Return tt, w1) ->
  draw_pile (game w1) = d ++ [c] ->
  _draw_one w = (Return c, mkWorld (set_draw_pile d (game w1)) (env w1)).
Proof.
  intros HR H. unfold _draw_one.
  rewrite (bind_Return _ _ _ HR).
  unfold bind, get, ret, modify, from_option. cbn [fst snd game env].
  destruct (draw_pile (game w1)) as [|x t] eqn:Hd.
  { symmetry in H. now apply app_last_not_nil in H. }
  cbn [game env]. rewrite Hd, H, py_last_app, removelast_last. reflexivity.
Qed.

(** A one-card draw into the hand at position [j]. *)
Lemma draw_cards_one j w c w1 :
  _draw_one w = (Return c, w1) ->
  _draw_cards_to_player j 1 w
  = (Return [c],
     mkWorld (set_players
                (list_alter (fun p => set_hand (hand p ++ [c]) p) j (players (game w1)))
                (game w1))
             (env w1)).
Proof.
  intro E. unfold _draw_cards_to_player.
  change (Z.to_nat (Z.max 0 1)) with 1%nat. cbn [draw_loop].
  rewrite (bind_Return _ _ _ E).
  reflexivity.
Qed.

Lemma hands_alter_append ps j c :
  (j < List.length ps)%nat ->
  Permutation (flat_map hand (list_alter (fun p => set_hand (hand p ++ [c]) p) j ps))
              (c :: flat_map hand ps).
Proof.
  revert j; induction ps as [|p ps IH]; intros [|j] Hj; simpl in *; try lia.
  - rewrite <- app_assoc. simpl.
    symmetry. apply Permutation_middle.
  - rewrite (IH j ltac:(lia)). symmetry. apply Permutation_middle.
Qed.

Lemma list_alter_length {A} (f : A -> A) j (l : list A) :
  List.length (list_alter f j l) = List.length l.
Proof. revert j; induction l; intros [|j]; simpl; auto. Qed.

(** C7 — Reshuffle correctness: when the draw pile is empty and the discard
    pile holds at least two cards, a draw by a player succeeds; afterwards
    the previous top discard is the only card of the discard pile, the other
    discards are, in some order, the new draw pile together with the card
    drawn, the drawn card is in the player's hand, no identifier was
    generated and the total number of cards is unchanged. *)
Theorem reshuffle_on_draw (w : World) (j : nat) (rest : list UnoCard) (top : UnoCard) :
  (j < List.length (players (game w)))%nat ->
  draw_pile (game w) = [] ->
  discard_pile (game w) = rest ++ [top] ->
  rest <> [] ->
  exists c w',
    _draw_cards_to_player j 1 w = (Return [c], w')
    /\ discard_pile (game w') = [top]
    /\ Permutation (draw_pile (game w') ++ [c]) rest
    /\ players (game w')
       = list_alter (fun p => set_hand (hand p ++ [c]) p) j (players (game w))
    /\ uuid (env w') = uuid (env w)
    /\ total_cards (game w') = total_cards (game w).
Proof.
  intros Hj Hd Hdis Hrest.
  pose proof (shuffle_perm rest (rng (env w))) as HP.
  pose proof (@reshuffle_spec w rest top Hd Hdis Hrest) as HR.
  destruct (shuffle rest (rng (env w))) as [r g']. cbn [fst snd] in HP, HR.
  assert (Hr : r <> []).
  { intros ->. apply Permutation_nil in HP. congruence. }
  destruct (exists_last Hr) as (d & c & ->).
  exists c. eexists. split.
  { apply draw_cards_one. eapply draw_one_via; [exact HR | reflexivity]. }
  cbn [game env]. repeat split; auto.
  unfold total_cards, all_cards, hands. cbn.
  rewrite Hd, Hdis. cbn.
  rewrite !length_app. cbn.
  rewrite (Permutation_length (@hands_alter_append _ j c Hj)).
  rewrite <- (Permutation_length HP). rewrite length_app. cbn. lia.
Qed.

Definition reshuffle_state : GameState :=
  mkState "g" playing 0 0
    [mkPlayer "p1" "You" false 0 [mkCard "a" red V1];
     mkPlayer "p2" "CPU" true 0 [mkCard "b" blue V3]]
    0 1 [] [mkCard "x" yellow V1; mkCard "y" green V2; mkCard "t" red V5]
    (Some red) 0 false None None None default_settings.

Lemma reshuffle_on_draw_witness :
  exists c w',
    _draw_cards_to_player 0 1 (mkWorld reshuffle_state demo_env) = (Return [c], w')
    /\ discard_pile (game w') = [mkCard "t" red V5]
    /\ Permutation (draw_pile (game w') ++ [c]) [mkCard "x" yellow V1; mkCard "y" green V2]
    /\ players (game w')
       = list_alter (fun p => set_hand (hand p ++ [c]) p) 0 (players reshuffle_state)
    /\ uuid (env w') = demo_uuid
    /\ total_cards (game w') = 5%nat.
Proof.
  apply (@reshuffle_on_draw (mkWorld reshuffle_state demo_env) 0%nat
           [mkCard "x" yellow V1; mkCard "y" green V2] (mkCard "t" red V5)).
  - simpl. lia.
  - reflexivity.
  - reflexivity.
  - discriminate.
Defined.


(** ** Rule violations and mutation *)

(** [m] never raises a rule violation. *)
Definition never_rule_error {A} (m : M A) : Prop :=
  forall w msg w', m w <> (Raise (UnoRuleError msg), w').

(** [m] leaves the world as it found it, whatever its outcome. *)
Definition readonly {A} (m : M A) : Prop :=
  forall w o w', m w = (o, w') -> w' = w.

(** When [m] raises a rule violation, the world is the one it started from. *)
Definition atomic {A} (m : M A) : Prop :=
  forall w msg w', m w = (Raise (UnoRuleError msg), w') -> w' = w.

Section Combinators.
Context {A B : Type}.

Lemma nre_ret (a : A) : never_rule_error (ret a).
Proof. intros w msg w' H. discriminate. Qed.

Lemma nre_bind (m : M A) (k : A -> M B) :
  never_rule_error m -> (forall a, never_rule_error (k a)) ->
  never_rule_error (bind m k).
Proof.
  intros Hm Hk w msg w' H. unfold bind in H.
  destruct (m w) as [[a|e|] w1] eqn:E.
  - exact (Hk a _ _ _ H).
  - inversion H; subst. exact (Hm _ _ _ E).
  - discriminate.
Qed.

Lemma nre_lift_env (f : Env -> A * Env) : never_rule_error (lift_env f).
Proof. intros w msg w' H. unfold lift_env in H. destruct (f (env w)). discriminate. Qed.

Lemma nre_from_option_index (o : option A) : never_rule_error (from_option IndexError o).
Proof. intros w msg w' H. destruct o; discriminate. Qed.

Lemma nre_raise_index : never_rule_error (@raise A IndexError).
Proof. intros w msg w' H. discriminate. Qed.

Lemma nre_raise_zero : never_rule_error (@raise A ZeroDivisionError).
Proof. intros w msg w' H. discriminate. Qed.

Lemma readonly_ret (a : A) : readonly (ret a).
Proof. intros w o w' H. now inversion H. Qed.

Lemma readonly_raise e : readonly (@raise A e).
Proof. intros w o w' H. now inversion H. Qed.

Lemma readonly_from_option e (o : option A) : readonly (from_option e o).
Proof. intros w r w' H. destruct o; now inversion H. Qed.

Lemma readonly_bind (m : M A) (k : A -> M B) :
  readonly m -> (forall a, readonly (k a)) -> readonly (bind m k).
Proof.
  intros Hm Hk w o w' H. unfold bind in H.
  destruct (m w) as [[a|e|] w1] eqn:E; apply Hm in E; subst w1.
  - exact (Hk a _ _ _ H).
  - now inversion H.
  - now inversion H.
Qed.

Lemma atomic_of_nre (m : M A) : never_rule_error m -> atomic m.
Proof. intros Hm w msg w' H. now apply Hm in H. Qed.

Lemma atomic_of_readonly (m : M A) : readonly m -> atomic m.
Proof. intros Hm w msg w' H. now apply Hm in H. Qed.

(** Checks first: a read-only prefix keeps what follows atomic. *)
Lemma atomic_after_check (m : M A) (k : A -> M B) :
  readonly m -> (forall a, atomic (k a)) -> atomic (bind m k).
Proof.
  intros Hm Hk w msg w' H. unfold bind in H.
  destruct (m w) as [[a|e|] w1] eqn:E; apply Hm in E; subst w1.
  - exact (Hk a _ _ _ H).
  - now inversion H.
  - discriminate.
Qed.

(** Mutation last: once nothing after [m] can raise a rule violation. *)
Lemma atomic_before_mutation (m : M A) (k : A -> M B) :
  atomic m -> (forall a, never_rule_error (k a)) -> atomic (bind m k).
Proof.
  intros Hm Hk w msg w' H. unfold bind in H.
  destruct (m w) as [[a|e|] w1] eqn:E.
  - now apply Hk in H.
  - inversion H; subst. exact (Hm _ _ _ E).
  - discriminate.
Qed.
End Combinators.

Lemma nre_get : never_rule_error get.
Proof. intros w msg w' H. discriminate. Qed.

Lemma nre_modify f : never_rule_error (modify f).
Proof. intros w msg w' H. discriminate. Qed.

Lemma readonly_get : readonly get.
Proof. intros w o w' H. now inversion H. Qed.

Create HintDb nre.
#[local] Hint Resolve nre_ret nre_lift_env nre_from_option_index nre_raise_index
  nre_raise_zero nre_get nre_modify : nre.

(** Break a computation into its steps, splitting on every test it makes. *)
Ltac nre_step :=
  match goal with
  | |- never_rule_error (bind _ _) => apply nre_bind; [|intros]
  | |- never_rule_error (if ?b then _ else _) => destruct b
  | |- never_rule_error (match ?x with _ => _ end) => destruct x
  | |- never_rule_error _ => solve [auto with nre]
  end.
Ltac nre := repeat nre_step.

Lemma nre_touch : never_rule_error touch.
Proof. unfold touch, time_time. nre. Qed.

Lemma nre_modify_player j f : never_rule_error (modify_player j f).
Proof. unfold modify_player. nre. Qed.

Lemma nre_player_at j : never_rule_error (player_at j).
Proof. unfold player_at. nre. Qed.

Lemma nre_next_index steps : never_rule_error (_next_index steps).
Proof. unfold _next_index. nre. Qed.
#[local] Hint Resolve nre_touch nre_modify_player nre_player_at nre_next_index : nre.

Lemma nre_advance steps : never_rule_error (advance steps).
Proof. unfold advance. nre. Qed.

Lemma nre_discard_append c : never_rule_error (discard_append c).
Proof. unfold discard_append. nre. Qed.

Lemma nre_flip_if b : never_rule_error (flip_if b).
Proof. unfold flip_if. nre. Qed.

Lemma nre_reshuffle : never_rule_error _reshuffle_if_needed.
Proof. unfold _reshuffle_if_needed, rng_shuffle. nre. Qed.
#[local] Hint Resolve nre_advance nre_discard_append nre_flip_if nre_reshuffle : nre.

Lemma nre_draw_one : never_rule_error _draw_one.
Proof. unfold _draw_one. nre. Qed.
#[local] Hint Resolve nre_draw_one : nre.

Lemma nre_draw_loop j k drawn : never_rule_error (draw_loop j k drawn).
Proof. revert drawn; induction k; intro drawn; simpl; nre. Qed.
#[local] Hint Resolve nre_draw_loop : nre.

Lemma nre_draw_cards j count : never_rule_error (_draw_cards_to_player j count).
Proof. unfold _draw_cards_to_player. auto with nre. Qed.

Lemma nre_effects c : never_rule_error (_apply_action_effects_after_play c).
Proof. unfold _apply_action_effects_after_play. nre. Qed.

Lemma nre_resolve : never_rule_error _resolve_round_if_won.
Proof. unfold _resolve_round_if_won. nre. Qed.
#[local] Hint Resolve nre_draw_cards nre_effects nre_resolve : nre.

Lemma nre_driver fuel : never_rule_error (_auto_resolve_ai_turns fuel).
Proof.
  induction fuel as [|fuel IH]; simpl.
  - intros w msg w' H. discriminate.
  - nre.
Qed.
#[local] Hint Resolve nre_driver : nre.

Lemma readonly_player_at j : readonly (player_at j).
Proof.
  unfold player_at. apply readonly_bind; [apply readonly_get|].
  intro s. apply readonly_from_option.
Qed.

Lemma readonly_require_playing : readonly _require_playing.
Proof.
  unfold _require_playing. apply readonly_bind; [apply readonly_get|].
  intro s. destruct (status_eqb (status s) playing);
    [apply readonly_ret | apply readonly_raise].
Qed.

Lemma readonly_get_player p : readonly (_get_player p).
Proof.
  unfold _get_player. apply readonly_bind; [apply readonly_get|].
  intro s. apply readonly_from_option.
Qed.

Lemma readonly_require_turn p : readonly (_require_turn p).
Proof.
  unfold _require_turn.
  apply readonly_bind; [apply readonly_require_playing|]. intros _.
  apply readonly_bind; [apply readonly_get_player|]. intro j.
  apply readonly_bind; [apply readonly_get|]. intro s.
  apply readonly_bind; [apply readonly_from_option|]. intro i.
  apply readonly_bind; [apply readonly_player_at|]. intro cur.
  destruct (negb (pid cur =? p)%string); [apply readonly_raise | apply readonly_ret].
Qed.

Lemma atomic_play_card fuel p c col : atomic (play_card fuel p c col).
Proof.
  unfold play_card.
  apply atomic_after_check; [apply readonly_require_turn|]. intro player.
  apply atomic_after_check; [apply readonly_get|]. intro s.
  destruct (pending_draw s >? 0); [apply atomic_of_readonly, readonly_raise|].
  destruct (py_last (discard_pile s)) as [top|];
    [|apply atomic_of_readonly, readonly_raise].
  apply atomic_after_check; [apply readonly_player_at|]. intro q.
  destruct (find _ (hand q)) as [card|]; [|apply atomic_of_readonly, readonly_raise].
  destruct (negb (can_play_on card top (current_color s)));
    [apply atomic_of_readonly, readonly_raise|].
  apply atomic_before_mutation; [|intros; nre].
  destruct (is_wild_value (value card)).
  - destruct (parse_color col) as [cc|]; [|apply atomic_of_readonly, readonly_raise].
    apply atomic_before_mutation; [|intros; nre].
    apply atomic_of_readonly.
    destruct (_ && _); [|apply readonly_ret].
    destruct (current_color s) as [m|]; [|destruct (is_valid_color (color top))];
      try destruct (existsb _ _);
      first [apply readonly_raise | apply readonly_ret].
  - apply atomic_of_nre. nre.
Qed.

Lemma atomic_draw_card fuel p : atomic (draw_card fuel p).
Proof.
  unfold draw_card.
  apply atomic_after_check; [apply readonly_require_turn|]. intro player.
  apply atomic_of_nre. nre.
Qed.

Lemma atomic_pass_turn fuel p : atomic (pass_turn fuel p).
Proof.
  unfold pass_turn.
  apply atomic_after_check; [apply readonly_require_turn|]. intros _.
  apply atomic_after_check; [apply readonly_get|]. intro s.
  destruct (pending_draw s >? 0); [apply atomic_of_readonly, readonly_raise|].
  apply atomic_of_nre. nre.
Qed.

Lemma nre_deal js : never_rule_error (deal js).
Proof. induction js; simpl; nre. Qed.

Lemma nre_find_starting_discard : never_rule_error _find_starting_discard.
Proof. unfold _find_starting_discard, rng_choice_color. nre. Qed.

Lemma nre_apply_start_effect c : never_rule_error (apply_start_effect c).
Proof. unfold apply_start_effect. nre. Qed.
#[local] Hint Resolve nre_deal nre_find_starting_discard nre_apply_start_effect : nre.

Lemma nre_restart_round : never_rule_error restart_round.
Proof. unfold restart_round. nre. Qed.

Lemma nre_update_settings patch : never_rule_error (update_settings patch).
Proof. unfold update_settings, when_some, modify_settings. nre. Qed.

(** C2 — Rule-violation atomicity: whenever an engine operation ([play_card],
    [draw_card], [pass_turn]; the settings patch and the restart never raise
    one) ends in a rule violation, the game state and the random source, the
    identifier source and the clock are exactly those before the call. *)
Theorem rule_violation_leaves_state (fuel : nat) (a : Action) (w w' : World) (msg : string) :
  run_action fuel a w = (Raise (UnoRuleError msg), w') -> w' = w.
Proof.
  destruct a as [p c col|p|p|patch|]; simpl; intro H.
  - eapply atomic_play_card; exact H.
  - assert (Hat : atomic (draw_card fuel p ;; ret tt)).
    { apply atomic_before_mutation; [apply atomic_draw_card | intros; nre]. }
    eapply Hat; exact H.
  - eapply atomic_pass_turn; exact H.
  - exfalso. eapply nre_update_settings; exact H.
  - exfalso. eapply nre_restart_round; exact H.
Qed.

Lemma rule_violation_leaves_state_witness :
  snd (run_action 3 (APlay "p1" "a" None) (mkWorld two_player_state demo_env))
  = mkWorld two_player_state demo_env.
Proof.
  apply (@rule_violation_leaves_state 3 (APlay "p1" "a" None)
           (mkWorld two_player_state demo_env) _ "Not your turn.").
  reflexivity.
Defined.


(** ** Draws always return a card *)

(** The state with its cards and players taken out: what drawing leaves alone. *)
Definition core (s : GameState) : GameState :=
  set_players [] (set_draw_pile [] (set_discard_pile [] s)).

(** [player.hand.append(...)] for the cards of [new], in order. *)
Definition append_hand (new : list UnoCard) (p : Player) : Player :=
  set_hand (hand p ++ new) p.

Lemma reshuffle_small w :
  draw_pile (game w) = [] ->
  (List.length (discard_pile (game w)) <= 1)%nat ->
  _reshuffle_if_needed w = (Return tt, w).
Proof.
  intros Hd Hl. unfold _reshuffle_if_needed, bind, get. simpl. rewrite Hd.
  apply Nat.leb_le in Hl. now rewrite Hl.
Qed.



Lemma draw_one_rebuild w :
  draw_pile (game w) = [] ->
  (List.length (discard_pile (game w)) <= 1)%nat ->
  exists c d g',
    Permutation (d ++ [c]) (fst (new_cards deck_faces (uuid (env w))))
    /\ _draw_one w
       = (Return c,
          mkWorld (set_draw_pile d (game w))
            (mkEnv g' (mkOracle (feed (uuid (env w))) (cursor (uuid (env w)) + 108))
               (clock (env w)))).
Proof.
  intros Hd Hl.
  destruct (build_uno_deck_spec (env w)) as (deck & g' & E & HP).
  assert (Hne : deck <> []).
  { intros ->. apply Permutation_length in HP.
    rewrite <- (length_map face (fst (new_cards deck_faces (uuid (env w))))) in HP.
    rewrite new_cards_faces, deck_faces_length in HP.
    discriminate HP. }
  destruct (exists_last Hne) as (d & c & ->).
  exists c, d, g'. split; [exact HP|].
  unfold _draw_one.
  rewrite (bind_Return _ _ _ (reshuffle_small w Hd Hl)).
  unfold bind at 1. unfold get at 1. cbv beta iota. rewrite Hd.
  unfold bind at 1. unfold bind at 1. unfold lift_env at 1. rewrite E.
  unfold modify at 1. cbv beta iota.
  unfold bind, get, ret, modify, from_option. cbn [fst snd game env draw_pile set_draw_pile].
  rewrite py_last_app, removelast_last. reflexivity.
Qed.

Lemma core_set_draw_pile d s : core (set_draw_pile d s) = core s.
Proof. reflexivity. Qed.

Lemma length_le_1_or_last {A} (l : list A) :
  (List.length l <= 1)%nat \/ exists rest top, l = rest ++ [top] /\ rest <> [].
Proof.
  destruct l as [|a [|b t]]; simpl; auto.
  right. destruct (@exists_last _ (a :: b :: t)) as (rest & top & E); [discriminate|].
  exists rest, top. split; [exact E|].
  intros ->. discriminate.
Qed.

(** [_draw_one] always returns a card, touching only the piles and the
    environment. *)
Lemma draw_one_total w :
  exists c w',
    _draw_one w = (Return c, w')
    /\ core (game w') = core (game w)
    /\ players (game w') = players (game w).
Proof.
  destruct (draw_pile (game w)) as [|x t] eqn:Hd.
  - destruct (length_le_1_or_last (discard_pile (game w)))
      as [Hl | (rest & top & Hdis & Hrest)].
    + destruct (draw_one_rebuild w Hd Hl) as (c & d & g' & _ & E).
      exists c. eexists. split; [exact E|]. split; reflexivity.
    + pose proof (shuffle_perm rest (rng (env w))) as HP.
      pose proof (@reshuffle_spec w rest top Hd Hdis Hrest) as HR.
      destruct (shuffle rest (rng (env w))) as [r g']. simpl in HP, HR.
      assert (Hr : r <> []).
      { intros ->. apply Permutation_nil in HP. congruence. }
      destruct (exists_last Hr) as (d & c & ->).
      exists c. eexists. split.
      * eapply draw_one_via; [exact HR | reflexivity].
      * split; reflexivity.
  - destruct (@exists_last _ (x :: t)) as (d & c & E); [discriminate|].
    exists c. eexists. split.
    + apply draw_one_pop. rewrite Hd. exact E.
    + split; reflexivity.
Qed.

Lemma list_alter_ext {A} (f g : A -> A) j (l : list A) :
  (forall a, f a = g a) -> list_alter f j l = list_alter g j l.
Proof.
  intro H. revert j; induction l as [|a l IH]; intros [|j]; simpl; auto.
  - now rewrite H.
  - now rewrite IH.
Qed.

Lemma list_alter_compose {A} (f g : A -> A) j (l : list A) :
  list_alter g j (list_alter f j l) = list_alter (fun a => g (f a)) j l.
Proof.
  revert j; induction l as [|a l IH]; intros [|j]; simpl; auto.
  now rewrite IH.
Qed.

Lemma list_alter_id {A} (f : A -> A) j (l : list A) :
  (forall a, f a = a) -> list_alter f j l = l.
Proof.
  intro H. revert j; induction l as [|a l IH]; intros [|j]; simpl; auto.
  - now rewrite H.
  - now rewrite IH.
Qed.

Lemma list_alter_nth {A} (f : A -> A) j (l : list A) :
  nth_error (list_alter f j l) j = option_map f (nth_error l j).
Proof. revert j; induction l as [|a l IH]; intros [|j]; simpl; auto. Qed.

Lemma list_alter_nth_other {A} (f : A -> A) j i (l : list A) :
  i <> j -> nth_error (list_alter f j l) i = nth_error l i.
Proof.
  revert j i; induction l as [|a l IH]; intros [|j] [|i] H; simpl; auto.
  congruence.
Qed.

Lemma append_hand_nil p : append_hand [] p = p.
Proof. destruct p. unfold append_hand, set_hand. simpl. now rewrite app_nil_r. Qed.

Lemma append_hand_app a b p : append_hand b (append_hand a p) = append_hand (a ++ b) p.
Proof. unfold append_hand, set_hand. simpl. now rewrite app_assoc. Qed.

(** The loop of [_draw_cards_to_player] returns its [k] cards and appends
    them, in order, to the hand at position [j]. *)
Lemma draw_loop_total j k drawn w :
  exists new w',
    draw_loop j k drawn w = (Return (drawn ++ new), w')
    /\ List.length new = k
    /\ core (game w') = core (game w)
    /\ players (game w') = list_alter (append_hand new) j (players (game w)).
Proof.
  revert drawn w; induction k as [|k IH]; intros drawn w; simpl.
  - exists [], w. rewrite app_nil_r. repeat split; auto.
    symmetry. apply list_alter_id, append_hand_nil.
  - destruct (draw_one_total w) as (c & w1 & E1 & Hc1 & Hp1).
    rewrite (bind_Return _ _ _ E1).
    unfold modify_player. unfold bind at 1. unfold modify at 1. cbv beta iota.
    destruct (IH (drawn ++ [c])
                 (mkWorld (set_players
                             (list_alter (fun p => set_hand (hand p ++ [c]) p) j
                                (players (game w1))) (game w1)) (env w1)))
      as (new & w' & E & Hlen & Hc & Hp).
    exists (c :: new), w'.
    split. { rewrite E, <- app_assoc. reflexivity. }
    split. { simpl. now rewrite Hlen. }
    split. { rewrite Hc. exact Hc1. }
    rewrite Hp. cbn [game players set_players].
    rewrite Hp1, list_alter_compose.
    apply list_alter_ext. intro p0. apply (append_hand_app [c] new p0).
Qed.

Lemma draw_cards_total j count w :
  exists new w',
    _draw_cards_to_player j count w = (Return new, w')
    /\ List.length new = Z.to_nat (Z.max 0 count)
    /\ core (game w') = core (game w)
    /\ players (game w') = list_alter (append_hand new) j (players (game w)).
Proof. apply (draw_loop_total j (Z.to_nat (Z.max 0 count)) [] w). Qed.


(** ** Facts read off a passed turn check *)

Lemma find_index_Some {A} (f : A -> bool) (l : list A) j :
  find_index f l = Some j ->
  exists x, nth_error l j = Some x /\ f x = true /\ (j < List.length l)%nat.
Proof.
  revert j; induction l as [|a l IH]; intros j H; simpl in *; [discriminate|].
  destruct (f a) eqn:Fa.
  - injection H as <-. exists a. simpl. repeat split; auto. lia.
  - destruct (find_index f l) as [j'|]; [|discriminate].
    injection H as <-. destruct (IH j' eq_refl) as (x & Hx & Hf & Hl).
    exists x. simpl. repeat split; auto. lia.
Qed.

Lemma py_index_lt {A} (l : list A) i k :
  py_index l i = Some k -> (k < List.length l)%nat.
Proof.
  unfold py_index. intro H.
  destruct ((0 <=? i) && (i <? Z.of_nat (List.length l))) eqn:E1.
  - injection H as <-. apply andb_prop in E1 as [? ?]. lia.
  - destruct ((- Z.of_nat (List.length l) <=? i) && (i <? 0)) eqn:E2; [|discriminate].
    injection H as <-. apply andb_prop in E2 as [? ?]. lia.
Qed.

Lemma py_index_in_range {A} (l : list A) i :
  0 <= i < Z.of_nat (List.length l) -> py_index l i = Some (Z.to_nat i).
Proof.
  intro H. unfold py_index.
  replace ((0 <=? i) && (i <? Z.of_nat (List.length l))) with true; [reflexivity|].
  symmetry. apply andb_true_intro. split; lia.
Qed.

Lemma player_at_eq j w q :
  nth_error (players (game w)) j = Some q -> player_at j w = (Return q, w).
Proof. intro H. unfold player_at, bind, get. simpl. now rewrite H. Qed.

Lemma advance_eq steps w :
  players (game w) <> [] ->
  advance steps w
  = (Return tt,
     mkWorld (set_current_player_index
                ((current_player_index (game w) + direction (game w) * steps)
                   mod Z.of_nat (List.length (players (game w))))
                (game w))
             (env w)).
Proof.
  intro H. unfold advance, _next_index, bind, get, modify, ret.
  cbv beta iota. cbn [fst snd game env].
  destruct (players (game w)) as [|a l] eqn:E; [congruence|].
  replace (Z.of_nat (List.length (a :: l)) =? 0) with false; [reflexivity|].
  symmetry. apply Z.eqb_neq. simpl List.length. lia.
Qed.

Lemma touch_eq w :
  touch w
  = (Return tt,
     mkWorld (set_updated_at (feed (clock (env w)) (cursor (clock (env w)))) (game w))
             (with_clock (mkOracle (feed (clock (env w))) (S (cursor (clock (env w)))))
                (env w))).
Proof. reflexivity. Qed.

(** What a successful [_require_turn] says about the state. *)
Lemma require_turn_inv p w j w' :
  _require_turn p w = (Return j, w') ->
  status (game w) = playing
  /\ find_index (fun q => String.eqb (pid q) p) (players (game w)) = Some j.
Proof.
  unfold _require_turn, _require_playing, _get_player, player_at, bind, get,
    from_option, ret, raise.
  cbv beta iota. cbn [fst snd game env].
  destruct (status (game w)); cbn; try discriminate.
  destruct (find_index _ (players (game w))) as [j'|]; cbn; [|discriminate].
  destruct (py_index _ _); cbn; [|discriminate].
  destruct (nth_error _ _); cbn; [|discriminate].
  destruct (negb _); cbn; [discriminate|].
  intro H. injection H as <- _. auto.
Qed.

Lemma core_fields s s' :
  core s' = core s ->
  status s' = status s
  /\ current_player_index s' = current_player_index s
  /\ direction s' = direction s
  /\ pending_draw s' = pending_draw s
  /\ settings s' = settings s
  /\ current_color s' = current_color s.
Proof.
  intro H.
  repeat split;
    [ apply (f_equal status) in H
    | apply (f_equal current_player_index) in H
    | apply (f_equal direction) in H
    | apply (f_equal pending_draw) in H
    | apply (f_equal settings) in H
    | apply (f_equal current_color) in H ]; exact H.
Qed.

(** ** Pending-draw precedence *)

Ltac step_get := unfold bind at 1; unfold get at 1; cbv beta iota.
Ltac step_modify := unfold bind at 1; unfold modify at 1; cbv beta iota.
Ltac step_with tac := erewrite bind_Return; [| tac ]; cbv beta.

Lemma from_option_Some {A} e (a : A) w : from_option e (Some a) w = (Return a, w).
Proof. reflexivity. Qed.

(** The driver stops at once when the player to act is human. *)
Lemma driver_human fuel w i cur :
  status (game w) = playing ->
  py_index (players (game w)) (current_player_index (game w)) = Some i ->
  nth_error (players (game w)) i = Some cur ->
  is_ai cur = false ->
  _auto_resolve_ai_turns (S fuel) w = (Return tt, w).
Proof.
  intros Hst Hi Hcur Hai. cbn [_auto_resolve_ai_turns].
  step_get. rewrite Hst. cbn [status_eqb negb]. rewrite Hi.
  step_with ltac:(apply from_option_Some).
  step_with ltac:(apply player_at_eq; exact Hcur).
  rewrite Hai. reflexivity.
Qed.

(** The driver does nothing once the game has left [playing]. *)
Lemma driver_not_playing fuel w :
  status (game w) <> playing ->
  _auto_resolve_ai_turns (S fuel) w = (Return tt, w).
Proof.
  intros Hst. cbn [_auto_resolve_ai_turns].
  step_get. destruct (status (game w)); try congruence; reflexivity.
Qed.

(** C3 (amended) — Pending-draw precedence: in a playing state with a pending
    penalty, for the player whose turn it is, [play_card] and [pass_turn]
    raise a rule violation and change nothing; [draw_card] appends exactly
    [pending_draw] cards to that player's hand, resets [pending_draw] to 0
    and advances the turn pointer by one step, giving no play opportunity,
    and then runs the automated-player driver from that state; when the
    player now to act is human, the driver does nothing and [draw_card]
    returns in that state. *)
Theorem pending_draw_precedence (fuel : nat) (w : World) (p : string) (j : nat) :
  _require_turn p w = (Return j, w) ->
  0 < pending_draw (game w) ->
  let s := game w in
  (forall c col,
      play_card fuel p c col w
      = (Raise (UnoRuleError "You must draw the pending penalty before playing."), w))
  /\ pass_turn fuel p w
     = (Raise (UnoRuleError "Cannot pass while a pending draw penalty exists. Draw first."), w)
  /\ exists new w2,
       List.length new = Z.to_nat (pending_draw s)
       /\ players (game w2) = list_alter (append_hand new) j (players s)
       /\ pending_draw (game w2) = 0
       /\ current_player_index (game w2)
          = (current_player_index s + direction s * 1) mod Z.of_nat (List.length (players s))
       /\ direction (game w2) = direction s
       /\ status (game w2) = playing
       /\ draw_card fuel p w
          = bind (_auto_resolve_ai_turns fuel)
              (fun _ => bind (player_at j)
                 (fun q' => from_option IndexError (py_last (hand q')))) w2
       /\ (forall cur,
             nth_error (players (game w2)) (Z.to_nat (current_player_index (game w2)))
             = Some cur ->
             is_ai cur = false ->
             fuel <> O ->
             exists c, py_last new = Some c /\ draw_card fuel p w = (Return c, w2)).
Proof.
  intros Hturn Hpos s. subst s.
  assert (Hgt : (pending_draw (game w) >? 0) = true) by (apply Z.gtb_lt; lia).
  destruct (require_turn_inv _ _ Hturn) as (Hst & Hfind).
  destruct (find_index_Some _ _ Hfind) as (q & Hq & Hpid & Hj).
  split; [|split].
  - intros c col. unfold play_card.
    rewrite (bind_Return _ _ _ Hturn).
    step_get. now rewrite Hgt.
  - unfold pass_turn.
    rewrite (bind_Return _ _ _ Hturn).
    step_get. now rewrite Hgt.
  - destruct (draw_cards_total j (pending_draw (game w)) w)
      as (new & w1 & E & Hlen & Hcore & Hpl).
    destruct (core_fields Hcore) as (Hs1 & Hi1 & Hd1 & Hp1 & Hset1 & Hcol1).
    assert (Hq1 : nth_error (players (game w1)) j = Some (append_hand new q)).
    { rewrite Hpl, list_alter_nth, Hq. reflexivity. }
    assert (Hne : players (game w1) <> []).
    { intro H0. rewrite H0 in Hq1. destruct j; discriminate. }
    assert (Hn : List.length (players (game w1)) = List.length (players (game w))).
    { rewrite Hpl. apply list_alter_length. }
    refine (ex_intro _ new (ex_intro _
      (mkWorld
         (set_updated_at _
            (set_current_player_index
               ((current_player_index (game w1) + direction (game w1) * 1)
                  mod Z.of_nat (List.length (players (game w1))))
               (set_last_drawn_card_id None
                  (set_must_play_or_pass false
                     (set_pending_draw 0 (set_message _ (game w1)))))))
         _) _)).
    assert (Hdraw :
      draw_card fuel p w
      = bind (_auto_resolve_ai_turns fuel)
          (fun _ => bind (player_at j)
             (fun q' => from_option IndexError (py_last (hand q'))))
          (mkWorld
             (set_updated_at (feed (clock (env w1)) (cursor (clock (env w1))))
                (set_current_player_index
                   ((current_player_index (game w1) + direction (game w1) * 1)
                      mod Z.of_nat (List.length (players (game w1))))
                   (set_last_drawn_card_id None
                      (set_must_play_or_pass false
                         (set_pending_draw 0
                            (set_message
                               (Some (name (append_hand new q) ++ " drew "
                                        ++ str_of_int (pending_draw (game w1))
                                        ++ " cards.")%string)
                               (game w1)))))))
             (with_clock (mkOracle (feed (clock (env w1))) (S (cursor (clock (env w1)))))
                (env w1)))).
    { unfold draw_card.
      rewrite (bind_Return _ _ _ Hturn).
      step_get. rewrite Hgt.
      rewrite (bind_Return _ _ _ E).
      step_with ltac:(apply player_at_eq; exact Hq1).
      step_get. do 4 step_modify.
      step_with ltac:(apply advance_eq; exact Hne).
      step_with ltac:(apply touch_eq).
      reflexivity. }
    split; [lia|].
    split; [exact Hpl|].
    split; [reflexivity|].
    split; [cbn; rewrite Hi1, Hd1, Hn; reflexivity|].
    split; [exact Hd1|].
    split; [cbn; rewrite Hs1; exact Hst|].
    split; [exact Hdraw|].
    intros cur Hcur Hai Hfuel.
    destruct fuel as [|fuel]; [congruence|].
    assert (Hnew : new <> []).
    { intros ->. simpl in Hlen. lia. }
    destruct (exists_last Hnew) as (new' & c & ->).
    exists c. split; [apply py_last_app|].
    rewrite Hdraw.
    erewrite bind_Return.
    2:{ eapply driver_human; [cbn; rewrite Hs1; exact Hst | | exact Hcur | exact Hai].
        apply py_index_in_range. cbn.
        apply Z.mod_pos_bound.
        destruct (players (game w1)); [congruence | simpl List.length; lia]. }
    cbv beta.
    step_with ltac:(apply player_at_eq; exact Hq1).
    unfold append_hand. cbn [hand set_hand].
    rewrite app_assoc, py_last_app. reflexivity.
Qed.

Definition penalty_state : GameState :=
  mkState "g" playing 0 0
    [mkPlayer "p1" "You" false 0 [mkCard "a" blue V1];
     mkPlayer "p2" "CPU" true 0 [mkCard "b" red DRAW_TWO]]
    0 1 [mkCard "x" yellow V1; mkCard "y" green V2; mkCard "z" green V4]
    [mkCard "t" red V5]
    (Some red) 2 false None None None default_settings.

Lemma pending_draw_precedence_witness :
  pass_turn 3 "p1" (mkWorld penalty_state demo_env)
  = (Raise (UnoRuleError "Cannot pass while a pending draw penalty exists. Draw first."),
     mkWorld penalty_state demo_env)
  /\ exists new w2,
       List.length new = 2%nat
       /\ players (game w2) = list_alter (append_hand new) 0 (players penalty_state)
       /\ pending_draw (game w2) = 0
       /\ current_player_index (game w2) = 1.
Proof.
  destruct (@pending_draw_precedence 3 (mkWorld penalty_state demo_env) "p1" 0%nat
              eq_refl ltac:(simpl; lia))
    as (_ & Hpass & new & w2 & Hlen & Hpl & Hpd & Hidx & _).
  split; [exact Hpass|].
  exists new, w2. repeat split; assumption.
Defined.

(** C3 (as stated, refuted) — the state [draw_card] returns is the one the
    automated-player driver leaves: here the human absorbs a penalty of 2,
    the automated player then plays its last card, a DRAW_TWO, and wins, so
    that after the call [pending_draw] is 2, not 0, and the round is over. *)
Lemma draw_card_runs_driver_after_penalty :
  exists c w',
    draw_card 3 "p1" (mkWorld penalty_state demo_env) = (Return c, w')
    /\ pending_draw (game w') = 2
    /\ status (game w') = round_over
    /\ map (fun q => List.length (hand q)) (players (game w')) = [3%nat; 0%nat].
Proof. do 2 eexists. split; [vm_compute; reflexivity|]. repeat split. Qed.

(** ** Round completion and scoring *)

(** Value of a hand: the sum of [score_card] over its cards. *)
Definition hand_value (h : list UnoCard) : Z :=
  fold_right (fun c a => score_card c + a) 0 h.

(** Value of the hands of every player but the one at position [k]. *)
Definition others_value (k : nat) (ps : list Player) : Z :=
  hand_value (flat_map hand (firstn k ps ++ skipn (S k) ps)).

Lemma hand_points_value acc h : hand_points acc h = acc + hand_value h.
Proof.
  unfold hand_points. revert acc; induction h as [|c h IH]; intro acc; simpl.
  - lia.
  - rewrite IH. lia.
Qed.

Lemma hand_value_app a b : hand_value (a ++ b) = hand_value a + hand_value b.
Proof. induction a as [|c a IH]; simpl; [reflexivity|]. rewrite IH. lia. Qed.

(** The scoring loop started from [acc], over players that are not the winner. *)
Lemma round_points_acc wid ps acc :
  (forall q, In q ps -> String.eqb (pid q) wid = false) ->
  fold_left (fun a q => if String.eqb (pid q) wid then a else hand_points a (hand q)) ps acc
  = acc + hand_value (flat_map hand ps).
Proof.
  revert acc; induction ps as [|q ps IH]; intros acc H; simpl.
  - lia.
  - rewrite (H q (or_introl eq_refl)).
    rewrite IH by (intros; apply H; now right).
    rewrite hand_points_value, hand_value_app. lia.
Qed.

Lemma nth_error_split_at {A} (l : list A) k x :
  nth_error l k = Some x -> l = firstn k l ++ x :: skipn (S k) l.
Proof.
  revert k; induction l as [|a l IH]; intros [|k] H; simpl in *; try discriminate.
  - now injection H as ->.
  - f_equal. now apply IH.
Qed.

(** With distinct player ids the scoring loop adds up exactly the hands of the
    players other than the winner. *)
Lemma round_points_others ps k winner :
  NoDup (map pid ps) ->
  nth_error ps k = Some winner ->
  round_points (pid winner) ps = others_value k ps.
Proof.
  intros Hnd Hk. unfold round_points, others_value.
  pose proof (nth_error_split_at _ _ Hk) as Hsplit.
  set (pre := firstn k ps) in *. set (post := skipn (S k) ps) in *.
  rewrite Hsplit at 1. rewrite Hsplit in Hnd. clear Hsplit.
  rewrite map_app in Hnd. simpl in Hnd.
  pose proof (NoDup_remove_2 _ _ _ Hnd) as Hnotin.
  assert (Hother : forall q, In q (pre ++ post) -> String.eqb (pid q) (pid winner) = false).
  { intros q Hin. apply String.eqb_neq. intro Heq. apply Hnotin.
    rewrite <- map_app, <- Heq. now apply in_map. }
  rewrite fold_left_app. simpl. rewrite String.eqb_refl.
  rewrite <- fold_left_app.
  rewrite round_points_acc by exact Hother. lia.
Qed.

(** What the claim says of a completed round: [ps0] are the players once the
    card has left the hand, [k] the position of the first of them whose hand
    is empty, [i0] the turn pointer and [limit] the score limit before the
    action, [s'] the resulting state. *)
Definition round_completed (i0 limit : Z) (ps0 : list Player) (k : nat) (s' : GameState)
  : Prop :=
  exists winner,
    nth_error ps0 k = Some winner
    /\ hand winner = []
    /\ players s'
       = list_alter (fun q => set_score (score q + others_value k ps0) q) k ps0
    /\ winner_player_id s' = Some (pid winner)
    /\ status s'
       = (if score winner + others_value k ps0 >=? limit then match_over else round_over)
    /\ current_player_index s' = i0.

Lemma resolve_won w k winner :
  find_index (fun q => (List.length (hand q) =? 0)%nat) (players (game w)) = Some k ->
  nth_error (players (game w)) k = Some winner ->
  NoDup (map pid (players (game w))) ->
  exists w1,
    _resolve_round_if_won w = (Return true, w1)
    /\ env w1 = env w
    /\ round_completed (current_player_index (game w)) (score_limit (settings (game w)))
         (players (game w)) k (game w1).
Proof.
  intros Hk Hw Hnd.
  destruct (find_index_Some _ _ Hk) as (x & Hx & Hemp & _).
  rewrite Hw in Hx. injection Hx as <-.
  assert (Hhand : hand winner = []).
  { destruct (hand winner); [reflexivity | discriminate]. }
  unfold _resolve_round_if_won.
  step_get. rewrite Hk.
  step_with ltac:(apply player_at_eq; exact Hw).
  rewrite (@round_points_others _ k winner Hnd Hw).
  unfold modify_player.
  do 2 step_modify.
  destruct (score winner + others_value k (players (game w))
            >=? score_limit (settings (game w))) eqn:Elim.
  - eexists. split; [reflexivity|]. split; [reflexivity|].
    exists winner. cbn. rewrite Elim. repeat split; auto.
  - eexists. split; [reflexivity|]. split; [reflexivity|].
    exists winner. cbn. rewrite Elim. repeat split; auto.
Qed.

(** The pipeline every play runs once the card lies on the discard pile:
    action effect, direction flip, round check, and then either the end of
    the action ([k_won]) or the turn advance and what follows ([k_cont]). *)
Definition finish_play {A} (card : UnoCard) (k_won : M A) (k_cont : Z * bool -> M A)
  : M A :=
  eff <- _apply_action_effects_after_play card ;;
  flip_if (snd eff) ;;
  won <- _resolve_round_if_won ;;
  if (won : bool) then k_won else k_cont eff.

(** The action effect changes [pending_draw] only. *)
Lemma effects_frame card w :
  exists eff s1,
    _apply_action_effects_after_play card w = (Return eff, mkWorld s1 (env w))
    /\ players s1 = players (game w)
    /\ current_player_index s1 = current_player_index (game w)
    /\ settings s1 = settings (game w)
    /\ direction s1 = direction (game w).
Proof.
  destruct w as [s e].
  unfold _apply_action_effects_after_play. step_get. cbn [game env].
  destruct (value card); try destruct (Nat.eqb _ 2);
    do 2 eexists; (split; [reflexivity|]); cbn; repeat split.
Qed.

Lemma flip_if_frame b w :
  exists s1,
    flip_if b w = (Return tt, mkWorld s1 (env w))
    /\ players s1 = players (game w)
    /\ current_player_index s1 = current_player_index (game w)
    /\ settings s1 = settings (game w).
Proof.
  destruct w as [s e]. destruct b; cbn.
  - eexists. split; [reflexivity|]. cbn. auto.
  - exists s. auto.
Qed.

(** When some hand is empty, the pipeline ends the round and hands over to
    [k_won]: the turn pointer stays where it was and [k_cont], the turn
    advance and the automated-player driver, is not run. *)
Lemma finish_play_won {A} (card : UnoCard) (k_won : M A) (k_cont : Z * bool -> M A) w k winner :
  find_index (fun q => (List.length (hand q) =? 0)%nat) (players (game w)) = Some k ->
  nth_error (players (game w)) k = Some winner ->
  NoDup (map pid (players (game w))) ->
  exists w1,
    finish_play card k_won k_cont w = k_won w1
    /\ env w1 = env w
    /\ round_completed (current_player_index (game w)) (score_limit (settings (game w)))
         (players (game w)) k (game w1).
Proof.
  intros Hk Hw Hnd. unfold finish_play.
  destruct (effects_frame card w) as (eff & s1 & E1 & Hp1 & Hi1 & Hs1 & _).
  rewrite (bind_Return _ _ _ E1).
  destruct (flip_if_frame (snd eff) (mkWorld s1 (env w))) as (s2 & E2 & Hp2 & Hi2 & Hs2).
  rewrite (bind_Return _ _ _ E2).
  cbn [game env] in *.
  destruct (@resolve_won (mkWorld s2 (env w)) k winner) as (w1 & E3 & He & Hrc).
  { cbn. rewrite Hp2, Hp1. exact Hk. }
  { cbn. rewrite Hp2, Hp1. exact Hw. }
  { cbn. rewrite Hp2, Hp1. exact Hnd. }
  rewrite (bind_Return _ _ _ E3).
  exists w1. split; [reflexivity|]. split; [exact He|].
  cbn in Hrc. rewrite Hp2, Hp1, Hi2, Hi1, Hs2, Hs1 in Hrc. exact Hrc.
Qed.

(** Rewriting steps of the monad on an applied computation. *)
Lemma bind_assoc {A B C} (m : M A) (k1 : A -> M B) (k2 : B -> M C) w :
  bind (bind m k1) k2 w = bind m (fun a => bind (k1 a) k2) w.
Proof. unfold bind. destruct (m w) as [[a|e|] w1]; reflexivity. Qed.

Lemma bind_ret {A B} (a : A) (k : A -> M B) w : bind (ret a) k w = k a w.
Proof. reflexivity. Qed.

Lemma bind_get {B} (k : GameState -> M B) w : bind get k w = k (game w) w.
Proof. reflexivity. Qed.

Lemma bind_modify {B} f (k : unit -> M B) w :
  bind (modify f) k w = k tt (mkWorld (f (game w)) (env w)).
Proof. reflexivity. Qed.

Ltac msimp :=
  repeat (first [ rewrite bind_assoc | rewrite bind_ret | rewrite bind_get
                | rewrite bind_modify ]; cbv beta);
  cbn [game env].

Lemma round_completed_updated i0 limit ps0 k s t :
  round_completed i0 limit ps0 k s ->
  round_completed i0 limit ps0 k (set_updated_at t s).
Proof. intros (winner & H). exists winner. exact H. Qed.

Lemma map_pid_alter (f : Player -> Player) j ps :
  (forall q, pid (f q) = pid q) ->
  map pid (list_alter f j ps) = map pid ps.
Proof.
  intro H. revert j; induction ps as [|a ps IH]; intros [|j]; simpl; auto.
  - now rewrite H.
  - now rewrite IH.
Qed.

(** The card leaves the hand at position [j]. *)
Definition without_card (card : UnoCard) (j : nat) (ps : list Player) : list Player :=
  list_alter (fun q => set_hand (remove_by_id (card_id card) (hand q)) q) j ps.

Lemma without_card_pids card j ps : map pid (without_card card j ps) = map pid ps.
Proof. apply map_pid_alter. reflexivity. Qed.

(** Run the pipeline of a play from a state in which some hand is empty. *)
Ltac finish_round Hk Hnd :=
  match goal with
  | |- exists w',
         @bind _ ?B (_apply_action_effects_after_play ?card)
           (fun eff => bind (flip_if (snd eff))
              (fun _ => bind _resolve_round_if_won
                 (fun won => if won then ?kw else @?kc eff))) ?W = _ /\ _ =>
      let x := fresh "x" in let Hx := fresh "Hx" in
      let w1 := fresh "w1" in let E := fresh "E" in
      let He := fresh "He" in let Hrc := fresh "Hrc" in
      destruct (@find_index_Some _ _ _ _ Hk) as (x & Hx & _ & _);
      destruct (@finish_play_won B card kw kc W _ x Hk Hx) as (w1 & E & He & Hrc);
      [ cbn; rewrite ?map_pid_alter by reflexivity; exact Hnd | ];
      unfold finish_play in E;
      eexists; split;
      [ etransitivity; [exact E | reflexivity]
      | cbn [game]; try apply round_completed_updated; exact Hrc ]
  end.

Lemma play_card_completes_round (fuel : nat) (w : World) (p cid : string)
  (col : option string) (j k : nat) (q : Player) (card top : UnoCard) :
  let s := game w in
  _require_turn p w = (Return j, w) ->
  pending_draw s <= 0 ->
  py_last (discard_pile s) = Some top ->
  nth_error (players s) j = Some q ->
  find (fun c => String.eqb (card_id c) cid) (hand q) = Some card ->
  can_play_on card top (current_color s) = true ->
  (is_wild_value (value card) = true -> parse_color col <> None) ->
  (value card = WILD_DRAW_FOUR ->
   allow_illegal_wild_draw_four (settings s) = false ->
   forall m,
     match current_color s with
     | Some c => Some c
     | None => if is_valid_color (color top) then Some (color top) else None
     end = Some m ->
     existsb (fun c => color_eqb (color c) m) (remove_by_id (card_id card) (hand q))
     = false) ->
  NoDup (map pid (players s)) ->
  find_index (fun r => (List.length (hand r) =? 0)%nat) (without_card card j (players s))
  = Some k ->
  exists w',
    play_card fuel p cid col w = (Return tt, w')
    /\ round_completed (current_player_index s) (score_limit (settings s))
         (without_card card j (players s)) k (game w').
Proof.
  intros s Hturn Hpd Htop Hq Hcard Hplay Hcol Hwd4 Hnd Hk. subst s.
  assert (Hgt : (pending_draw (game w) >? 0) = false)
    by (rewrite Z.gtb_ltb; apply Z.ltb_ge; lia).
  unfold play_card.
  rewrite (bind_Return _ _ _ Hturn).
  msimp. rewrite Hgt, Htop.
  step_with ltac:(apply player_at_eq; exact Hq).
  rewrite Hcard, Hplay. cbn [negb].
  unfold modify_player, discard_append.
  destruct (is_wild_value (value card)) eqn:Ewild.
  - destruct (parse_color col) as [cc|] eqn:Ecc; [|now destruct (Hcol eq_refl)].
    destruct (negb (allow_illegal_wild_draw_four (settings (game w)))
              && value_eqb (value card) WILD_DRAW_FOUR) eqn:Echeck.
    + apply andb_prop in Echeck as [Hallow Hval].
      apply negb_true_iff in Hallow.
      assert (Hv : value card = WILD_DRAW_FOUR).
      { destruct (value card); try discriminate; reflexivity. }
      specialize (Hwd4 Hv Hallow).
      destruct (match current_color (game w) with
                | Some c => Some c
                | None => if is_valid_color (color top) then Some (color top) else None
                end) as [m|] eqn:Em.
      * rewrite (Hwd4 m eq_refl). msimp. finish_round Hk Hnd.
      * msimp. finish_round Hk Hnd.
    + msimp. finish_round Hk Hnd.
  - destruct (is_valid_color (color card)); msimp; finish_round Hk Hnd.
Qed.

Ltac mstep tac := msimp; erewrite bind_Return; [| tac ]; cbv beta.

(** What a draw leaves alone, read off any successful draw. *)
Lemma draw_cards_frame j count w new w1 :
  _draw_cards_to_player j count w = (Return new, w1) ->
  core (game w1) = core (game w)
  /\ players (game w1) = list_alter (append_hand new) j (players (game w))
  /\ map pid (players (game w1)) = map pid (players (game w)).
Proof.
  intro H.
  destruct (draw_cards_total j count w) as (new' & w' & E & _ & Hc & Hp).
  rewrite E in H. injection H as -> ->.
  repeat split; auto.
  rewrite Hp. apply map_pid_alter. reflexivity.
Qed.

Lemma driver_play_completes_round (fuel : nat) (w : World) (i k : nat) (cur : Player)
  (chosen : UnoCard) (wild_color : option CardColor) :
  let s := game w in
  status s = playing ->
  py_index (players s) (current_player_index s) = Some i ->
  nth_error (players s) i = Some cur ->
  is_ai cur = true ->
  pending_draw s <= 0 ->
  _ai_choose_play s cur = (Some chosen, wild_color) ->
  NoDup (map pid (players s)) ->
  find_index (fun r => (List.length (hand r) =? 0)%nat) (without_card chosen i (players s))
  = Some k ->
  exists w',
    _auto_resolve_ai_turns (S fuel) w = (Return tt, w')
    /\ round_completed (current_player_index s) (score_limit (settings s))
         (without_card chosen i (players s)) k (game w').
Proof.
  intros s Hst Hi Hcur Hai Hpd Hchoose Hnd Hk. subst s.
  assert (Hgt : (pending_draw (game w) >? 0) = false)
    by (rewrite Z.gtb_ltb; apply Z.ltb_ge; lia).
  cbn [_auto_resolve_ai_turns].
  msimp. rewrite Hst. cbn [status_eqb negb]. rewrite Hi.
  mstep ltac:(apply from_option_Some).
  mstep ltac:(apply player_at_eq; exact Hcur).
  rewrite Hai. cbn [negb]. rewrite Hgt, Hchoose.
  unfold modify_player, discard_append. msimp.
  destruct (is_valid_color (color chosen)).
  - msimp. finish_round Hk Hnd.
  - msimp. mstep ltac:(apply player_at_eq; cbn; rewrite list_alter_nth, Hcur; reflexivity).
    msimp. finish_round Hk Hnd.
Qed.

Lemma driver_autoplay_completes_round (fuel : nat) (w w1 : World) (i k : nat)
  (cur : Player) (drawn top : UnoCard) (wild_color : option CardColor) :
  let s := game w in
  status s = playing ->
  py_index (players s) (current_player_index s) = Some i ->
  nth_error (players s) i = Some cur ->
  is_ai cur = true ->
  pending_draw s <= 0 ->
  _ai_choose_play s cur = (None, wild_color) ->
  _draw_cards_to_player i 1 w = (Return [drawn], w1) ->
  auto_play_if_drawn_playable (settings s) = true ->
  py_last (discard_pile (game w1)) = Some top ->
  can_play_on drawn top (current_color s) = true ->
  NoDup (map pid (players s)) ->
  find_index (fun r => (List.length (hand r) =? 0)%nat)
    (without_card drawn i (players (game w1))) = Some k ->
  exists w',
    _auto_resolve_ai_turns (S fuel) w = (Return tt, w')
    /\ round_completed (current_player_index s) (score_limit (settings s))
         (without_card drawn i (players (game w1))) k (game w').
Proof.
  intros s Hst Hi Hcur Hai Hpd Hchoose Hdraw Hauto Htop Hplay Hnd Hk. subst s.
  assert (Hgt : (pending_draw (game w) >? 0) = false)
    by (rewrite Z.gtb_ltb; apply Z.ltb_ge; lia).
  destruct (draw_cards_frame _ _ _ Hdraw) as (Hcore & Hpl & Hpids).
  destruct (core_fields Hcore) as (Hs1 & Hi1 & Hd1 & Hp1 & Hset1 & Hcol1).
  rewrite <- Hpids in Hnd. rewrite <- Hi1, <- Hset1.
  rewrite <- Hset1 in Hauto. rewrite <- Hcol1 in Hplay.
  assert (Hcur1 : nth_error (players (game w1)) i = Some (append_hand [drawn] cur)).
  { rewrite Hpl, list_alter_nth, Hcur. reflexivity. }
  cbn [_auto_resolve_ai_turns].
  msimp. rewrite Hst. cbn [status_eqb negb]. rewrite Hi.
  mstep ltac:(apply from_option_Some).
  mstep ltac:(apply player_at_eq; exact Hcur).
  rewrite Hai. cbn [negb]. rewrite Hgt, Hchoose.
  rewrite (bind_Return _ _ _ Hdraw). cbn [hd_error].
  mstep ltac:(apply from_option_Some).
  msimp. rewrite Hauto, Htop.
  mstep ltac:(apply from_option_Some).
  msimp. rewrite Hplay.
  unfold modify_player, discard_append. msimp.
  destruct (is_valid_color (color drawn)).
  - msimp. finish_round Hk Hnd.
  - msimp. mstep ltac:(apply player_at_eq; cbn; rewrite list_alter_nth, Hcur1; reflexivity).
    msimp. finish_round Hk Hnd.
Qed.

Lemma draw_card_autoplay_completes_round (fuel : nat) (w w1 : World) (p : string)
  (j k : nat) (drawn top : UnoCard) :
  let s := game w in
  _require_turn p w = (Return j, w) ->
  pending_draw s <= 0 ->
  _draw_cards_to_player j 1 w = (Return [drawn], w1) ->
  auto_play_if_drawn_playable (settings s) = true ->
  py_last (discard_pile (game w1)) = Some top ->
  can_play_on drawn top (current_color s) = true ->
  NoDup (map pid (players s)) ->
  find_index (fun r => (List.length (hand r) =? 0)%nat)
    (without_card drawn j (players (game w1))) = Some k ->
  exists w',
    draw_card fuel p w = (Return drawn, w')
    /\ round_completed (current_player_index s) (score_limit (settings s))
         (without_card drawn j (players (game w1))) k (game w').
Proof.
  intros s Hturn Hpd Hdraw Hauto Htop Hplay Hnd Hk. subst s.
  assert (Hgt : (pending_draw (game w) >? 0) = false)
    by (rewrite Z.gtb_ltb; apply Z.ltb_ge; lia).
  destruct (draw_cards_frame _ _ _ Hdraw) as (Hcore & Hpl & Hpids).
  destruct (core_fields Hcore) as (Hs1 & Hi1 & Hd1 & Hp1 & Hset1 & Hcol1).
  rewrite <- Hpids in Hnd. rewrite <- Hi1, <- Hset1.
  rewrite <- Hset1 in Hauto. rewrite <- Hcol1 in Hplay.
  destruct (require_turn_inv _ _ Hturn) as (_ & Hfind).
  destruct (@find_index_Some _ _ _ _ Hfind) as (q & Hq & _ & _).
  assert (Hq1 : nth_error (players (game w1)) j = Some (append_hand [drawn] q)).
  { rewrite Hpl, list_alter_nth, Hq. reflexivity. }
  unfold draw_card.
  rewrite (bind_Return _ _ _ Hturn).
  msimp. rewrite Hgt.
  rewrite (bind_Return _ _ _ Hdraw). cbn [hd_error].
  mstep ltac:(apply from_option_Some).
  msimp. cbn [discard_pile settings current_color set_last_drawn_card_id].
  rewrite Htop.
  mstep ltac:(apply from_option_Some).
  rewrite Hauto, Hplay. cbn [andb].
  unfold modify_player, discard_append. msimp.
  destruct (is_wild_value (value drawn)).
  - msimp. mstep ltac:(apply player_at_eq; cbn; rewrite list_alter_nth, Hq1; reflexivity).
    msimp. finish_round Hk Hnd.
  - destruct (is_valid_color (color drawn)); msimp; finish_round Hk Hnd.
Qed.

(** C4 — Round completion and scoring.  [score_card] gives numeric cards their
    face value, SKIP, REVERSE and DRAW_TWO 20, WILD and WILD_DRAW_FOUR 50.
    Whenever a play leaves some hand empty — a card played with [play_card],
    a card drawn and auto-played in [draw_card], a card chosen by the
    automated player, or a card it drew and auto-played — the operation
    returns with the round completed ([round_completed]): the first player
    with an empty hand is recorded as winner, that player's score grows by
    the value of all the other players' hands, the status is [match_over] if
    the new score reaches [score_limit] and [round_over] otherwise, and the
    turn pointer is the one before the action; this holds for any [fuel],
    also 0, so the automated-player driver is not run. *)
Theorem round_completion_and_scoring :
  (forall i c,
      map (fun v => score_card (mkCard i c v))
        [V0; V1; V2; V3; V4; V5; V6; V7; V8; V9; SKIP; REVERSE; DRAW_TWO; WILD;
         WILD_DRAW_FOUR]
      = [0; 1; 2; 3; 4; 5; 6; 7; 8; 9; 20; 20; 20; 50; 50])
  /\ (forall fuel w p cid col j k q card top,
        let s := game w in
        _require_turn p w = (Return j, w) ->
        pending_draw s <= 0 ->
        py_last (discard_pile s) = Some top ->
        nth_error (players s) j = Some q ->
        find (fun c => String.eqb (card_id c) cid) (hand q) = Some card ->
        can_play_on card top (current_color s) = true ->
        (is_wild_value (value card) = true -> parse_color col <> None) ->
        (value card = WILD_DRAW_FOUR ->
         allow_illegal_wild_draw_four (settings s) = false ->
         forall m,
           match current_color s with
           | Some c => Some c
           | None => if is_valid_color (color top) then Some (color top) else None
           end = Some m ->
           existsb (fun c => color_eqb (color c) m) (remove_by_id (card_id card) (hand q))
           = false) ->
        NoDup (map pid (players s)) ->
        find_index (fun r => (List.length (hand r) =? 0)%nat)
          (without_card card j (players s)) = Some k ->
        exists w',
          play_card fuel p cid col w = (Return tt, w')
          /\ round_completed (current_player_index s) (score_limit (settings s))
               (without_card card j (players s)) k (game w'))
  /\ (forall fuel w w1 p j k drawn top,
        let s := game w in
        _require_turn p w = (Return j, w) ->
        pending_draw s <= 0 ->
        _draw_cards_to_player j 1 w = (Return [drawn], w1) ->
        auto_play_if_drawn_playable (settings s) = true ->
        py_last (discard_pile (game w1)) = Some top ->
        can_play_on drawn top (current_color s) = true ->
        NoDup (map pid (players s)) ->
        find_index (fun r => (List.length (hand r) =? 0)%nat)
          (without_card drawn j (players (game w1))) = Some k ->
        exists w',
          draw_card fuel p w = (Return drawn, w')
          /\ round_completed (current_player_index s) (score_limit (settings s))
               (without_card drawn j (players (game w1))) k (game w'))
  /\ (forall fuel w i k cur chosen wild_color,
        let s := game w in
        status s = playing ->
        py_index (players s) (current_player_index s) = Some i ->
        nth_error (players s) i = Some cur ->
        is_ai cur = true ->
        pending_draw s <= 0 ->
        _ai_choose_play s cur = (Some chosen, wild_color) ->
        NoDup (map pid (players s)) ->
        find_index (fun r => (List.length (hand r) =? 0)%nat)
          (without_card chosen i (players s)) = Some k ->
        exists w',
          _auto_resolve_ai_turns (S fuel) w = (Return tt, w')
          /\ round_completed (current_player_index s) (score_limit (settings s))
               (without_card chosen i (players s)) k (game w'))
  /\ (forall fuel w w1 i k cur drawn top wild_color,
        let s := game w in
        status s = playing ->
        py_index (players s) (current_player_index s) = Some i ->
        nth_error (players s) i = Some cur ->
        is_ai cur = true ->
        pending_draw s <= 0 ->
        _ai_choose_play s cur = (None, wild_color) ->
        _draw_cards_to_player i 1 w = (Return [drawn], w1) ->
        auto_play_if_drawn_playable (settings s) = true ->
        py_last (discard_pile (game w1)) = Some top ->
        can_play_on drawn top (current_color s) = true ->
        NoDup (map pid (players s)) ->
        find_index (fun r => (List.length (hand r) =? 0)%nat)
          (without_card drawn i (players (game w1))) = Some k ->
        exists w',
          _auto_resolve_ai_turns (S fuel) w = (Return tt, w')
          /\ round_completed (current_player_index s) (score_limit (settings s))
               (without_card drawn i (players (game w1))) k (game w')).
Proof.
  split; [reflexivity|].
  split; [intros; eapply play_card_completes_round; eassumption|].
  split; [intros; eapply draw_card_autoplay_completes_round; eassumption|].
  split; [intros; eapply driver_play_completes_round; eassumption|].
  intros; eapply driver_autoplay_completes_round; eassumption.
Qed.

(** The example of the specification: the opponent holds a DRAW_TWO and a "7"
    when the player goes out. *)
Definition last_card_state : GameState :=
  mkState "g" playing 0 0
    [mkPlayer "p1" "You" false 100 [mkCard "a" red V3];
     mkPlayer "p2" "CPU" true 40 [mkCard "b" blue DRAW_TWO; mkCard "c" green V7]]
    0 1 [mkCard "x" yellow V1; mkCard "y" green V2] [mkCard "t" red V5]
    (Some red) 0 false None None None default_settings.

Lemma round_completion_and_scoring_witness :
  exists w',
    play_card 0 "p1" "a" None (mkWorld last_card_state demo_env) = (Return tt, w')
    /\ map score (players (game w')) = [127; 40]
    /\ winner_player_id (game w') = Some "p1"
    /\ status (game w') = round_over
    /\ current_player_index (game w') = 0.
Proof.
  destruct round_completion_and_scoring as (_ & Hplay & _).
  destruct (Hplay 0%nat (mkWorld last_card_state demo_env) "p1" "a" None 0%nat 0%nat
              (mkPlayer "p1" "You" false 100 [mkCard "a" red V3])
              (mkCard "a" red V3) (mkCard "t" red V5))
    as (w' & E & winner & Hw & _ & Hpl & Hwin & Hst & Hidx);
    try reflexivity.
  - intro H. discriminate H.
  - apply nodupb_sound. reflexivity.
  - exists w'. injection Hw as <-.
    split; [exact E|].
    split; [rewrite Hpl; reflexivity|].
    repeat split; assumption.
Defined.

(** ** Card conservation *)

Definition ids_distinct (s : GameState) : Prop := NoDup (map card_id (all_cards s)).

Definition uuid_cursor (w : World) : nat := cursor (uuid (env w)).

(** [w'] comes after [w] in a game of [n] players: the players are as many,
    no identifier was taken back, and if none was generated (no deck was
    built) the cards of [w'] are those of [w] — provided their ids were
    distinct, which is what lets a card be taken out of a hand by its id. *)
Definition follows (n : nat) (w w' : World) : Prop :=
  List.length (players (game w)) = n ->
  List.length (players (game w')) = n
  /\ (uuid_cursor w <= uuid_cursor w')%nat
  /\ (ids_distinct (game w) ->
      uuid_cursor w' = uuid_cursor w ->
      Permutation (all_cards (game w')) (all_cards (game w))).

Lemma follows_refl n w : follows n w w.
Proof. intro H. repeat split; auto. Qed.

Lemma ids_distinct_perm s s' :
  Permutation (all_cards s') (all_cards s) -> ids_distinct s -> ids_distinct s'.
Proof.
  unfold ids_distinct. intros HP H.
  eapply Permutation_NoDup; [|exact H].
  apply Permutation_map. symmetry. exact HP.
Qed.

Lemma follows_trans n w1 w2 w3 : follows n w1 w2 -> follows n w2 w3 -> follows n w1 w3.
Proof.
  intros H12 H23 Hn.
  destruct (H12 Hn) as (Hn2 & Hc12 & HP12).
  destruct (H23 Hn2) as (Hn3 & Hc23 & HP23).
  split; [exact Hn3|]. split; [lia|].
  intros Hd Hc.
  assert (Hc2 : uuid_cursor w2 = uuid_cursor w1) by lia.
  specialize (HP12 Hd Hc2).
  rewrite <- HP12. apply HP23; [|lia].
  eapply ids_distinct_perm; eauto.
Qed.

(** A step that changes neither the cards, nor the number of players, nor the
    identifier source. *)
Lemma follows_same_cards n w w' :
  all_cards (game w') = all_cards (game w) ->
  List.length (players (game w')) = List.length (players (game w)) ->
  uuid (env w') = uuid (env w) ->
  follows n w w'.
Proof.
  intros Hc Hl Hu Hn. unfold uuid_cursor. rewrite Hc, Hl, Hu. repeat split; auto.
Qed.

(** Whatever its outcome, [m] leads to a world that follows the one it
    started from. *)
Definition conserves (n : nat) {A} (m : M A) : Prop :=
  forall w, follows n w (snd (m w)).

Section Conserves.
Context (n : nat) {A B : Type}.

Lemma conserves_ret (a : A) : conserves n (ret a).
Proof. intro w. apply follows_refl. Qed.

Lemma conserves_raise e : conserves n (@raise A e).
Proof. intro w. apply follows_refl. Qed.

Lemma conserves_from_option e (o : option A) : conserves n (from_option e o).
Proof. intro w. destruct o; apply follows_refl. Qed.

Lemma conserves_bind (m : M A) (k : A -> M B) :
  conserves n m -> (forall a, conserves n (k a)) -> conserves n (bind m k).
Proof.
  intros Hm Hk w. unfold bind.
  specialize (Hm w). destruct (m w) as [[a|e|] w1]; cbn [snd] in *; auto.
  eapply follows_trans; [exact Hm | apply Hk].
Qed.

(** As [conserves_bind], with what is known of the value [m] returns. *)
Lemma conserves_bind_post (Q : A -> Prop) (m : M A) (k : A -> M B) :
  (forall w a w', List.length (players (game w)) = n -> m w = (Return a, w') -> Q a) ->
  conserves n m -> (forall a, Q a -> conserves n (k a)) -> conserves n (bind m k).
Proof.
  intros HQ Hm Hk w Hn. unfold bind.
  specialize (Hm w). destruct (m w) as [[a|e|] w1] eqn:E; cbn [snd] in *; auto.
  exact (follows_trans Hm (Hk a (HQ _ _ _ Hn E) w1) Hn).
Qed.
End Conserves.

Lemma conserves_get n : conserves n get.
Proof. intro w. apply follows_refl. Qed.

(** Assignments to fields that hold no cards. *)
Lemma conserves_modify n f :
  (forall s, all_cards (f s) = all_cards s) ->
  (forall s, List.length (players (f s)) = List.length (players s)) ->
  conserves n (modify f).
Proof.
  intros Hc Hl w. apply follows_same_cards; cbn; auto.
Qed.

Lemma conserves_lift_env n {A} (f : Env -> A * Env) :
  (forall e, uuid (snd (f e)) = uuid e) -> conserves n (lift_env f).
Proof.
  intros Hu w. unfold lift_env. specialize (Hu (env w)).
  destruct (f (env w)) as [a e']. apply follows_same_cards; cbn; auto.
Qed.

Lemma hands_alter_same f j ps :
  (forall q, hand (f q) = hand q) ->
  flat_map hand (list_alter f j ps) = flat_map hand ps.
Proof.
  intro H. revert j; induction ps as [|a ps IH]; intros [|j]; simpl; auto.
  - now rewrite H.
  - now rewrite IH.
Qed.

Lemma conserves_touch n : conserves n touch.
Proof.
  unfold touch, time_time. apply conserves_bind.
  - apply conserves_lift_env. intro e. reflexivity.
  - intro t. apply conserves_modify; reflexivity.
Qed.

Lemma conserves_next_index n steps : conserves n (_next_index steps).
Proof.
  unfold _next_index. apply conserves_bind; [apply conserves_get|]. intro s.
  destruct (_ =? 0); [apply conserves_raise | apply conserves_ret].
Qed.

Lemma conserves_advance n steps : conserves n (advance steps).
Proof.
  unfold advance. apply conserves_bind; [apply conserves_next_index|]. intro i.
  apply conserves_modify; reflexivity.
Qed.

Lemma conserves_flip_if n b : conserves n (flip_if b).
Proof.
  destruct b; [apply conserves_modify; reflexivity | apply conserves_ret].
Qed.

Lemma conserves_effects n c : conserves n (_apply_action_effects_after_play c).
Proof.
  unfold _apply_action_effects_after_play.
  apply conserves_bind; [apply conserves_get|]. intro s.
  destruct (value c); try destruct (Nat.eqb _ 2);
    first [ apply conserves_ret
          | apply conserves_bind;
            [apply conserves_modify; reflexivity | intro; apply conserves_ret] ].
Qed.

Lemma conserves_player_at n j : conserves n (player_at j).
Proof.
  unfold player_at. apply conserves_bind; [apply conserves_get|]. intro s.
  apply conserves_from_option.
Qed.

Lemma conserves_resolve n : conserves n _resolve_round_if_won.
Proof.
  unfold _resolve_round_if_won.
  apply conserves_bind; [apply conserves_get|]. intro s.
  destruct (find_index _ _) as [k|]; [|apply conserves_ret].
  apply conserves_bind; [apply conserves_player_at|]. intro winner.
  apply conserves_bind.
  { unfold modify_player. apply conserves_modify; intro s0.
    - unfold all_cards, hands. cbn. now rewrite hands_alter_same.
    - cbn. apply list_alter_length. }
  intros _.
  apply conserves_bind; [apply conserves_modify; reflexivity|]. intros _.
  apply conserves_bind; [|intro; apply conserves_ret].
  destruct (_ >=? _);
    (apply conserves_bind; [apply conserves_modify; reflexivity|]; intros _;
     apply conserves_modify; reflexivity).
Qed.

(** A drawn card comes from the piles, unless a deck had to be built. *)
Lemma draw_one_perm w :
  exists c w',
    _draw_one w = (Return c, w')
    /\ core (game w') = core (game w)
    /\ players (game w') = players (game w)
    /\ (uuid_cursor w <= uuid_cursor w')%nat
    /\ (uuid_cursor w' = uuid_cursor w ->
        Permutation (c :: draw_pile (game w') ++ discard_pile (game w'))
                    (draw_pile (game w) ++ discard_pile (game w))).
Proof.
  unfold uuid_cursor.
  destruct (draw_pile (game w)) as [|x t] eqn:Hd.
  - destruct (length_le_1_or_last (discard_pile (game w)))
      as [Hl | (rest & top & Hdis & Hrest)].
    + destruct (draw_one_rebuild w Hd Hl) as (c & d & g' & _ & E).
      exists c. eexists. split; [exact E|]. cbn.
      repeat split; try lia.
    + pose proof (shuffle_perm rest (rng (env w))) as HP.
      pose proof (@reshuffle_spec w rest top Hd Hdis Hrest) as HR.
      destruct (shuffle rest (rng (env w))) as [r g']. cbn [fst snd] in HP, HR.
      assert (Hr : r <> []).
      { intros ->. apply Permutation_nil in HP. congruence. }
      destruct (exists_last Hr) as (d & c & ->).
      exists c. eexists. split.
      * eapply draw_one_via; [exact HR | reflexivity].
      * cbn. repeat split; auto. intros _. rewrite Hdis.
        rewrite <- HP.
        rewrite (Permutation_app_comm d [c]). reflexivity.
  - destruct (@exists_last _ (x :: t)) as (d & c & E); [discriminate|].
    rewrite E in *. clear E x t.
    exists c. eexists. split.
    + apply draw_one_pop. exact Hd.
    + cbn. repeat split; auto. intros _.
      rewrite <- app_assoc. simpl.
      apply Permutation_middle.
Qed.

(** The cards drawn by the loop come from the piles, unless a deck had to be
    built. *)
Lemma draw_loop_perm j k drawn w :
  exists new w',
    draw_loop j k drawn w = (Return (drawn ++ new), w')
    /\ core (game w') = core (game w)
    /\ players (game w') = list_alter (append_hand new) j (players (game w))
    /\ (uuid_cursor w <= uuid_cursor w')%nat
    /\ (uuid_cursor w' = uuid_cursor w ->
        Permutation (new ++ draw_pile (game w') ++ discard_pile (game w'))
                    (draw_pile (game w) ++ discard_pile (game w))).
Proof.
  revert drawn w; induction k as [|k IH]; intros drawn w; cbn [draw_loop].
  - exists [], w. rewrite app_nil_r. repeat split; auto.
    symmetry. apply list_alter_id, append_hand_nil.
  - destruct (draw_one_perm w) as (c & w1 & E1 & Hc1 & Hp1 & Hm1 & HP1).
    rewrite (bind_Return _ _ _ E1).
    unfold modify_player. rewrite bind_modify.
    destruct (IH (drawn ++ [c])
                 (mkWorld (set_players
                             (list_alter (fun p => set_hand (hand p ++ [c]) p) j
                                (players (game w1))) (game w1)) (env w1)))
      as (new & w' & E & Hc & Hp & Hm & HP).
    exists (c :: new), w'.
    split. { rewrite E, <- app_assoc. reflexivity. }
    split. { rewrite Hc. exact Hc1. }
    split.
    { rewrite Hp. cbn [game players set_players].
      rewrite Hp1, list_alter_compose.
      apply list_alter_ext. intro p0. apply (append_hand_app [c] new p0). }
    unfold uuid_cursor in *. cbn [game env] in *.
    split; [lia|].
    intro Hsame.
    assert (H1 : cursor (uuid (env w1)) = cursor (uuid (env w))) by lia.
    assert (H2 : cursor (uuid (env w')) = cursor (uuid (env w1))) by lia.
    specialize (HP H2). specialize (HP1 H1).
    cbn in HP.
    rewrite <- HP1. simpl. apply perm_skip. exact HP.
Qed.

Lemma hands_alter_append_list ps j new :
  (j < List.length ps)%nat ->
  Permutation (flat_map hand (list_alter (append_hand new) j ps))
              (new ++ flat_map hand ps).
Proof.
  revert j; induction ps as [|p ps IH]; intros [|j] Hj; simpl in *; try lia.
  - rewrite <- app_assoc.
    rewrite (app_assoc new), (Permutation_app_comm new (hand p)), <- app_assoc.
    reflexivity.
  - rewrite (IH j ltac:(lia)).
    rewrite !app_assoc. apply Permutation_app_tail. apply Permutation_app_comm.
Qed.

Lemma conserves_draw_cards n j count :
  (j < n)%nat -> conserves n (_draw_cards_to_player j count).
Proof.
  intros Hj w Hn. unfold _draw_cards_to_player.
  destruct (draw_loop_perm j (Z.to_nat (Z.max 0 count)) [] w)
    as (new & w' & E & Hc & Hp & Hm & HP).
  rewrite E. cbn [snd].
  split. { rewrite Hp, list_alter_length. exact Hn. }
  split; [exact Hm|].
  intros _ Hsame. specialize (HP Hsame).
  unfold all_cards, hands. rewrite Hp.
  rewrite (@hands_alter_append_list _ j new) by lia.
  rewrite !app_assoc.
  apply Permutation_app_tail.
  rewrite <- HP. apply Permutation_app_comm.
Qed.

Lemma conserves_deal n js : Forall (fun j => (j < n)%nat) js -> conserves n (deal js).
Proof.
  induction 1 as [|j js Hj _ IH]; cbn [deal]; [apply conserves_ret|].
  apply conserves_bind; [apply conserves_get|]. intro s.
  apply conserves_bind; [apply conserves_draw_cards; exact Hj|]. intros _.
  exact IH.
Qed.

Lemma conserves_rng_choice n : conserves n rng_choice_color.
Proof.
  unfold rng_choice_color. apply conserves_lift_env. intro e.
  unfold choice, randbelow. reflexivity.
Qed.

Lemma conserves_find_starting_discard n : conserves n _find_starting_discard.
Proof.
  intros w Hn. unfold _find_starting_discard.
  destruct (draw_one_perm w) as (c & w1 & E1 & Hc1 & Hp1 & Hm1 & HP1).
  rewrite (bind_Return _ _ _ E1).
  unfold discard_append. rewrite bind_modify.
  revert Hn. eapply follows_trans.
  - intro Hn.
    instantiate (1 := mkWorld (set_discard_pile (discard_pile (game w1) ++ [c]) (game w1))
                              (env w1)).
    split. { cbn. rewrite Hp1. exact Hn. }
    split; [exact Hm1|].
    intros _ Hsame. specialize (HP1 Hsame).
    unfold all_cards, hands. cbn. rewrite Hp1.
    rewrite !app_assoc. apply Permutation_app_tail.
    rewrite <- HP1. rewrite <- app_assoc.
    symmetry. rewrite app_assoc. apply Permutation_cons_append.
  - apply (@conserves_bind n _ _ _ (fun _ => ret c)); [|intro; apply conserves_ret].
    destruct (is_wild_value (value c)); [|destruct (is_valid_color (color c))];
      first [ apply conserves_modify; reflexivity
            | apply conserves_bind;
              [apply conserves_rng_choice | intro; apply conserves_modify; reflexivity] ].
Qed.

(** * Further properties of the engine *)

(** ** Legality of a play *)

Lemma color_eqb_eq a b : color_eqb a b = true <-> a = b.
Proof. destruct a, b; simpl; split; intro H; try reflexivity; discriminate. Qed.

Lemma value_eqb_eq a b : value_eqb a b = true <-> a = b.
Proof.
  unfold value_eqb. rewrite Nat.eqb_eq. split; [|now intros ->].
  destruct a, b; simpl; intro H; try reflexivity; discriminate.
Qed.

(** The colour a non-wild card is matched against. *)
Definition active_color (top : UnoCard) (cur : option CardColor) : CardColor :=
  match cur with Some c => c | None => color top end.

(** X1 — [can_play_on]: a wild-coloured card is always playable; any other
    card is playable exactly when its colour is the active colour (the
    current colour if one is set, the top card's colour otherwise) or its
    value is the top card's value; hence, once a current colour is set, the
    colour printed on the top card plays no part. *)
Theorem can_play_on_rules (card top : UnoCard) (cur : option CardColor) :
  (color card = wild -> can_play_on card top cur = true)
  /\ (color card <> wild ->
      (can_play_on card top cur = true
       <-> color card = active_color top cur \/ value card = value top))
  /\ (forall c top', cur = Some c -> value top' = value top ->
         can_play_on card top' cur = can_play_on card top cur).
Proof.
  unfold can_play_on, active_color. split; [|split].
  - intros ->. reflexivity.
  - intro Hw.
    destruct (color_eqb (color card) wild) eqn:E.
    { apply color_eqb_eq in E. contradiction. }
    destruct (color_eqb (color card) match cur with Some c => c | None => color top end)
      eqn:E2.
    + apply color_eqb_eq in E2. split; auto.
    + rewrite value_eqb_eq. split; [auto|].
      intros [H|H]; [|exact H].
      apply color_eqb_eq in H. congruence.
  - intros c top' -> Hv. rewrite Hv. reflexivity.
Qed.

(** ** Turn pointer *)

(** X2 — [_next_index] with at least one player returns, for any step count
    and any direction (also negative ones), an index inside the player list,
    so that reading the current player afterwards cannot fail; with no
    player it raises [ZeroDivisionError]. The state is not touched. *)
Theorem next_index_in_range (steps : Z) (w : World) :
  (players (game w) <> [] ->
   exists i,
     _next_index steps w = (Return i, w)
     /\ 0 <= i < Z.of_nat (List.length (players (game w)))
     /\ py_index (players (game w)) i = Some (Z.to_nat i)
     /\ (Z.to_nat i < List.length (players (game w)))%nat)
  /\ (players (game w) = [] -> _next_index steps w = (Raise ZeroDivisionError, w)).
Proof.
  unfold _next_index. split.
  - intro Hne. rewrite bind_get.
    assert (Hn : 0 < Z.of_nat (List.length (players (game w)))).
    { destruct (players (game w)); [congruence | simpl List.length; lia]. }
    replace (Z.of_nat (List.length (players (game w))) =? 0) with false
      by (symmetry; apply Z.eqb_neq; lia).
    eexists. split; [reflexivity|].
    pose proof (Z.mod_pos_bound
                  (current_player_index (game w) + direction (game w) * steps)
                  _ Hn) as Hb.
    split; [exact Hb|]. split; [apply py_index_in_range; exact Hb | lia].
  - intro He. rewrite bind_get, He. reflexivity.
Qed.

Lemma next_index_in_range_witness :
  exists i,
    _next_index (-3) (mkWorld two_player_state demo_env)
    = (Return i, mkWorld two_player_state demo_env)
    /\ 0 <= i < 2.
Proof.
  destruct (next_index_in_range (-3) (mkWorld two_player_state demo_env)) as [H _].
  destruct H as (i & E & Hb & _); [discriminate|].
  exists i. split; [exact E | exact Hb].
Defined.

(** ** Round check *)

Lemma find_index_None {A} (f : A -> bool) (l : list A) :
  (forall x, In x l -> f x = false) -> find_index f l = None.
Proof.
  induction l as [|a l IH]; intro H; simpl; [reflexivity|].
  rewrite (H a (or_introl eq_refl)).
  rewrite IH; [reflexivity|]. intros x Hx. apply H. now right.
Qed.

(** X3 — [_resolve_round_if_won] with no empty hand: it returns [False] and
    changes nothing (no score, no winner, no status, no message). *)
Theorem resolve_without_winner (w : World) :
  (forall q, In q (players (game w)) -> hand q <> []) ->
  _resolve_round_if_won w = (Return false, w).
Proof.
  intro H. unfold _resolve_round_if_won. rewrite bind_get.
  rewrite find_index_None; [reflexivity|].
  intros q Hq. specialize (H q Hq). destruct (hand q); [congruence | reflexivity].
Qed.

Lemma resolve_without_winner_witness :
  _resolve_round_if_won (mkWorld two_player_state demo_env)
  = (Return false, mkWorld two_player_state demo_env).
Proof.
  apply (resolve_without_winner (mkWorld two_player_state demo_env)).
  intros q [<-|[<-|[]]]; discriminate.
Defined.

(** ** The automated player's choices *)

(** X4 — [_ai_choose_color] returns one of the four colours, never [wild],
    and no colour occurs in the hand more often than the one returned; with
    no coloured card in hand it returns red. *)
Theorem ai_choose_color_most_common (p : Player) :
  In (_ai_choose_color p) VALID_COLORS
  /\ (forall c, In c VALID_COLORS ->
        (count_color (hand p) c <= count_color (hand p) (_ai_choose_color p))%nat)
  /\ ((forall c, In c VALID_COLORS -> count_color (hand p) c = 0%nat) ->
      _ai_choose_color p = red).
Proof.
  unfold _ai_choose_color, VALID_COLORS. simpl fold_left.
  set (cnt := count_color (hand p)).
  destruct (Nat.ltb_spec (cnt red) (cnt yellow)) as [H1|H1];
    match goal with
    | |- context [(cnt ?a <? cnt green)%nat] =>
        destruct (Nat.ltb_spec (cnt a) (cnt green)) as [H2|H2]
    end;
    match goal with
    | |- context [(cnt ?a <? cnt blue)%nat] =>
        destruct (Nat.ltb_spec (cnt a) (cnt blue)) as [H3|H3]
    end;
    (split; [simpl; tauto|]);
    (split;
     [ intros c [<-|[<-|[<-|[<-|[]]]]]; lia
     | intro H0;
       pose proof (H0 red ltac:(simpl; tauto));
       pose proof (H0 yellow ltac:(simpl; tauto));
       pose proof (H0 green ltac:(simpl; tauto));
       pose proof (H0 blue ltac:(simpl; tauto));
       first [reflexivity | lia] ]).
Qed.

Lemma prio_lt_4 c : (prio c < 4)%nat.
Proof. unfold prio. destruct (value c); simpl; lia. Qed.

(** The head of the sorted list is an element of least priority. *)
Lemma sort_by_prio_head l c rest :
  sort_by_prio l = c :: rest ->
  In c l /\ forall c', In c' l -> (prio c <= prio c')%nat.
Proof.
  unfold sort_by_prio. simpl flat_map. rewrite app_nil_r.
  assert (Hf : forall k x, In x (filter (fun c0 => Nat.eqb (prio c0) k) l)
                           -> In x l /\ prio x = k).
  { intros k x Hx. apply filter_In in Hx as [Hin He].
    apply Nat.eqb_eq in He. auto. }
  assert (Hnil : forall k, filter (fun c0 => Nat.eqb (prio c0) k) l = []
                           -> forall c', In c' l -> prio c' <> k).
  { intros k Hk c' Hin He.
    assert (In c' (filter (fun c0 => Nat.eqb (prio c0) k) l)) as Hc.
    { apply filter_In. split; [exact Hin | now apply Nat.eqb_eq]. }
    rewrite Hk in Hc. exact Hc. }
  destruct (filter (fun c0 => Nat.eqb (prio c0) 0) l) as [|a0 t0] eqn:E0.
  - destruct (filter (fun c0 => Nat.eqb (prio c0) 1) l) as [|a1 t1] eqn:E1.
    + destruct (filter (fun c0 => Nat.eqb (prio c0) 2) l) as [|a2 t2] eqn:E2.
      * simpl. intro H.
        destruct (Hf 3%nat c) as [Hin Hp]; [rewrite H; now left|].
        split; [exact Hin|]. intros c' Hc'.
        pose proof (Hnil _ E0 c' Hc'). pose proof (Hnil _ E1 c' Hc').
        pose proof (Hnil _ E2 c' Hc'). pose proof (prio_lt_4 c'). lia.
      * simpl. intro H. injection H as -> _.
        destruct (Hf 2%nat c) as [Hin Hp]; [rewrite E2; now left|].
        split; [exact Hin|]. intros c' Hc'.
        pose proof (Hnil _ E0 c' Hc'). pose proof (Hnil _ E1 c' Hc'). lia.
    + simpl. intro H. injection H as -> _.
      destruct (Hf 1%nat c) as [Hin Hp]; [rewrite E1; now left|].
      split; [exact Hin|]. intros c' Hc'.
      pose proof (Hnil _ E0 c' Hc'). lia.
  - simpl. intro H. injection H as -> _.
    destruct (Hf 0%nat c) as [Hin Hp]; [rewrite E0; now left|].
    split; [exact Hin|]. intros c' Hc'. lia.
Qed.

Lemma sort_by_prio_nil l : sort_by_prio l = [] -> l = [].
Proof.
  destruct l as [|c l]; [reflexivity|]. intro H. exfalso.
  assert (Hin : In c (sort_by_prio (c :: l))).
  { unfold sort_by_prio. apply in_flat_map. exists (prio c). split.
    - apply in_seq. pose proof (prio_lt_4 c). lia.
    - apply filter_In. split; [now left | apply Nat.eqb_refl]. }
  rewrite H in Hin. exact Hin.
Qed.

(** X5 — [_ai_choose_play]: a card it returns is in the player's hand, is
    playable on the discard top under the current colour, and no playable
    card of the hand has a better priority (draw and skip cards first, then
    WILD, then numbers); a colour comes with it exactly when the card is
    wild-coloured. It returns no card, and no colour, only when the discard
    pile is empty or no card of the hand is playable. *)
Theorem ai_choose_play_sound (s : GameState) (p : Player) :
  match _ai_choose_play s p with
  | (Some c, col) =>
      exists top,
        py_last (discard_pile s) = Some top
        /\ In c (hand p)
        /\ can_play_on c top (current_color s) = true
        /\ (forall c', In c' (hand p) -> can_play_on c' top (current_color s) = true ->
              (prio c <= prio c')%nat)
        /\ col = (if color_eqb (color c) wild then Some (_ai_choose_color p) else None)
  | (None, col) =>
      col = None
      /\ (discard_pile s = []
          \/ exists top,
               py_last (discard_pile s) = Some top
               /\ forall c', In c' (hand p) ->
                    can_play_on c' top (current_color s) = false)
  end.
Proof.
  unfold _ai_choose_play.
  destruct (py_last (discard_pile s)) as [top|] eqn:Et.
  - destruct (sort_by_prio _) as [|c rest] eqn:Es.
    + split; [reflexivity|]. right. exists top. split; [reflexivity|].
      apply sort_by_prio_nil in Es.
      intros c' Hc'. destruct (can_play_on c' top (current_color s)) eqn:Ec; auto.
      assert (In c' (filter (fun c0 => can_play_on c0 top (current_color s)) (hand p))) as Hin.
      { apply filter_In. auto. }
      rewrite Es in Hin. destruct Hin.
    + destruct (sort_by_prio_head _ Es) as [Hin Hmin].
      apply filter_In in Hin as [Hin Hplay].
      exists top. repeat split; auto.
      intros c' Hc' Hp'. apply Hmin. apply filter_In. auto.
  - split; [reflexivity|]. left. now apply py_last_None.
Qed.

(** ** Validation *)

(** The three operations that act for a player. *)
Definition actor (a : Action) : option string :=
  match a with
  | APlay p _ _ | ADraw p | APass p => Some p
  | APatch _ | ARestart => None
  end.

Lemma require_turn_not_playing p w :
  status (game w) <> playing ->
  _require_turn p w
  = (Raise (UnoRuleError
              ("Game is not in playing state (status="
                 ++ status_str (status (game w)) ++ ").")%string), w).
Proof.
  intro H. unfold _require_turn, _require_playing.
  rewrite bind_assoc, bind_get.
  destruct (status (game w)); try congruence; reflexivity.
Qed.

Lemma require_playing_ok w :
  status (game w) = playing -> _require_playing w = (Return tt, w).
Proof. intro H. unfold _require_playing. rewrite bind_get, H. reflexivity. Qed.

Lemma require_turn_unknown p w :
  status (game w) = playing ->
  find_index (fun q => String.eqb (pid q) p) (players (game w)) = None ->
  _require_turn p w = (Raise (UnoRuleError "Unknown player."), w).
Proof.
  intros Hs Hf. unfold _require_turn.
  rewrite (bind_Return _ _ _ (require_playing_ok w Hs)).
  unfold _get_player. rewrite bind_assoc, bind_get, Hf. reflexivity.
Qed.

Lemma require_turn_other p w j i cur :
  status (game w) = playing ->
  find_index (fun q => String.eqb (pid q) p) (players (game w)) = Some j ->
  py_index (players (game w)) (current_player_index (game w)) = Some i ->
  nth_error (players (game w)) i = Some cur ->
  pid cur <> p ->
  _require_turn p w = (Raise (UnoRuleError "Not your turn."), w).
Proof.
  intros Hs Hf Hi Hc Hne. unfold _require_turn.
  rewrite (bind_Return _ _ _ (require_playing_ok w Hs)).
  unfold _get_player. rewrite bind_assoc, bind_get, Hf.
  rewrite (bind_Return _ _ _ (from_option_Some _ j w)).
  rewrite bind_get, Hi.
  rewrite (bind_Return _ _ _ (from_option_Some _ i w)).
  rewrite (bind_Return _ _ _ (player_at_eq i w Hc)).
  apply String.eqb_neq in Hne. rewrite Hne. reflexivity.
Qed.

(** Whatever [_require_turn] raises, the operation raises, in the same world. *)
Lemma run_action_require_fails fuel a p w e :
  actor a = Some p ->
  _require_turn p w = (Raise e, w) ->
  run_action fuel a w = (Raise e, w).
Proof.
  intros Ha H.
  destruct a as [p' c col|p'|p'|patch|]; simpl in Ha; try discriminate;
    injection Ha as ->; simpl.
  - unfold play_card. now rewrite (bind_Raise _ _ _ H).
  - unfold draw_card. rewrite bind_assoc. now rewrite (bind_Raise _ _ _ H).
  - unfold pass_turn. now rewrite (bind_Raise _ _ _ H).
Qed.

(** X6 — Turn legality: in a playing game, [play_card], [draw_card] and
    [pass_turn] called for a known player who is not the one at
    [current_player_index] all raise the rule violation "Not your turn." and
    leave the state and the random source untouched, whatever card, colour
    or pending penalty. *)
Theorem out_of_turn_rejected (fuel : nat) (a : Action) (p : string) (w : World)
  (j i : nat) (cur : Player) :
  actor a = Some p ->
  status (game w) = playing ->
  find_index (fun q => String.eqb (pid q) p) (players (game w)) = Some j ->
  py_index (players (game w)) (current_player_index (game w)) = Some i ->
  nth_error (players (game w)) i = Some cur ->
  pid cur <> p ->
  run_action fuel a w = (Raise (UnoRuleError "Not your turn."), w).
Proof.
  intros Ha Hs Hf Hi Hc Hne.
  apply run_action_require_fails with (p := p); [exact Ha|].
  eapply require_turn_other; eassumption.
Qed.

Lemma out_of_turn_rejected_witness :
  run_action 3 (ADraw "p1") (mkWorld two_player_state demo_env)
  = (Raise (UnoRuleError "Not your turn."), mkWorld two_player_state demo_env).
Proof.
  apply (@out_of_turn_rejected 3 (ADraw "p1") "p1" (mkWorld two_player_state demo_env)
           0%nat 1%nat
           (mkPlayer "p2" "CPU" true 0 [mkCard "c" red SKIP; mkCard "d" green V7]));
    try reflexivity.
  discriminate.
Defined.

(** X7 — Order of the checks: when the game is not in the playing status the
    three player operations raise "Game is not in playing state (status=..)"
    for any player id, known or not; in a playing game an id that no player
    carries raises "Unknown player."; in both cases nothing changes. *)
Theorem status_and_player_checked_first (fuel : nat) (a : Action) (p : string)
  (w : World) :
  actor a = Some p ->
  (status (game w) <> playing ->
   run_action fuel a w
   = (Raise (UnoRuleError
               ("Game is not in playing state (status="
                  ++ status_str (status (game w)) ++ ").")%string), w))
  /\ (status (game w) = playing ->
      (forall q, In q (players (game w)) -> pid q <> p) ->
      run_action fuel a w = (Raise (UnoRuleError "Unknown player."), w)).
Proof.
  intro Ha. split.
  - intro Hs. apply run_action_require_fails with (p := p); [exact Ha|].
    now apply require_turn_not_playing.
  - intros Hs Hnone. apply run_action_require_fails with (p := p); [exact Ha|].
    apply require_turn_unknown; [exact Hs|].
    apply find_index_None. intros q Hq. apply String.eqb_neq. now apply Hnone.
Qed.

Lemma status_and_player_checked_first_witness :
  run_action 3 (APass "p9") (mkWorld two_player_state demo_env)
  = (Raise (UnoRuleError "Unknown player."), mkWorld two_player_state demo_env).
Proof.
  destruct (@status_and_player_checked_first 3 (APass "p9") "p9"
              (mkWorld two_player_state demo_env) eq_refl) as [_ H].
  apply H; [reflexivity|].
  intros q [<-|[<-|[]]]; discriminate.
Defined.

(** X8 — What [play_card] refuses once the turn check has passed and no
    penalty is pending: an empty discard pile; a card id that is not in the
    caller's hand; a card that is not playable on the discard top; a WILD or
    WILD_DRAW_FOUR without one of the four colours as [chosen_color]; and,
    unless [allow_illegal_wild_draw_four] is set, a WILD_DRAW_FOUR while
    another card of the hand has the current colour. Each is a rule
    violation with its own message, and the world is left as it was. *)
Theorem play_card_refusals (fuel : nat) (w : World) (p cid : string)
  (col : option string) (j : nat) (q : Player) :
  let s := game w in
  _require_turn p w = (Return j, w) ->
  pending_draw s <= 0 ->
  nth_error (players s) j = Some q ->
  (discard_pile s = [] ->
   play_card fuel p cid col w = (Raise (UnoRuleError "No discard pile to play on."), w))
  /\ (forall top,
        py_last (discard_pile s) = Some top ->
        (find (fun c => String.eqb (card_id c) cid) (hand q) = None ->
         play_card fuel p cid col w = (Raise (UnoRuleError "Card not in your hand."), w))
        /\ (forall card,
              find (fun c => String.eqb (card_id c) cid) (hand q) = Some card ->
              (can_play_on card top (current_color s) = false ->
               play_card fuel p cid col w
               = (Raise (UnoRuleError "Card is not playable on the current discard."), w))
              /\ (can_play_on card top (current_color s) = true ->
                  is_wild_value (value card) = true ->
                  parse_color col = None ->
                  play_card fuel p cid col w
                  = (Raise (UnoRuleError "chosenColor is required for wild cards."), w))
              /\ (forall m other,
                    can_play_on card top (current_color s) = true ->
                    value card = WILD_DRAW_FOUR ->
                    parse_color col <> None ->
                    allow_illegal_wild_draw_four (settings s) = false ->
                    current_color s = Some m ->
                    In other (hand q) ->
                    card_id other <> card_id card ->
                    color other = m ->
                    play_card fuel p cid col w
                    = (Raise (UnoRuleError
                                "Wild Draw Four not allowed when you have a matching color."),
                       w)))).
Proof.
  intros s Hturn Hpd Hq. subst s.
  assert (Hgt : (pending_draw (game w) >? 0) = false)
    by (rewrite Z.gtb_ltb; apply Z.ltb_ge; lia).
  unfold play_card.
  rewrite (bind_Return _ _ _ Hturn). rewrite bind_get, Hgt.
  split.
  { intro Hd. rewrite Hd. reflexivity. }
  intros top Htop. rewrite Htop.
  rewrite (bind_Return _ _ _ (player_at_eq j w Hq)).
  split.
  { intro Hf. rewrite Hf. reflexivity. }
  intros card Hf. rewrite Hf.
  split; [|split].
  - intro Hc. rewrite Hc. reflexivity.
  - intros Hc Hwild Hparse. rewrite Hc, Hwild, Hparse. reflexivity.
  - intros m other Hc Hv Hparse Hallow Hcur Hin Hid Hcolor.
    rewrite Hc, Hv. cbn [is_wild_value negb].
    destruct (parse_color col) as [cc|]; [|congruence].
    rewrite Hallow, Hcur. cbn [negb andb value_eqb value_index Nat.eqb].
    assert (He : existsb (fun c => color_eqb (color c) m)
                   (remove_by_id (card_id card) (hand q)) = true).
    { apply existsb_exists. exists other. split.
      - unfold remove_by_id. apply filter_In. split; [exact Hin|].
        apply negb_true_iff. now apply String.eqb_neq.
      - apply color_eqb_eq. exact Hcolor. }
    rewrite He. reflexivity.
Qed.

Lemma play_card_refusals_witness :
  play_card 3 "p2" "b" None (mkWorld local_state demo_env)
  = (Raise (UnoRuleError "Card is not playable on the current discard."),
     mkWorld local_state demo_env).
Proof.
  destruct (@play_card_refusals 3 (mkWorld local_state demo_env) "p2" "b" None 1%nat
              (mkPlayer "p2" "Player 2" false 0 [mkCard "b" blue V3])
              eq_refl ltac:(simpl; lia) eq_refl) as [_ H].
  destruct (H (mkCard "t" red V5) eq_refl) as [_ H2].
  destruct (H2 (mkCard "b" blue V3) eq_refl) as [H3 _].
  apply H3. reflexivity.
Defined.

(** ** Public view *)

(** Two players that a viewer [you] cannot tell apart: the same public
    record and as many cards, and the same cards if the player is [you]. *)
Definition alike_for (you : string) (p1 p2 : Player) : Prop :=
  pid p1 = pid p2 /\ name p1 = name p2 /\ is_ai p1 = is_ai p2 /\ score p1 = score p2
  /\ List.length (hand p1) = List.length (hand p2)
  /\ (pid p1 = you -> hand p1 = hand p2).

Lemma alike_find you ps1 ps2 p1 :
  Forall2 (alike_for you) ps1 ps2 ->
  find (fun p => String.eqb (pid p) you) ps1 = Some p1 ->
  exists p2,
    find (fun p => String.eqb (pid p) you) ps2 = Some p2
    /\ pid p2 = pid p1 /\ hand p2 = hand p1.
Proof.
  induction 1 as [|a b l1 l2 Hab _ IH]; simpl; [discriminate|].
  destruct Hab as (Hpid & _ & _ & _ & _ & Hhand).
  rewrite <- Hpid.
  destruct (String.eqb (pid a) you) eqn:E.
  - intro H. injection H as <-. exists b. apply String.eqb_eq in E.
    repeat split; auto. symmetry. auto.
  - exact IH.
Qed.

Lemma alike_views you ps1 ps2 :
  Forall2 (alike_for you) ps1 ps2 ->
  map (fun p => mkPlayerView (pid p) (name p) (is_ai p) (score p)
                  (List.length (hand p)) (String.eqb (pid p) you)) ps2
  = map (fun p => mkPlayerView (pid p) (name p) (is_ai p) (score p)
                  (List.length (hand p)) (String.eqb (pid p) you)) ps1.
Proof.
  induction 1 as [|a b l1 l2 Hab _ IH]; simpl; [reflexivity|].
  destruct Hab as (Hpid & Hname & Hai & Hscore & Hlen & _).
  rewrite IH, Hpid, Hname, Hai, Hscore, Hlen. reflexivity.
Qed.

(** X9 — Information hiding of [as_public_state]: for a viewer who is one of
    the players, the view does not change when the other players' hands are
    replaced by other cards in the same number, the draw pile by another of
    the same size, and the discard pile by another with the same top card. *)
Theorem public_view_hides_other_hands (s : GameState) (you : string)
  (ps2 : list Player) (d2 x2 : list UnoCard) :
  (exists p, In p (players s) /\ pid p = you) ->
  Forall2 (alike_for you) (players s) ps2 ->
  List.length d2 = List.length (draw_pile s) ->
  py_last x2 = py_last (discard_pile s) ->
  as_public_state (set_discard_pile x2 (set_draw_pile d2 (set_players ps2 s))) you
  = as_public_state s you.
Proof.
  intros (p & Hin & Hp) HF Hd Hx.
  unfold as_public_state. cbn.
  rewrite Hx, Hd, (alike_views HF).
  destruct (find (fun q => String.eqb (pid q) you) (players s)) as [p1|] eqn:E1.
  - destruct (alike_find HF E1) as (p2 & E2 & Hpid & Hhand).
    rewrite E2, Hpid, Hhand.
    inversion HF as [Ha Hb | a b l1 l2 Hab Hrest Ha Hb]; subst.
    + rewrite <- Ha in E1. discriminate.
    + reflexivity.
  - exfalso.
    assert (Hnone := find_none _ _ E1 p Hin). cbn in Hnone.
    apply String.eqb_neq in Hnone. contradiction.
Qed.

Lemma public_view_hides_other_hands_witness :
  as_public_state
    (set_discard_pile [mkCard "t" red V5]
       (set_draw_pile [mkCard "q" blue V9; mkCard "r" blue V8]
          (set_players
             [mkPlayer "p1" "You" false 0 [mkCard "a" red REVERSE; mkCard "b" blue V3];
              mkPlayer "p2" "CPU" true 0 [mkCard "u" wild WILD; mkCard "v" red V0]]
             two_player_state))) "p1"
  = as_public_state two_player_state "p1".
Proof.
  apply (@public_view_hides_other_hands two_player_state "p1").
  - eexists. split; [left; reflexivity | reflexivity].
  - repeat constructor; simpl; intro H; discriminate H.
  - reflexivity.
  - reflexivity.
Defined.

(** X10 — The viewer's side of [as_public_state]: with no player the call
    fails (the [IndexError] of [state.players[0]]); a viewer id that no
    player carries is shown the first player's id and hand, with no entry
    marked [isYou]; a viewer who is a player is shown the id and hand of
    the first player carrying that id. *)
Theorem public_view_of_viewer (s : GameState) (you : string) :
  (players s = [] -> as_public_state s you = None)
  /\ (forall p0 rest,
        players s = p0 :: rest ->
        exists v,
          as_public_state s you = Some v
          /\ v_drawPileCount v = List.length (draw_pile s)
          /\ v_discardTop v = py_last (discard_pile s)
          /\ List.length (v_players v) = List.length (players s)
          /\ ((forall q, In q (players s) -> pid q <> you) ->
              v_you_playerId v = pid p0 /\ v_you_hand v = hand p0
              /\ forall pv, In pv (v_players v) -> pv_isYou pv = false)
          /\ (forall q,
                find (fun r => String.eqb (pid r) you) (players s) = Some q ->
                v_you_playerId v = you /\ v_you_hand v = hand q)).
Proof.
  split.
  - intro H. unfold as_public_state. now rewrite H.
  - intros p0 rest H. unfold as_public_state. rewrite H.
    eexists. split; [reflexivity|].
    cbn [v_drawPileCount v_discardTop v_players v_you_playerId v_you_hand].
    split; [reflexivity|]. split; [reflexivity|].
    split; [now rewrite length_map|].
    split.
    + intro Hnone.
      assert (Hf : find (fun r => String.eqb (pid r) you) (p0 :: rest) = None).
      { destruct (find _ (p0 :: rest)) as [r|] eqn:E; [|reflexivity].
        apply find_some in E as [Hin He]. apply String.eqb_eq in He.
        exfalso. exact (Hnone r Hin He). }
      rewrite Hf. repeat split.
      intros pv Hpv. apply in_map_iff in Hpv as (r & <- & Hr). cbn.
      apply String.eqb_neq. now apply Hnone.
    + intros q Hq. rewrite Hq.
      apply find_some in Hq as [_ He]. apply String.eqb_eq in He. auto.
Qed.

(** ** Settings patches, in general *)

Definition settings_keys : list string :=
  ["handSize"; "aiEnabled"; "aiDelayMs"; "autoPlayIfDrawnPlayable";
   "allowIllegalWildDrawFour"; "scoreLimit"].

(** X11 — [update_settings] accepts every patch: it always returns, never
    moves a card and never touches the turn state, the scores or the
    winner; a patch that holds none of the six recognised keys (an empty one,
    or one with other keys only) changes neither the settings nor the
    players — only [updated_at] and the message. *)
Theorem update_settings_any_patch (patch : Patch) (w : World) :
  let s := game w in
  let s' := game (snd (update_settings patch w)) in
  fst (update_settings patch w) = Return tt
  /\ map hand (players s') = map hand (players s)
  /\ map score (players s') = map score (players s)
  /\ map pid (players s') = map pid (players s)
  /\ draw_pile s' = draw_pile s
  /\ discard_pile s' = discard_pile s
  /\ current_player_index s' = current_player_index s
  /\ direction s' = direction s
  /\ pending_draw s' = pending_draw s
  /\ current_color s' = current_color s
  /\ status s' = status s
  /\ winner_player_id s' = winner_player_id s
  /\ message s' = Some "Settings updated."
  /\ rng (env (snd (update_settings patch w))) = rng (env w)
  /\ ((forall k, In k settings_keys -> patch_get k patch = None) ->
      settings s' = settings s /\ players s' = players s).
Proof.
  assert (Hh : forall b ps, map hand (set_ai_beyond_first b ps) = map hand ps).
  { intros b [|p ps]; simpl; [reflexivity|]. f_equal.
    rewrite map_map. apply map_ext. reflexivity. }
  assert (Hs : forall b ps, map score (set_ai_beyond_first b ps) = map score ps).
  { intros b [|p ps]; simpl; [reflexivity|]. f_equal.
    rewrite map_map. apply map_ext. reflexivity. }
  assert (Hp : forall b ps, map pid (set_ai_beyond_first b ps) = map pid ps).
  { intros b [|p ps]; simpl; [reflexivity|]. f_equal.
    rewrite map_map. apply map_ext. reflexivity. }
  cbv zeta.
  repeat match goal with |- _ /\ _ => split end.
  15:{ intro Hnone.
       assert (H1 : int_field "handSize" 1 15 patch = None)
         by (unfold int_field; rewrite Hnone; [reflexivity | simpl; tauto]).
       assert (H2 : bool_field "aiEnabled" patch = None)
         by (unfold bool_field; rewrite Hnone; [reflexivity | simpl; tauto]).
       assert (H3 : int_field "aiDelayMs" 0 5000 patch = None)
         by (unfold int_field; rewrite Hnone; [reflexivity | simpl; tauto]).
       assert (H4 : bool_field "autoPlayIfDrawnPlayable" patch = None)
         by (unfold bool_field; rewrite Hnone; [reflexivity | simpl; tauto]).
       assert (H5 : bool_field "allowIllegalWildDrawFour" patch = None)
         by (unfold bool_field; rewrite Hnone; [reflexivity | simpl; tauto]).
       assert (H6 : int_field "scoreLimit" 50 5000 patch = None)
         by (unfold int_field; rewrite Hnone; [reflexivity | simpl; tauto]).
       unfold update_settings. rewrite H1, H2, H3, H4, H5, H6.
       destruct w as [[] ?]. split; reflexivity. }
  all: settings_cases patch; simpl; auto.
Qed.

(** X12 — Validation of the values of a patch: scoreLimit outside [50,5000]
    and aiDelayMs outside [0,5000] are ignored; a value that is neither an
    int nor a bool (a string, null) is ignored for every key; aiEnabled given
    as an int is ignored, since only a bool passes [isinstance(_, bool)];
    but handSize given as the bool True passes [isinstance(_, int)] and sets
    [hand_size] to 1. *)
Theorem update_settings_value_checks (patch : Patch) (w : World) :
  let st := settings (game w) in
  let st' := settings (game (snd (update_settings patch w))) in
  (forall z, patch_get "scoreLimit" patch = Some (PyInt z) -> z < 50 \/ 5000 < z ->
     score_limit st' = score_limit st)
  /\ (forall z, patch_get "scoreLimit" patch = Some (PyInt z) -> 50 <= z <= 5000 ->
        score_limit st' = z)
  /\ (forall z, patch_get "aiDelayMs" patch = Some (PyInt z) -> z < 0 \/ 5000 < z ->
        ai_delay_ms st' = ai_delay_ms st)
  /\ (forall z, patch_get "aiEnabled" patch = Some (PyInt z) ->
        ai_enabled st' = ai_enabled st
        /\ players (game (snd (update_settings patch w))) = players (game w))
  /\ (forall v, v = PyNone \/ (exists x, v = PyStr x) ->
        (patch_get "handSize" patch = Some v -> hand_size st' = hand_size st)
        /\ (patch_get "scoreLimit" patch = Some v -> score_limit st' = score_limit st)
        /\ (patch_get "autoPlayIfDrawnPlayable" patch = Some v ->
            auto_play_if_drawn_playable st' = auto_play_if_drawn_playable st))
  /\ (patch_get "handSize" patch = Some (PyBool true) -> hand_size st' = 1).
Proof.
  cbv zeta.
  assert (Hint : forall k lo hi v,
            patch_get k patch = Some v -> int_field k lo hi patch
            = match as_int v with
              | Some z => if (lo <=? z) && (z <=? hi) then Some z else None
              | None => None
              end).
  { intros k lo hi v H. unfold int_field. now rewrite H. }
  assert (Hbool : forall k v, patch_get k patch = Some v ->
                              bool_field k patch = as_bool v).
  { intros k v H. unfold bool_field. now rewrite H. }
  repeat match goal with |- _ /\ _ => split end.
  - intros z Hg Hr. unfold update_settings.
    rewrite (Hint "scoreLimit" 50 5000 _ Hg). cbn [as_int].
    replace ((50 <=? z) && (z <=? 5000)) with false
      by (symmetry; apply andb_false_iff; rewrite Z.leb_gt, Z.leb_gt; lia).
    settings_cases patch; reflexivity.
  - intros z Hg Hr. unfold update_settings.
    rewrite (Hint "scoreLimit" 50 5000 _ Hg). cbn [as_int].
    replace ((50 <=? z) && (z <=? 5000)) with true
      by (symmetry; apply andb_true_iff; rewrite Z.leb_le, Z.leb_le; lia).
    settings_cases patch; reflexivity.
  - intros z Hg Hr. unfold update_settings.
    rewrite (Hint "aiDelayMs" 0 5000 _ Hg). cbn [as_int].
    replace ((0 <=? z) && (z <=? 5000)) with false
      by (symmetry; apply andb_false_iff; rewrite Z.leb_gt, Z.leb_gt; lia).
    settings_cases patch; reflexivity.
  - intros z Hg. unfold update_settings.
    rewrite (Hbool "aiEnabled" _ Hg). cbn [as_bool].
    settings_cases patch; split; reflexivity.
  - intros v Hv.
    assert (Hi : as_int v = None) by (destruct Hv as [->|[x ->]]; reflexivity).
    assert (Hb : as_bool v = None) by (destruct Hv as [->|[x ->]]; reflexivity).
    repeat split; intro Hg; unfold update_settings.
    + rewrite (Hint "handSize" 1 15 _ Hg), Hi. settings_cases patch; reflexivity.
    + rewrite (Hint "scoreLimit" 50 5000 _ Hg), Hi. settings_cases patch; reflexivity.
    + rewrite (Hbool "autoPlayIfDrawnPlayable" _ Hg), Hb.
      settings_cases patch; reflexivity.
  - intro Hg. unfold update_settings.
    rewrite (Hint "handSize" 1 15 _ Hg). cbn.
    settings_cases patch; reflexivity.
Qed.

(** ** Drawing *)

(** X13 — [_draw_cards_to_player] never fails: for any state, player position
    and count it returns exactly max(0, count) cards, appended in the order
    drawn to the hand at that position; the other hands and everything but
    the two piles stay as they were (an empty draw pile is refilled rather
    than raising); with a count of zero or less, nothing at all happens. *)
Theorem draw_returns_count (j : nat) (count : Z) (w : World) :
  exists new w',
    _draw_cards_to_player j count w = (Return new, w')
    /\ List.length new = Z.to_nat (Z.max 0 count)
    /\ players (game w') = list_alter (append_hand new) j (players (game w))
    /\ (forall i, i <> j -> nth_error (players (game w')) i = nth_error (players (game w)) i)
    /\ core (game w') = core (game w)
    /\ (count <= 0 -> new = [] /\ w' = w).
Proof.
  destruct (draw_cards_total j count w) as (new & w' & E & Hlen & Hc & Hp).
  exists new, w'.
  split; [exact E|]. split; [exact Hlen|]. split; [exact Hp|].
  split; [|split; [exact Hc|]].
  - intros i Hi. rewrite Hp. now apply list_alter_nth_other.
  - intro Hle. split.
    + destruct new; [reflexivity|]. simpl in Hlen. lia.
    + unfold _draw_cards_to_player in E.
      replace (Z.to_nat (Z.max 0 count)) with 0%nat in E by lia.
      cbn in E. now injection E as _ <-.
Qed.

(** X14 — Drawing from a draw pile that holds enough cards: the cards are
    popped from the end of the pile, one by one, into the hand; the discard
    pile, the random source and the identifier source are not used (no
    reshuffle, no new deck). *)
Theorem draw_pops_from_pile (j : nat) (w : World) (d new : list UnoCard) :
  draw_pile (game w) = d ++ rev new ->
  _draw_cards_to_player j (Z.of_nat (List.length new)) w
  = (Return new,
     mkWorld (set_players (list_alter (append_hand new) j (players (game w)))
                (set_draw_pile d (game w)))
             (env w)).
Proof.
  unfold _draw_cards_to_player.
  replace (Z.to_nat (Z.max 0 (Z.of_nat (List.length new)))) with (List.length new) by lia.
  change new with ([] ++ new) at 3.
  generalize (@nil UnoCard) as drawn.
  revert w d. induction new as [|c new IH]; intros w d drawn H; cbn [List.length draw_loop].
  - rewrite app_nil_r. cbn [rev] in H. rewrite ?app_nil_r in H.
    unfold ret. f_equal. destruct w as [s e]. cbn in *. f_equal.
    rewrite (list_alter_id _ _ _ append_hand_nil).
    destruct s. cbn in *. now subst.
  - cbn [rev] in H. rewrite app_assoc in H.
    rewrite (bind_Return _ _ _ (draw_one_pop w _ c H)).
    unfold modify_player. rewrite bind_modify. cbn [game env].
    rewrite (IH _ d (drawn ++ [c])) by reflexivity.
    rewrite <- app_assoc. f_equal. f_equal. cbn.
    rewrite list_alter_compose.
    rewrite (list_alter_ext _ (append_hand (c :: new)) j (players (game w)));
      [reflexivity|].
    intro p. apply (append_hand_app [c] new p).
Qed.

Lemma draw_pops_from_pile_witness :
  _draw_cards_to_player 1 2 (mkWorld two_player_state demo_env)
  = (Return [mkCard "f" yellow V2; mkCard "e" yellow V1],
     mkWorld (set_players
                (list_alter (append_hand [mkCard "f" yellow V2; mkCard "e" yellow V1]) 1
                   (players two_player_state))
                (set_draw_pile [] two_player_state))
             demo_env).
Proof.
  apply (@draw_pops_from_pile 1 (mkWorld two_player_state demo_env) []
           [mkCard "f" yellow V2; mkCard "e" yellow V1]).
  reflexivity.
Defined.

(** X15 — The last-resort deck: a draw for a player when the draw pile is
    empty and the discard pile holds at most one card builds a whole new
    deck; the draw succeeds, the discard pile is untouched, 108 fresh
    identifiers are consumed and the game now holds 108 cards more than
    before. *)
Theorem draw_from_nothing_adds_a_deck (j : nat) (w : World) :
  (j < List.length (players (game w)))%nat ->
  draw_pile (game w) = [] ->
  (List.length (discard_pile (game w)) <= 1)%nat ->
  exists c w',
    _draw_cards_to_player j 1 w = (Return [c], w')
    /\ discard_pile (game w') = discard_pile (game w)
    /\ List.length (draw_pile (game w')) = 107%nat
    /\ uuid_cursor w' = (uuid_cursor w + 108)%nat
    /\ total_cards (game w') = (total_cards (game w) + 108)%nat.
Proof.
  intros Hj Hd Hl.
  destruct (draw_one_rebuild w Hd Hl) as (c & d & g' & HP & E).
  exists c. eexists. split; [apply draw_cards_one; exact E|].
  apply Permutation_length in HP.
  rewrite <- (length_map face (fst (new_cards deck_faces (uuid (env w))))) in HP.
  rewrite new_cards_faces, deck_faces_length, length_app in HP. simpl in HP.
  cbn [game env]. split; [reflexivity|].
  split; [cbn; lia|]. split; [reflexivity|].
  unfold total_cards, all_cards, hands. cbn. rewrite Hd.
  rewrite !length_app.
  rewrite (Permutation_length (@hands_alter_append _ j c Hj)). simpl. lia.
Qed.

Definition exhausted_state : GameState :=
  mkState "g" playing 0 0
    [mkPlayer "p1" "You" false 0 [mkCard "a" red V1];
     mkPlayer "p2" "Player 2" false 0 [mkCard "b" blue V3]]
    0 1 [] [mkCard "t" red V5]
    (Some red) 0 false None None None default_settings.

Lemma draw_from_nothing_adds_a_deck_witness :
  exists c w',
    _draw_cards_to_player 0 1 (mkWorld exhausted_state demo_env) = (Return [c], w')
    /\ discard_pile (game w') = [mkCard "t" red V5]
    /\ List.length (draw_pile (game w')) = 107%nat
    /\ uuid_cursor w' = 108%nat
    /\ total_cards (game w') = 111%nat.
Proof.
  apply (@draw_from_nothing_adds_a_deck 0 (mkWorld exhausted_state demo_env)).
  - simpl. lia.
  - reflexivity.
  - simpl. lia.
Defined.

(** ** Starting discard *)

Lemma choice_valid_color g : In (fst (choice red VALID_COLORS g)) VALID_COLORS.
Proof.
  unfold choice, randbelow, next. cbn [fst List.length VALID_COLORS].
  pose proof (Nat.mod_upper_bound (feed g (cursor g)) 4 ltac:(lia)) as Hb.
  destruct (Nat.modulo (feed g (cursor g)) 4) as [|[|[|[|k]]]]; simpl; try tauto. lia.
Qed.

(** X16 — [_find_starting_discard] always returns: the card it returns is the
    new top of the discard pile, and the current colour it sets is one of the
    four colours, never [wild] and never unset: the card's own colour for a
    coloured card that is not wild-valued, a colour drawn from the random
    source otherwise. No identifier is generated unless the piles were
    exhausted. *)
Theorem starting_discard_sets_color (w : World) :
  exists c w' col,
    _find_starting_discard w = (Return c, w')
    /\ py_last (discard_pile (game w')) = Some c
    /\ current_color (game w') = Some col
    /\ In col VALID_COLORS
    /\ (is_wild_value (value c) = false -> is_valid_color (color c) = true ->
        col = color c /\ rng (env w') = rng (env (snd (_draw_one w))))
    /\ players (game w') = players (game w).
Proof.
  unfold _find_starting_discard.
  destruct (draw_one_total w) as (c & w1 & E1 & _ & Hp1).
  rewrite (bind_Return _ _ _ E1). rewrite E1. cbn [snd].
  unfold discard_append. rewrite bind_modify. cbn [game env].
  pose proof (choice_valid_color (rng (env w1))) as Hch.
  unfold rng_choice_color.
  destruct (is_wild_value (value c)) eqn:Ew;
    [|destruct (is_valid_color (color c)) eqn:Ev].
  - rewrite bind_assoc. unfold lift_env at 1. unfold bind at 1.
    cbv beta. cbn [game env].
    destruct (choice red VALID_COLORS (rng (env w1))) as [col g'] eqn:Ec.
    cbn [fst] in Hch.
    exists c. eexists. exists col. split; [reflexivity|]. cbn.
    rewrite py_last_app.
    split; [reflexivity|]. split; [reflexivity|]. split; [exact Hch|].
    split; [|exact Hp1].
    intros H1 H2; cbn in *; congruence.
  - exists c. eexists. exists (color c). split; [reflexivity|]. cbn.
    rewrite py_last_app.
    split; [reflexivity|]. split; [reflexivity|].
    split.
    { unfold is_valid_color in Ev. apply existsb_exists in Ev as (x & Hx & He).
      apply color_eqb_eq in He. now subst. }
    split; [|exact Hp1].
    intros _ _. split; reflexivity.
  - rewrite bind_assoc. unfold lift_env at 1. unfold bind at 1.
    cbv beta. cbn [game env].
    destruct (choice red VALID_COLORS (rng (env w1))) as [col g'] eqn:Ec.
    cbn [fst] in Hch.
    exists c. eexists. exists col. split; [reflexivity|]. cbn.
    rewrite py_last_app.
    split; [reflexivity|]. split; [reflexivity|]. split; [exact Hch|].
    split; [|exact Hp1].
    intros H1 H2; cbn in *; congruence.
Qed.

(** ** Where the automated-player driver stops *)

(** The game is over, or the player to act is human. *)
Definition awaits_human (s : GameState) : Prop :=
  status s <> playing
  \/ exists i cur,
       py_index (players s) (current_player_index s) = Some i
       /\ nth_error (players s) i = Some cur
       /\ is_ai cur = false.

(** Every normal return of [m] ends in a world satisfying [Q]. *)
Definition ensures {A} (m : M A) (Q : World -> Prop) : Prop :=
  forall w a w', m w = (Return a, w') -> Q w'.

Lemma ensures_bind {A B} (m : M A) (k : A -> M B) Q :
  (forall a, ensures (k a) Q) -> ensures (bind m k) Q.
Proof.
  intros Hk w b w' H. unfold bind in H.
  destruct (m w) as [[a|e|] w1]; try discriminate.
  exact (Hk a _ _ _ H).
Qed.

Lemma ensures_raise {A} e Q : ensures (@raise A e) Q.
Proof. intros w a w' H. discriminate. Qed.

Lemma resolve_true_not_playing w w1 :
  _resolve_round_if_won w = (Return true, w1) -> status (game w1) <> playing.
Proof.
  unfold _resolve_round_if_won. rewrite bind_get.
  destruct (find_index _ _) as [k|]; [|intro H; discriminate].
  unfold player_at. rewrite bind_assoc, bind_get.
  destruct (nth_error (players (game w)) k) as [winner|];
    [|intro H; discriminate].
  rewrite (bind_Return _ _ _ (from_option_Some _ winner w)).
  unfold modify_player. rewrite !bind_modify. cbn [game env].
  destruct (_ >=? _); rewrite !bind_assoc, !bind_modify; cbn [game env];
    intro H; injection H as <-; cbn; discriminate.
Qed.

Lemma touch_status w a w' : touch w = (Return a, w') -> status (game w') = status (game w).
Proof. rewrite touch_eq. intro H. injection H as _ <-. reflexivity. Qed.

(** The round check followed by its two branches. *)
Lemma ensures_round_check (k_cont : M unit) :
  ensures k_cont (fun w => awaits_human (game w)) ->
  ensures (bind _resolve_round_if_won (fun won => if (won : bool) then touch else k_cont))
          (fun w => awaits_human (game w)).
Proof.
  intros Hk w a w' H. unfold bind in H.
  destruct (_resolve_round_if_won w) as [[[|]|e|] w1] eqn:E; try discriminate.
  - left. rewrite (touch_status H). eapply resolve_true_not_playing; eauto.
  - exact (Hk _ _ _ H).
Qed.

Ltac ensures_step :=
  match goal with
  | |- ensures (bind _resolve_round_if_won _) _ => apply ensures_round_check
  | |- ensures (bind _ _) _ => apply ensures_bind; intros
  | |- ensures (if ?b then _ else _) _ => destruct b
  | |- ensures (match ?x with _ => _ end) _ => destruct x
  | |- ensures _ _ => assumption
  end.

(** X17 — Where the driver stops: whenever [_auto_resolve_ai_turns] returns,
    the game has left the playing status or the player at
    [current_player_index] is not automated. (It may also run out of fuel or
    raise: an automated player can keep the turn for ever.) *)
Theorem driver_stops_at_human (fuel : nat) (w w' : World) :
  _auto_resolve_ai_turns fuel w = (Return tt, w') -> awaits_human (game w').
Proof.
  revert w w'. induction fuel as [|fuel IH]; intros w w' H; [discriminate|].
  assert (IH' : ensures (_auto_resolve_ai_turns fuel) (fun w => awaits_human (game w))).
  { intros w0 [] w1 H0. exact (IH _ _ H0). }
  clear IH. cbn [_auto_resolve_ai_turns] in H. rewrite bind_get in H.
  destruct (status_eqb (status (game w)) playing) eqn:Es; cbn [negb] in H.
  2:{ injection H as <-. left. intro Hp. rewrite Hp in Es. discriminate. }
  destruct (py_index (players (game w)) (current_player_index (game w))) as [i|] eqn:Ei.
  2:{ discriminate. }
  rewrite (bind_Return _ _ _ (from_option_Some _ i w)) in H.
  destruct (nth_error (players (game w)) i) as [cur|] eqn:Ec.
  2:{ unfold player_at in H. rewrite bind_assoc, bind_get, Ec in H. discriminate. }
  rewrite (bind_Return _ _ _ (player_at_eq i w Ec)) in H.
  destruct (is_ai cur) eqn:Eai; cbn [negb] in H.
  2:{ injection H as <-. right. exists i, cur. auto. }
  revert H.
  match goal with |- ?m w = _ -> _ =>
    assert (Hm : ensures m (fun w => awaits_human (game w))); [|exact (Hm w tt w')]
  end.
  repeat ensures_step.
Qed.

Lemma driver_stops_at_human_witness :
  awaits_human (game (snd (_auto_resolve_ai_turns 3 (mkWorld two_player_state demo_env)))).
Proof.
  apply (@driver_stops_at_human 3 (mkWorld two_player_state demo_env)).
  vm_compute. reflexivity.
Defined.

(** ** Dealing *)

(** What identifies a player across a deal: everything but the hand. *)
Definition person (p : Player) : string * string * bool * Z :=
  (pid p, name p, is_ai p, score p).

Lemma map_list_alter {A B} (g : A -> B) (f : A -> A) (f' : B -> B) j (l : list A) :
  (forall a, g (f a) = f' (g a)) ->
  map g (list_alter f j l) = list_alter f' j (map g l).
Proof.
  intro H. revert j; induction l as [|a l IH]; intros [|j]; simpl; auto.
  - now rewrite H.
  - now rewrite IH.
Qed.

(** A draw with at most one discard leaves the discard pile alone. *)
Lemma draw_one_small_discard w :
  (List.length (discard_pile (game w)) <= 1)%nat ->
  exists c w',
    _draw_one w = (Return c, w')
    /\ core (game w') = core (game w)
    /\ players (game w') = players (game w)
    /\ discard_pile (game w') = discard_pile (game w).
Proof.
  intro Hl.
  destruct (draw_pile (game w)) as [|x t] eqn:Hd.
  - destruct (draw_one_rebuild w Hd Hl) as (c & d & g' & _ & E).
    exists c. eexists. split; [exact E|]. repeat split.
  - destruct (@exists_last _ (x :: t)) as (d & c & E); [discriminate|].
    exists c. eexists. split.
    + apply draw_one_pop. rewrite Hd. exact E.
    + repeat split.
Qed.

Lemma draw_loop_small_discard j k drawn w :
  (List.length (discard_pile (game w)) <= 1)%nat ->
  exists new w',
    draw_loop j k drawn w = (Return (drawn ++ new), w')
    /\ List.length new = k
    /\ core (game w') = core (game w)
    /\ players (game w') = list_alter (append_hand new) j (players (game w))
    /\ discard_pile (game w') = discard_pile (game w).
Proof.
  revert drawn w; induction k as [|k IH]; intros drawn w Hl; cbn [draw_loop].
  - exists [], w. rewrite app_nil_r. repeat split; auto.
    symmetry. apply list_alter_id, append_hand_nil.
  - destruct (draw_one_small_discard w Hl) as (c & w1 & E1 & Hc1 & Hp1 & Hd1).
    rewrite (bind_Return _ _ _ E1).
    unfold modify_player. rewrite bind_modify.
    destruct (IH (drawn ++ [c])
                 (mkWorld (set_players
                             (list_alter (fun p => set_hand (hand p ++ [c]) p) j
                                (players (game w1))) (game w1)) (env w1)))
      as (new & w' & E & Hlen & Hc & Hp & Hd).
    { cbn. rewrite Hd1. exact Hl. }
    exists (c :: new), w'.
    split. { rewrite E, <- app_assoc. reflexivity. }
    split. { simpl. now rewrite Hlen. }
    split. { rewrite Hc. exact Hc1. }
    split.
    { rewrite Hp. cbn [game players set_players].
      rewrite Hp1, list_alter_compose.
      apply list_alter_ext. intro p0. apply (append_hand_app [c] new p0). }
    rewrite Hd. cbn. exact Hd1.
Qed.

Definition hand_counts (ps : list Player) : list nat :=
  map (fun p => List.length (hand p)) ps.

(** Dealing to the positions [js], one after the other. *)
Lemma deal_spec js w :
  (List.length (discard_pile (game w)) <= 1)%nat ->
  exists w',
    deal js w = (Return tt, w')
    /\ core (game w') = core (game w)
    /\ discard_pile (game w') = discard_pile (game w)
    /\ map person (players (game w')) = map person (players (game w))
    /\ hand_counts (players (game w'))
       = fold_left
           (fun acc j =>
              list_alter
                (fun c => (c + Z.to_nat (Z.max 0 (hand_size (settings (game w)))))%nat)
                j acc)
           js (hand_counts (players (game w))).
Proof.
  revert w; induction js as [|j js IH]; intros w Hl; cbn [deal].
  - exists w. repeat split.
  - rewrite bind_get.
    destruct (draw_loop_small_discard j
                (Z.to_nat (Z.max 0 (hand_size (settings (game w))))) [] w Hl)
      as (new & w1 & E & Hlen & Hc & Hp & Hd).
    unfold _draw_cards_to_player. rewrite (bind_Return _ _ _ E).
    destruct (IH w1) as (w' & E' & Hc' & Hd' & Hper & Hcnt).
    { rewrite Hd. exact Hl. }
    destruct (core_fields Hc) as (_ & _ & _ & _ & Hset & _).
    exists w'. split; [exact E'|].
    split; [congruence|]. split; [congruence|].
    split.
    { rewrite Hper, Hp. unfold person.
      rewrite (map_list_alter _ _ (fun x => x)) by reflexivity.
      apply list_alter_id. reflexivity. }
    rewrite Hcnt, Hset. cbn [fold_left]. f_equal.
    unfold hand_counts. rewrite Hp.
    apply map_list_alter. intro p. unfold append_hand. cbn.
    rewrite length_app. lia.
Qed.

Lemma fold_alter_nth {A} (f : A -> A) js (l : list A) i :
  nth_error (fold_left (fun acc j => list_alter f j acc) js l) i
  = option_map (Nat.iter (count_occ Nat.eq_dec js i) f) (nth_error l i).
Proof.
  revert l; induction js as [|j js IH]; intro l; cbn [fold_left count_occ].
  - destruct (nth_error l i); reflexivity.
  - rewrite IH. destruct (Nat.eq_dec j i) as [->|Hne].
    + rewrite list_alter_nth. destruct (nth_error l i); cbn; [|reflexivity].
      f_equal. symmetry. apply Nat.iter_succ_r.
    + rewrite list_alter_nth_other by congruence. reflexivity.
Qed.

(** Dealing once to every position adds the same number to every count. *)
Lemma fold_alter_all (f : nat -> nat) (l : list nat) :
  fold_left (fun acc j => list_alter f j acc) (seq 0 (List.length l)) l = map f l.
Proof.
  apply nth_error_ext. intro i.
  rewrite fold_alter_nth, nth_error_map.
  destruct (nth_error l i) as [x|] eqn:E; [|reflexivity].
  assert (Hi : (i < List.length l)%nat) by (apply nth_error_Some; congruence).
  assert (Hc : count_occ Nat.eq_dec (seq 0 (List.length l)) i = 1%nat).
  { apply NoDup_count_occ'; [apply seq_NoDup | apply in_seq; lia]. }
  rewrite Hc. reflexivity.
Qed.

(** ** Starting a round *)

(** The penalty a starting (or played) card leaves pending. *)
Definition penalty (c : UnoCard) : Z :=
  match value c with
  | DRAW_TWO => 2
  | WILD_DRAW_FOUR => 4
  | _ => 0
  end.

(** The fields a round start leaves to its caller. *)
Definition frame_of_start (s : GameState) : string * Z * GameSettings * list (string * string * bool * Z) :=
  (gid s, created_at s, settings s, map person (players s)).

Lemma find_starting_discard_spec w :
  (List.length (discard_pile (game w)) <= 1)%nat ->
  exists c w' col,
    _find_starting_discard w = (Return c, w')
    /\ discard_pile (game w') = discard_pile (game w) ++ [c]
    /\ players (game w') = players (game w)
    /\ current_color (game w') = Some col
    /\ In col VALID_COLORS
    /\ frame_of_start (game w') = frame_of_start (game w)
    /\ current_player_index (game w') = current_player_index (game w)
    /\ direction (game w') = direction (game w)
    /\ pending_draw (game w') = pending_draw (game w)
    /\ winner_player_id (game w') = winner_player_id (game w)
    /\ must_play_or_pass (game w') = must_play_or_pass (game w)
    /\ last_drawn_card_id (game w') = last_drawn_card_id (game w).
Proof.
  intro Hl. unfold _find_starting_discard.
  destruct (draw_one_small_discard w Hl) as (c & w1 & E1 & Hc1 & Hp1 & Hd1).
  destruct (core_fields Hc1) as (Hs1 & Hi1 & Hdir1 & Hpd1 & Hset1 & Hcol1).
  assert (Hw1 : winner_player_id (game w1) = winner_player_id (game w))
    by exact (f_equal winner_player_id Hc1).
  assert (Hm1 : must_play_or_pass (game w1) = must_play_or_pass (game w))
    by exact (f_equal must_play_or_pass Hc1).
  assert (Hl1 : last_drawn_card_id (game w1) = last_drawn_card_id (game w))
    by exact (f_equal last_drawn_card_id Hc1).
  assert (Hg : gid (game w1) = gid (game w)) by exact (f_equal gid Hc1).
  assert (Hcr : created_at (game w1) = created_at (game w))
    by exact (f_equal created_at Hc1).
  rewrite (bind_Return _ _ _ E1).
  unfold discard_append. rewrite bind_modify. cbn [game env].
  pose proof (choice_valid_color (rng (env w1))) as Hch.
  assert (Hfr : forall x y,
            frame_of_start (set_current_color x (set_discard_pile y (game w1)))
            = frame_of_start (game w)).
  { intros x y. unfold frame_of_start. cbn. now rewrite Hg, Hcr, Hset1, Hp1. }
  unfold rng_choice_color.
  destruct (is_wild_value (value c)) eqn:Ew;
    [|destruct (is_valid_color (color c)) eqn:Ev].
  - rewrite bind_assoc. unfold lift_env at 1. unfold bind at 1.
    cbv beta. cbn [game env].
    destruct (choice red VALID_COLORS (rng (env w1))) as [col g'] eqn:Ec.
    cbn [fst] in Hch.
    exists c. eexists. exists col. split; [reflexivity|].
    cbn [game]. rewrite Hfr. cbn. rewrite Hd1. repeat split; auto.
  - exists c. eexists. exists (color c). split; [reflexivity|].
    cbn [game]. rewrite Hfr. cbn. rewrite Hd1. repeat split; auto.
    unfold is_valid_color in Ev. apply existsb_exists in Ev as (x & Hx & He).
    apply color_eqb_eq in He. now subst.
  - rewrite bind_assoc. unfold lift_env at 1. unfold bind at 1.
    cbv beta. cbn [game env].
    destruct (choice red VALID_COLORS (rng (env w1))) as [col g'] eqn:Ec.
    cbn [fst] in Hch.
    exists c. eexists. exists col. split; [reflexivity|].
    cbn [game]. rewrite Hfr. cbn. rewrite Hd1. repeat split; auto.
Qed.

Lemma apply_start_effect_spec first w :
  players (game w) <> [] ->
  0 <= current_player_index (game w) < Z.of_nat (List.length (players (game w))) ->
  exists w',
    apply_start_effect first w = (Return tt, w')
    /\ env w' = env w
    /\ players (game w') = players (game w)
    /\ draw_pile (game w') = draw_pile (game w)
    /\ discard_pile (game w') = discard_pile (game w)
    /\ current_color (game w') = current_color (game w)
    /\ status (game w') = status (game w)
    /\ winner_player_id (game w') = winner_player_id (game w)
    /\ must_play_or_pass (game w') = must_play_or_pass (game w)
    /\ last_drawn_card_id (game w') = last_drawn_card_id (game w)
    /\ message (game w') = message (game w)
    /\ frame_of_start (game w') = frame_of_start (game w)
    /\ pending_draw (game w') = pending_draw (game w) + penalty first
    /\ (direction (game w') = direction (game w)
        \/ direction (game w') = - direction (game w))
    /\ 0 <= current_player_index (game w') < Z.of_nat (List.length (players (game w))).
Proof.
  intros Hne Hidx. destruct w as [s e]. cbn [game env] in *.
  assert (Hn : 0 < Z.of_nat (List.length (players s))).
  { destruct (players s); [congruence | simpl List.length; lia]. }
  unfold apply_start_effect, penalty.
  destruct (value first) eqn:Ev; cbn [is_action_start];
    try (exists (mkWorld s e); cbn; repeat split; auto; lia);
    unfold _apply_action_effects_after_play; rewrite bind_assoc, bind_get, Ev.
  - (* SKIP *)
    msimp. cbn [snd fst flip_if]. msimp.
    rewrite advance_eq by exact Hne.
    eexists. split; [reflexivity|]. cbn.
    repeat split; auto; try lia; apply Z.mod_pos_bound; exact Hn.
  - (* REVERSE *)
    cbn [game]. destruct (Nat.eqb (List.length (players s)) 2);
      msimp; cbn [snd fst flip_if]; msimp;
      (rewrite advance_eq by exact Hne);
      (eexists; split; [reflexivity|]); cbn;
      repeat split; auto; try lia; apply Z.mod_pos_bound; exact Hn.
  - (* DRAW_TWO *)
    msimp. cbn [snd fst flip_if]. msimp.
    rewrite advance_eq by exact Hne.
    eexists. split; [reflexivity|]. cbn.
    repeat split; auto; try lia; apply Z.mod_pos_bound; exact Hn.
  - (* WILD_DRAW_FOUR *)
    msimp. cbn [snd fst flip_if]. msimp.
    rewrite advance_eq by exact Hne.
    eexists. split; [reflexivity|]. cbn.
    repeat split; auto; try lia; apply Z.mod_pos_bound; exact Hn.
Qed.

Lemma new_game_players_shape mode human_name cpu_name stg :
  let ps := new_game_players mode human_name cpu_name stg in
  ps <> []
  /\ (List.length ps <= 2)%nat
  /\ (exists rest, ps = mkPlayer "p1" human_name false 0 [] :: rest)
  /\ Forall (fun p => hand p = [] /\ score p = 0) ps
  /\ NoDup (map pid ps).
Proof.
  unfold new_game_players.
  destruct (_ || _); [destruct (ai_enabled stg)|destruct (_ || _)]; cbn;
    (split; [discriminate|]); (split; [lia|]); (split; [eexists; reflexivity|]);
    (split; [repeat constructor|]);
    apply nodupb_sound; reflexivity.
Qed.

Lemma bind_lift_env {A B} (f : Env -> A * Env) (k : A -> M B) w :
  bind (lift_env f) k w = k (fst (f (env w))) (mkWorld (game w) (snd (f (env w)))).
Proof. unfold bind, lift_env. destruct (f (env w)); reflexivity. Qed.

Lemma hand_counts_all n (l : list Player) (l' : list Player) :
  hand_counts l = map (fun _ => n) l' ->
  Forall (fun p => List.length (hand p) = n) l.
Proof.
  revert l'; induction l as [|p l IH]; intros [|p' l'] H; try discriminate H;
    constructor.
  - now injection H.
  - injection H as _ H. exact (IH _ H).
Qed.

Lemma hand_counts_length ps : List.length (hand_counts ps) = List.length ps.
Proof. apply length_map. Qed.

(** Dealing to every seat of players without cards. *)
Lemma deal_all_spec w :
  (List.length (discard_pile (game w)) <= 1)%nat ->
  Forall (fun p => hand p = []) (players (game w)) ->
  exists w',
    deal (seq 0 (List.length (players (game w)))) w = (Return tt, w')
    /\ core (game w') = core (game w)
    /\ discard_pile (game w') = discard_pile (game w)
    /\ map person (players (game w')) = map person (players (game w))
    /\ Forall (fun p => List.length (hand p)
                        = Z.to_nat (Z.max 0 (hand_size (settings (game w)))))
              (players (game w')).
Proof.
  intros Hl He.
  destruct (deal_spec (seq 0 (List.length (players (game w)))) w Hl)
    as (w' & E & Hc & Hd & Hp & Hcnt).
  exists w'. repeat split; auto.
  rewrite <- (hand_counts_length (players (game w))), fold_alter_all in Hcnt.
  apply hand_counts_all with (l' := players (game w)).
  rewrite Hcnt. unfold hand_counts. rewrite map_map.
  apply map_ext_in. intros p Hp'.
  rewrite Forall_forall in He. rewrite (He p Hp'). reflexivity.
Qed.

Lemma map_person_length (l l' : list Player) :
  map person l = map person l' -> List.length l = List.length l'.
Proof. intro H. apply (f_equal (@List.length _)) in H. now rewrite !length_map in H. Qed.

(** What [new_game] returns, for any mode, names, settings and environment. *)
Lemma new_game_spec (mode human_name cpu_name : string)
    (opt : option GameSettings) (e : Env) :
  let stg := match opt with Some s => s | None => default_settings end in
  let ps := new_game_players mode human_name cpu_name stg in
  exists st e' first col,
    new_game mode human_name cpu_name opt e = (Return st, e')
    /\ gid st = feed (uuid e) (cursor (uuid e))
    /\ settings st = stg
    /\ status st = playing
    /\ winner_player_id st = None
    /\ map person (players st) = map person ps
    /\ (exists rest, map person ps = ("p1", human_name, false, 0) :: rest
                     /\ (List.length rest <= 1)%nat)
    /\ Forall (fun p => List.length (hand p) = Z.to_nat (Z.max 0 (hand_size stg)))
              (players st)
    /\ discard_pile st = [first]
    /\ current_color st = Some col
    /\ In col VALID_COLORS
    /\ pending_draw st = penalty first
    /\ (direction st = 1 \/ direction st = -1)
    /\ 0 <= current_player_index st < Z.of_nat (List.length (players st))
    /\ message st = Some "Game started."
    /\ must_play_or_pass st = false.
Proof.
  intros stg ps.
  destruct (new_game_players_shape mode human_name cpu_name stg)
    as (Hne & Hlen & (rest & Hrest) & Hall & _).
  fold ps in Hne, Hlen, Hrest, Hall.
  unfold new_game. fold stg. fold ps.
  cbv beta iota zeta delta [next].
  set (e0 := with_clock _ _).
  set (st0 := mkState _ _ _ _ _ _ _ _ _ _ _ _ _ _ _ _).
  destruct (build_uno_deck_spec e0) as (deck & g' & Eb & _).
  cbn [players] .
  rewrite bind_lift_env. cbn [game env]. rewrite Eb. cbn [fst snd].
  rewrite !bind_modify. cbn [game env].
  set (w1 := mkWorld _ _).
  assert (Hp1 : players (game w1) = ps) by reflexivity.
  destruct (deal_all_spec w1) as (w2 & E2 & Hc2 & Hd2 & Hper2 & Hh2).
  { cbn. lia. }
  { rewrite Hp1. eapply Forall_impl; [|exact Hall]. now intros p [H _]. }
  rewrite Hp1 in E2 at 1.
  erewrite bind_Return by exact E2. cbv beta.
  destruct (find_starting_discard_spec w2) as
    (c & w3 & col & E3 & Hd3 & Hp3 & Hcol3 & Hin3 & Hfr3 & Hi3 & Hdir3 & Hpd3 & Hw3 & Hm3 & _).
  { rewrite Hd2. cbn. lia. }
  erewrite bind_Return by exact E3. cbv beta.
  destruct (core_fields Hc2) as (Hs2 & Hi2 & Hdir2 & Hpd2 & Hset2 & _).
  assert (Hlen2 : List.length (players (game w2)) = List.length ps).
  { rewrite <- Hp1. apply map_person_length. exact Hper2. }
  destruct (apply_start_effect_spec c w3) as
    (w4 & E4 & He4 & Hp4 & Hdr4 & Hdc4 & Hcol4 & Hs4 & Hw4 & Hm4 & _ & _ & Hfr4 & Hpd4
       & Hdir4 & Hi4).
  { rewrite Hp3. intro H. rewrite H in Hlen2. destruct ps; [congruence|discriminate]. }
  { rewrite Hi3, Hi2, Hp3, Hlen2. cbn. destruct ps; [congruence|]. cbn [List.length]. lia. }
  erewrite bind_Return by exact E4. cbv beta.
  rewrite bind_modify. unfold bind at 1. rewrite touch_eq. cbv beta iota.
  rewrite bind_modify. unfold get. cbn [game env]. cbv iota.
  eexists. eexists. exists c, col. split; [reflexivity|].
  assert (Hfr : frame_of_start (game w4) = frame_of_start st0).
  { assert (Hg2 : gid (game w2) = gid (game w1)) by exact (f_equal gid Hc2).
    assert (Hcr2 : created_at (game w2) = created_at (game w1))
      by exact (f_equal created_at Hc2).
    rewrite Hfr4, Hfr3. unfold frame_of_start.
    rewrite Hg2, Hcr2, Hset2, Hper2. reflexivity. }
  unfold frame_of_start in Hfr. injection Hfr as Hg Hcr Hst Hper.
  cbn [gid settings status winner_player_id players discard_pile current_color
       pending_draw direction current_player_index message must_play_or_pass
       set_message set_updated_at set_status].
  split; [exact Hg|]. split; [exact Hst|]. split; [reflexivity|].
  split. { rewrite Hw4, Hw3. exact (f_equal winner_player_id Hc2). }
  split; [exact Hper|].
  split. { exists (map person rest). rewrite Hrest. split; [reflexivity|].
           rewrite length_map. rewrite Hrest in Hlen. cbn in Hlen. lia. }
  split. { rewrite Hp4, Hp3. exact Hh2. }
  split. { rewrite Hdc4, Hd3, Hd2. reflexivity. }
  split. { rewrite Hcol4. exact Hcol3. }
  split; [exact Hin3|].
  split. { rewrite Hpd4, Hpd3, Hpd2. reflexivity. }
  split. { rewrite Hdir3, Hdir2 in Hdir4. cbn in Hdir4. destruct Hdir4; [left|right]; assumption. }
  split. { rewrite Hp4. exact Hi4. }
  split; [reflexivity|].
  rewrite Hm4, Hm3. exact (f_equal must_play_or_pass Hc2).
Qed.

(** X18 — [new_game] always returns a game, whatever the mode string, the
    names, the settings and the random source: it is in status [playing] with
    no winner, its id is the next [uuid4] value, its players are the ones the
    mode and [ai_enabled] select (the first is the human ["p1"], there are at
    most two) with score 0, every hand holds [max 0 hand_size] cards, the
    discard pile is the single starting card, the current colour is one of the
    four colours, the pending draw is the starting card's penalty (2 for
    DRAW_TWO, 4 for WILD_DRAW_FOUR, else 0), the direction is 1 or -1, the current
    player index is a valid position and no play-or-pass obligation is set. *)
Theorem new_game_starts_round (mode human_name cpu_name : string)
    (opt : option GameSettings) (e : Env) :
  let stg := match opt with Some s => s | None => default_settings end in
  let ps := new_game_players mode human_name cpu_name stg in
  exists st e' first col,
    new_game mode human_name cpu_name opt e = (Return st, e')
    /\ gid st = feed (uuid e) (cursor (uuid e))
    /\ settings st = stg
    /\ status st = playing
    /\ winner_player_id st = None
    /\ map person (players st) = map person ps
    /\ (exists rest, map person ps = ("p1", human_name, false, 0) :: rest
                     /\ (List.length rest <= 1)%nat)
    /\ Forall (fun p => List.length (hand p) = Z.to_nat (Z.max 0 (hand_size stg)))
              (players st)
    /\ discard_pile st = [first]
    /\ current_color st = Some col
    /\ In col VALID_COLORS
    /\ pending_draw st = penalty first
    /\ (direction st = 1 \/ direction st = -1)
    /\ 0 <= current_player_index st < Z.of_nat (List.length (players st))
    /\ message st = Some "Game started."
    /\ must_play_or_pass st = false.
Proof. exact (new_game_spec mode human_name cpu_name opt e). Qed.

Lemma map_person_clear ps : map person (map (set_hand []) ps) = map person ps.
Proof. rewrite map_map. apply map_ext. intro p. reflexivity. Qed.

(** What [restart_round] does to a game with players. *)
Lemma restart_round_spec (w : World) :
  players (game w) <> [] ->
  exists w' first col,
    restart_round w = (Return tt, w')
    /\ frame_of_start (game w') = frame_of_start (game w)
    /\ Forall (fun p => List.length (hand p)
                        = Z.to_nat (Z.max 0 (hand_size (settings (game w)))))
              (players (game w'))
    /\ discard_pile (game w') = [first]
    /\ current_color (game w') = Some col
    /\ In col VALID_COLORS
    /\ pending_draw (game w') = penalty first
    /\ status (game w') = playing
    /\ winner_player_id (game w') = None
    /\ must_play_or_pass (game w') = false
    /\ last_drawn_card_id (game w') = None
    /\ (direction (game w') = 1 \/ direction (game w') = -1)
    /\ 0 <= current_player_index (game w') < Z.of_nat (List.length (players (game w)))
    /\ message (game w') = Some "Round restarted.".
Proof.
  intro Hne. unfold restart_round.
  rewrite bind_modify, bind_lift_env. cbn [game env].
  destruct (build_uno_deck_spec (env w)) as (deck & g' & Eb & _).
  rewrite Eb. cbn [fst snd].
  rewrite !bind_modify, bind_get. cbn [game env].
  set (w1 := mkWorld _ _).
  assert (Hp1 : players (game w1) = map (set_hand []) (players (game w)))
    by reflexivity.
  destruct (deal_all_spec w1) as (w2 & E2 & Hc2 & Hd2 & Hper2 & Hh2).
  { cbn. lia. }
  { rewrite Hp1. apply Forall_forall. intros p Hp.
    apply in_map_iff in Hp as (q & <- & _). reflexivity. }
  change (players (set_discard_pile [] _)) with (players (game w1)).
  erewrite bind_Return by exact E2. cbv beta.
  destruct (find_starting_discard_spec w2) as
    (c & w3 & col & E3 & Hd3 & Hp3 & Hcol3 & Hin3 & Hfr3 & _).
  { rewrite Hd2. cbn. lia. }
  erewrite bind_Return by exact E3. cbv beta.
  rewrite !bind_modify. cbn [game env].
  unfold bind at 1. rewrite touch_eq. cbv beta iota.
  rewrite bind_modify. cbn [game env].
  set (w4 := mkWorld _ _).
  assert (Hlen : List.length (players (game w3)) = List.length (players (game w))).
  { rewrite Hp3, (map_person_length _ _ Hper2), Hp1. apply length_map. }
  destruct (apply_start_effect_spec c w4) as
    (w5 & E5 & He5 & Hp5 & Hdr5 & Hdc5 & Hcol5 & Hs5 & Hw5 & Hm5 & Hl5 & Hmsg5 & Hfr5
       & Hpd5 & Hdir5 & Hi5).
  { cbn. intro H. rewrite H in Hlen. destruct (players (game w)); [congruence|discriminate]. }
  { cbn. rewrite Hlen. destruct (players (game w)); [congruence|]. cbn [List.length]. lia. }
  exists w5, c, col. split; [exact E5|].
  destruct (core_fields Hc2) as (_ & _ & _ & _ & Hset2 & _).
  split.
  { rewrite Hfr5. unfold w4. cbn [game]. unfold frame_of_start in *. cbn.
    injection Hfr3 as Hg3 Hcr3 Hst3 Hper3.
    assert (Hg2 : gid (game w2) = gid (game w1)) by exact (f_equal gid Hc2).
    assert (Hcr2 : created_at (game w2) = created_at (game w1))
      by exact (f_equal created_at Hc2).
    rewrite Hg3, Hcr3, Hst3, Hper3, Hg2, Hcr2, Hset2, Hper2, Hp1, map_person_clear.
    reflexivity. }
  split. { rewrite Hp5. unfold w4. cbn. rewrite Hp3. exact Hh2. }
  split. { rewrite Hdc5. unfold w4. cbn. rewrite Hd3, Hd2. reflexivity. }
  split. { rewrite Hcol5. unfold w4. cbn. exact Hcol3. }
  split; [exact Hin3|].
  split. { rewrite Hpd5. reflexivity. }
  split. { rewrite Hs5. reflexivity. }
  split. { rewrite Hw5. reflexivity. }
  split. { rewrite Hm5. reflexivity. }
  split. { rewrite Hl5. reflexivity. }
  split. { exact Hdir5. }
  split. { rewrite <- Hlen. exact Hi5. }
  rewrite Hmsg5. reflexivity.
Qed.

(** X19 — [restart_round] on a game with at least one player always returns
    and starts a fresh round for the same people: ids, names, automation flags
    and scores are kept, as are the game id and the settings; every hand is
    replaced by [max 0 hand_size] cards, the discard pile is the single
    starting card, the current colour is one of the four colours, the pending
    draw is the starting card's penalty, the winner and the drawn-card marker
    are cleared, the status is [playing] and the turn is at a valid position,
    whatever the state of the round before. *)
Theorem restart_round_redeals (w : World) :
  players (game w) <> [] ->
  exists w' first col,
    restart_round w = (Return tt, w')
    /\ frame_of_start (game w') = frame_of_start (game w)
    /\ Forall (fun p => List.length (hand p)
                        = Z.to_nat (Z.max 0 (hand_size (settings (game w)))))
              (players (game w'))
    /\ discard_pile (game w') = [first]
    /\ current_color (game w') = Some col
    /\ In col VALID_COLORS
    /\ pending_draw (game w') = penalty first
    /\ status (game w') = playing
    /\ winner_player_id (game w') = None
    /\ must_play_or_pass (game w') = false
    /\ last_drawn_card_id (game w') = None
    /\ (direction (game w') = 1 \/ direction (game w') = -1)
    /\ 0 <= current_player_index (game w') < Z.of_nat (List.length (players (game w)))
    /\ message (game w') = Some "Round restarted.".
Proof. exact (@restart_round_spec w). Qed.

Lemma restart_round_redeals_witness :
  players (game (mkWorld two_player_state demo_env)) <> []
  /\ exists w' first col,
       restart_round (mkWorld two_player_state demo_env) = (Return tt, w')
       /\ frame_of_start (game w') = frame_of_start two_player_state
       /\ Forall (fun p => List.length (hand p)
                           = Z.to_nat (Z.max 0 (hand_size (settings two_player_state))))
                 (players (game w'))
       /\ discard_pile (game w') = [first]
       /\ current_color (game w') = Some col
       /\ In col VALID_COLORS
       /\ pending_draw (game w') = penalty first
       /\ status (game w') = playing
       /\ winner_player_id (game w') = None
       /\ must_play_or_pass (game w') = false
       /\ last_drawn_card_id (game w') = None
       /\ (direction (game w') = 1 \/ direction (game w') = -1)
       /\ 0 <= current_player_index (game w')
          < Z.of_nat (List.length (players two_player_state))
       /\ message (game w') = Some "Round restarted.".
Proof.
  split; [intro H; discriminate H|].
  apply (restart_round_redeals (mkWorld two_player_state demo_env)).
  intro H; discriminate H.
Defined.

(** ** Card conservation across the operations *)

Lemma remove_by_id_none cid h :
  ~ In cid (map card_id h) -> remove_by_id cid h = h.
Proof.
  unfold remove_by_id. induction h as [|a h IH]; intro H; cbn; [reflexivity|].
  destruct (String.eqb (card_id a) cid) eqn:E; cbn.
  - apply String.eqb_eq in E. exfalso. apply H. now left.
  - rewrite IH; [reflexivity|]. intro Hin. apply H. now right.
Qed.

(** With distinct ids, filtering a card out by its id removes that card only. *)
Lemma remove_by_id_perm c h :
  NoDup (map card_id h) -> In c h ->
  Permutation (c :: remove_by_id (card_id c) h) h.
Proof.
  induction h as [|a h IH]; intros Hnd Hin; [destruct Hin|].
  cbn [map] in Hnd. apply NoDup_cons_iff in Hnd as [Hna Hnd].
  destruct Hin as [->|Hin].
  - unfold remove_by_id. cbn [filter]. rewrite String.eqb_refl. cbn [negb].
    fold (remove_by_id (card_id c) h). now rewrite remove_by_id_none.
  - unfold remove_by_id. cbn [filter].
    destruct (String.eqb (card_id a) (card_id c)) eqn:E.
    + apply String.eqb_eq in E. exfalso. apply Hna. rewrite E. now apply in_map.
    + cbn [negb]. fold (remove_by_id (card_id c) h).
      rewrite perm_swap. apply perm_skip. now apply IH.
Qed.

Lemma NoDup_app_l {A} (l l' : list A) : NoDup (l ++ l') -> NoDup l.
Proof. apply NoDup_app_remove_r. Qed.

Lemma NoDup_app_r {A} (l l' : list A) : NoDup (l ++ l') -> NoDup l'.
Proof. apply NoDup_app_remove_l. Qed.

Lemma hands_alter_remove ps j p c :
  nth_error ps j = Some p -> In c (hand p) ->
  NoDup (map card_id (flat_map hand ps)) ->
  Permutation
    (c :: flat_map hand
            (list_alter (fun q => set_hand (remove_by_id (card_id c) (hand q)) q) j ps))
    (flat_map hand ps).
Proof.
  revert j; induction ps as [|a ps IH]; intros [|j] Hn Hin Hnd; cbn in Hn;
    try discriminate Hn.
  - injection Hn as ->. cbn [list_alter flat_map hand set_hand].
    cbn [flat_map] in Hnd. rewrite map_app in Hnd. apply NoDup_app_l in Hnd.
    rewrite app_comm_cons. apply Permutation_app_tail.
    now apply remove_by_id_perm.
  - cbn [list_alter flat_map]. cbn [flat_map] in Hnd.
    rewrite map_app in Hnd. apply NoDup_app_r in Hnd.
    rewrite Permutation_middle. apply Permutation_app_head. now apply IH.
Qed.

(** Taking a card out of the hand that holds it and putting it on the
    discard pile, as [play_card], [draw_card] and the driver do. *)
Lemma follows_move n j p c w {A} (k : M A) :
  nth_error (players (game w)) j = Some p -> In c (hand p) ->
  conserves n k ->
  follows n w
    (snd ((modify_player j (fun q => set_hand (remove_by_id (card_id c) (hand q)) q) ;;
           discard_append c ;; k) w)).
Proof.
  intros Hn Hin Hk.
  unfold modify_player, discard_append. rewrite !bind_modify. cbn [game env].
  eapply follows_trans; [|apply Hk].
  intro Hlen. cbn. split. { rewrite list_alter_length. exact Hlen. }
  split. { unfold uuid_cursor. cbn. lia. }
  intros Hd _. unfold all_cards, hands. cbn.
  apply Permutation_app_head. rewrite <- app_assoc. apply Permutation_app_head.
  cbn. apply hands_alter_remove with (p := p); auto.
  unfold ids_distinct, all_cards, hands in Hd.
  rewrite !map_app in Hd. apply NoDup_app_r, NoDup_app_r in Hd. exact Hd.
Qed.

Ltac conserve :=
  repeat first
    [ assumption
    | apply conserves_ret | apply conserves_raise | apply conserves_get
    | apply conserves_touch | apply conserves_advance | apply conserves_flip_if
    | apply conserves_effects | apply conserves_resolve | apply conserves_player_at
    | apply conserves_from_option
    | apply conserves_draw_cards; assumption
    | apply conserves_modify; [reflexivity | reflexivity]
    | match goal with
      | |- conserves _ (if ?b then _ else _) => destruct b
      | |- conserves _ (match ?o with Some _ => _ | None => _ end) => destruct o
      end
    | apply conserves_bind; [| intro] ].

Lemma ai_choose_play_in s p c col : _ai_choose_play s p = (Some c, col) -> In c (hand p).
Proof.
  unfold _ai_choose_play. destruct (py_last (discard_pile s)) as [top|]; [|discriminate].
  destruct (sort_by_prio _) as [|x rest] eqn:E; [discriminate|].
  intro H. injection H as -> _.
  apply sort_by_prio_head in E as [Hin _]. apply filter_In in Hin. tauto.
Qed.

Lemma conserves_driver n fuel : conserves n (_auto_resolve_ai_turns fuel).
Proof.
  induction fuel as [|fuel IH]; [intro w; apply follows_refl|].
  intro w. cbn [_auto_resolve_ai_turns]. rewrite bind_get.
  destruct (negb (status_eqb (status (game w)) playing)); [apply follows_refl|].
  destruct (py_index (players (game w)) (current_player_index (game w))) as [i|];
    [|apply follows_refl].
  cbn [from_option]. rewrite bind_ret.
  unfold player_at at 1. rewrite bind_assoc, bind_get.
  destruct (nth_error (players (game w)) i) as [cur|] eqn:Ecur;
    [|apply follows_refl].
  cbn [from_option]. rewrite bind_ret.
  destruct (negb (is_ai cur)); [apply follows_refl|].
  assert (Hlt : List.length (players (game w)) = n -> (i < n)%nat).
  { intros <-. apply nth_error_Some. congruence. }
  destruct (pending_draw (game w) >? 0).
  { intro Hn. specialize (Hlt Hn). revert Hn.
    refine ((_ : conserves n _) w). conserve. }
  destruct (_ai_choose_play (game w) cur) as [[chosen|] wc] eqn:Ech.
  { apply follows_move with (p := cur); [exact Ecur| |conserve].
    eapply ai_choose_play_in. exact Ech. }
  destruct (draw_cards_total i 1 w) as (new & w1 & E1 & Hlen1 & Hc1 & Hp1).
  rewrite (bind_Return _ _ _ E1).
  eapply follows_trans.
  { intro Hn. specialize (Hlt Hn). revert Hn.
    pose proof (@conserves_draw_cards n i 1 Hlt w) as H. rewrite E1 in H. exact H. }
  destruct new as [|drawn new]; [apply follows_refl|].
  cbn [hd_error from_option]. rewrite bind_ret, bind_get.
  assert (Hcur1 : nth_error (players (game w1)) i
                  = Some (append_hand (drawn :: new) cur)).
  { rewrite Hp1, list_alter_nth, Ecur. reflexivity. }
  assert (Hin1 : In drawn (hand (append_hand (drawn :: new) cur))).
  { cbn. apply in_or_app. right. now left. }
  destruct (auto_play_if_drawn_playable (settings (game w1))).
  - rewrite bind_assoc.
    destruct (py_last (discard_pile (game w1))) as [top|]; [|apply follows_refl].
    cbn [from_option]. rewrite !bind_ret.
    destruct (can_play_on drawn top (current_color (game w1))).
    + apply follows_move with (p := append_hand (drawn :: new) cur); auto. conserve.
    + refine ((_ : conserves n _) w1). conserve.
  - rewrite bind_ret. refine ((_ : conserves n _) w1). conserve.
Qed.

Lemma conserves_readonly n {A} (m : M A) : readonly m -> conserves n m.
Proof.
  intros H w. destruct (m w) as [o w'] eqn:E. rewrite (H _ _ _ E).
  apply follows_refl.
Qed.

(** What follows a passed turn check works on a valid position. *)
Lemma conserves_after_turn_check n {A} p (k : nat -> M A) :
  (forall j, (j < n)%nat -> conserves n (k j)) ->
  conserves n (bind (_require_turn p) k).
Proof.
  intro Hk. apply conserves_bind_post with (Q := fun j => (j < n)%nat).
  - intros w j w' Hn E. apply require_turn_inv in E as [_ E].
    apply find_index_Some in E as (x & _ & _ & Hl). lia.
  - apply conserves_readonly, readonly_require_turn.
  - exact Hk.
Qed.

Lemma conserves_pass_turn n fuel p : conserves n (pass_turn fuel p).
Proof.
  pose proof (@conserves_driver n fuel) as Hd.
  unfold pass_turn. apply conserves_after_turn_check. intros j Hj. conserve.
Qed.

(** Computations that leave the list of players alone. *)
Definition keeps_players {A} (m : M A) : Prop :=
  forall w, players (game (snd (m w))) = players (game w).

Lemma keeps_players_ret {A} (a : A) : keeps_players (ret a).
Proof. intro w. reflexivity. Qed.

Lemma keeps_players_raise {A} e : keeps_players (@raise A e).
Proof. intro w. reflexivity. Qed.

Lemma keeps_players_modify f :
  (forall s, players (f s) = players s) -> keeps_players (modify f).
Proof. intros H w. cbn. apply H. Qed.

Lemma keeps_players_bind {A B} (m : M A) (k : A -> M B) :
  keeps_players m -> (forall a, keeps_players (k a)) -> keeps_players (bind m k).
Proof.
  intros Hm Hk w. unfold bind. specialize (Hm w).
  destruct (m w) as [[a|e|] w1]; cbn [snd] in *; auto.
  now rewrite Hk.
Qed.

Ltac keep :=
  repeat first
    [ apply keeps_players_ret | apply keeps_players_raise
    | apply keeps_players_modify; reflexivity
    | match goal with
      | |- keeps_players (if ?b then _ else _) => destruct b
      | |- keeps_players (match ?o with Some _ => _ | None => _ end) => destruct o
      end
    | apply keeps_players_bind; [| intro] ].

(** A card moved from a hand to the discard pile after a step that keeps the
    players. *)
Lemma follows_move_after n j p c w {A B} (m : M A) (k : M B) :
  conserves n m -> keeps_players m ->
  nth_error (players (game w)) j = Some p -> In c (hand p) ->
  conserves n k ->
  follows n w
    (snd ((m ;;
           modify_player j (fun q => set_hand (remove_by_id (card_id c) (hand q)) q) ;;
           discard_append c ;; k) w)).
Proof.
  intros Hm Hkp Hn Hin Hk. unfold bind at 1.
  specialize (Hm w). specialize (Hkp w).
  destruct (m w) as [[a|e|] w1]; cbn [snd] in *; auto.
  eapply follows_trans; [exact Hm|].
  apply follows_move with (p := p); auto. now rewrite Hkp.
Qed.

Lemma conserves_play_card n fuel p cid col : conserves n (play_card fuel p cid col).
Proof.
  pose proof (@conserves_driver n fuel) as Hd.
  unfold play_card. apply conserves_after_turn_check. intros j Hj w.
  rewrite bind_get.
  destruct (pending_draw (game w) >? 0); [apply follows_refl|].
  destruct (py_last (discard_pile (game w))) as [top|]; [|apply follows_refl].
  unfold player_at at 1. rewrite bind_assoc, bind_get.
  destruct (nth_error (players (game w)) j) as [q|] eqn:Eq; [|apply follows_refl].
  cbn [from_option]. rewrite bind_ret.
  destruct (find _ (hand q)) as [card|] eqn:Ef; [|apply follows_refl].
  apply find_some in Ef as [Hin _].
  destruct (negb (can_play_on card top (current_color (game w))));
    [apply follows_refl|].
  apply follows_move_after with (p := q); auto.
  - cbv zeta. conserve.
  - cbv zeta. keep.
  - conserve.
Qed.

Lemma conserves_draw_card n fuel p : conserves n (draw_card fuel p).
Proof.
  pose proof (@conserves_driver n fuel) as Hd.
  unfold draw_card. apply conserves_after_turn_check. intros j Hj w.
  rewrite bind_get.
  destruct (pending_draw (game w) >? 0).
  { refine ((_ : conserves n _) w). conserve. }
  destruct (draw_cards_total j 1 w) as (new & w1 & E1 & Hlen1 & Hc1 & Hp1).
  rewrite (bind_Return _ _ _ E1).
  eapply follows_trans.
  { pose proof (@conserves_draw_cards n j 1 Hj w) as H. rewrite E1 in H. exact H. }
  destruct new as [|drawn new]; [apply follows_refl|].
  cbn [hd_error from_option]. rewrite bind_ret, bind_modify, bind_get.
  cbn [game env].
  eapply follows_trans.
  { apply follows_same_cards with
      (w' := mkWorld (set_last_drawn_card_id (Some (card_id drawn)) (game w1)) (env w1));
      reflexivity. }
  set (w2 := mkWorld _ _).
  change (discard_pile (set_last_drawn_card_id _ _)) with (discard_pile (game w2)).
  change (settings (set_last_drawn_card_id _ _)) with (settings (game w2)).
  change (current_color (set_last_drawn_card_id _ _)) with (current_color (game w2)).
  destruct (py_last (discard_pile (game w2))) as [top|]; [|apply follows_refl].
  cbn [from_option]. rewrite bind_ret.
  destruct (auto_play_if_drawn_playable (settings (game w2))
            && can_play_on drawn top (current_color (game w2))).
  - intro Hn.
    destruct (nth_error (players (game w)) j) as [q|] eqn:Eq.
    2:{ apply nth_error_None in Eq. 
        assert (List.length (players (game w)) = n).
        { rewrite <- Hn. unfold w2. cbn. rewrite Hp1, list_alter_length. reflexivity. }
        lia. }
    revert Hn.
    apply follows_move with (p := append_hand (drawn :: new) q).
    + unfold w2. cbn. rewrite Hp1, list_alter_nth, Eq. reflexivity.
    + cbn. apply in_or_app. right. now left.
    + conserve.
  - refine ((_ : conserves n _) w2). conserve.
Qed.

Lemma hands_set_ai_beyond_first b ps :
  flat_map hand (set_ai_beyond_first b ps) = flat_map hand ps.
Proof.
  destruct ps as [|p ps]; cbn; [reflexivity|]. f_equal.
  induction ps as [|q ps IH]; cbn; [reflexivity|]. now rewrite IH.
Qed.

Lemma length_set_ai_beyond_first b ps :
  List.length (set_ai_beyond_first b ps) = List.length ps.
Proof. destruct ps; cbn; [reflexivity|]. now rewrite length_map. Qed.

Lemma conserves_update_settings n patch : conserves n (update_settings patch).
Proof.
  unfold update_settings, when_some, modify_settings.
  repeat (apply conserves_bind; [|intro]);
    repeat match goal with
           | |- conserves _ (match ?o with Some _ => _ | None => _ end) => destruct o
           end;
    repeat (apply conserves_bind; [|intro]);
    try apply conserves_ret; try apply conserves_touch;
    try (apply conserves_modify; reflexivity).
  apply conserves_modify; intro s.
  - unfold all_cards, hands. cbn. now rewrite hands_set_ai_beyond_first.
  - cbn. apply length_set_ai_beyond_first.
Qed.

Lemma conserves_apply_start_effect n first : conserves n (apply_start_effect first).
Proof. unfold apply_start_effect. conserve. Qed.

(** [restart_round] builds a deck: it takes 108 identifiers at least. *)
Lemma restart_round_grows n w :
  List.length (players (game w)) = n ->
  List.length (players (game (snd (restart_round w)))) = n
  /\ (uuid_cursor w + 108 <= uuid_cursor (snd (restart_round w)))%nat.
Proof.
  intro Hn. unfold restart_round.
  rewrite bind_modify, bind_lift_env. cbn [game env].
  destruct (build_uno_deck_spec (env w)) as (deck & g' & Eb & _).
  rewrite Eb. cbn [fst snd].
  rewrite !bind_modify. cbn [game env].
  set (w1 := mkWorld _ _).
  assert (Hn1 : List.length (players (game w1)) = n).
  { unfold w1. cbn. now rewrite length_map. }
  assert (Hc1 : uuid_cursor w1 = (uuid_cursor w + 108)%nat) by reflexivity.
  match goal with |- context [snd (?m w1)] =>
    assert (H : conserves n m)
  end.
  { apply conserves_bind_post with (Q := fun s => List.length (players s) = n).
    - intros w0 s w0' Hl E. injection E as <- _. exact Hl.
    - apply conserves_get.
    - intros s Hs. apply conserves_bind.
      + apply conserves_deal. apply Forall_forall. intros j Hj.
        apply in_seq in Hj. lia.
      + intros _.
        apply conserves_bind; [apply conserves_find_starting_discard|].
        intro first.
        repeat (apply conserves_bind;
                [first [apply conserves_modify; reflexivity | apply conserves_touch]
                |intros _]).
        apply conserves_apply_start_effect. }
  destruct (H w1 Hn1) as (Hl & Hc & _). split; [exact Hl|]. lia.
Qed.

Lemma conserves_restart_round n : conserves n restart_round.
Proof.
  intros w Hn. destruct (restart_round_grows w Hn) as [Hl Hc].
  split; [exact Hl|]. split; [lia|]. intros _ He. lia.
Qed.

Lemma conserves_run_action n fuel a : conserves n (run_action fuel a).
Proof.
  destruct a; cbn [run_action].
  - apply conserves_play_card.
  - apply conserves_bind; [apply conserves_draw_card | intro; apply conserves_ret].
  - apply conserves_pass_turn.
  - apply conserves_update_settings.
  - apply conserves_restart_round.
Qed.

Lemma follows_run_script n fuel acts w : follows n w (run_script fuel acts w).
Proof.
  revert w; induction acts as [|a acts IH]; intro w; cbn [run_script].
  - apply follows_refl.
  - eapply follows_trans; [apply conserves_run_action | apply IH].
Qed.

(** X20 — Card conservation. Over any sequence of requests (plays, draws,
    passes, settings patches, restarts; accepted or refused, with any fuel for
    the driver) the number of players stays the same and the source of card
    identifiers never moves back; and as long as no new deck was built on
    the way (the identifier source stands where it stood), the cards in the
    draw pile, the discard pile and the hands together are exactly the cards
    that were there before, provided their ids were distinct: none is lost,
    duplicated or invented, so their number is unchanged. *)
Theorem script_conserves_cards (fuel : nat) (acts : list Action) (w : World) :
  let w' := run_script fuel acts w in
  List.length (players (game w')) = List.length (players (game w))
  /\ (uuid_cursor w <= uuid_cursor w')%nat
  /\ (ids_distinct (game w) -> uuid_cursor w' = uuid_cursor w ->
      Permutation (all_cards (game w')) (all_cards (game w))
      /\ total_cards (game w') = total_cards (game w)
      /\ ids_distinct (game w')).
Proof.
  intro w'.
  destruct (@follows_run_script (List.length (players (game w))) fuel acts w eq_refl)
    as (Hl & Hc & HP).
  split; [exact Hl|]. split; [exact Hc|].
  intros Hd He. specialize (HP Hd He).
  split; [exact HP|]. split.
  - unfold total_cards. apply Permutation_length. exact HP.
  - eapply ids_distinct_perm; eauto.
Qed.

Lemma script_conserves_cards_witness :
  let w := mkWorld two_player_state demo_env in
  let w' := run_script 5 [APass "p2"; APlay "p1" "a" None; APatch []] w in
  ids_distinct (game w) /\ uuid_cursor w' = uuid_cursor w
  /\ Permutation (all_cards (game w')) (all_cards (game w))
  /\ total_cards (game w') = total_cards (game w)
  /\ ids_distinct (game w').
Proof.
  intros w w'.
  assert (Hd : ids_distinct (game w)) by (apply nodupb_sound; reflexivity).
  assert (He : uuid_cursor w' = uuid_cursor w) by reflexivity.
  split; [exact Hd|]. split; [exact He|].
  exact (proj2 (proj2 (script_conserves_cards 5
           [APass "p2"; APlay "p1" "a" None; APatch []] w)) Hd He).
Defined.

(** ** What every state of a session satisfies *)

(** The turn state makes sense: a direction of 1 or -1, the current player
    index at a position of the player list, no negative penalty, no
    play-or-pass obligation, a card on the discard pile and one of the four
    colours as the current colour. *)
Definition well_formed (s : GameState) : Prop :=
  (direction s = 1 \/ direction s = -1)
  /\ 0 <= current_player_index s < Z.of_nat (List.length (players s))
  /\ 0 <= pending_draw s
  /\ must_play_or_pass s = false
  /\ py_last (discard_pile s) <> None
  /\ (exists col, current_color s = Some col /\ In col VALID_COLORS).

(** [m] leads from well-formed states to well-formed states, whatever its
    outcome. *)
Definition keeps {A} (m : M A) : Prop :=
  forall w, well_formed (game w) -> well_formed (game (snd (m w))).

Lemma keeps_ret {A} (a : A) : keeps (ret a).
Proof. intros w H. exact H. Qed.

Lemma keeps_raise {A} e : keeps (@raise A e).
Proof. intros w H. exact H. Qed.

Lemma keeps_get : keeps get.
Proof. intros w H. exact H. Qed.

Lemma keeps_from_option {A} e (o : option A) : keeps (from_option e o).
Proof. intros w H. destruct o; exact H. Qed.

Lemma keeps_lift_env {A} (f : Env -> A * Env) : keeps (lift_env f).
Proof. intros w H. unfold lift_env. destruct (f (env w)). exact H. Qed.

Lemma keeps_bind {A B} (m : M A) (k : A -> M B) :
  keeps m -> (forall a, keeps (k a)) -> keeps (bind m k).
Proof.
  intros Hm Hk w H. unfold bind. specialize (Hm w H).
  destruct (m w) as [[a|e|] w1]; cbn [snd] in *; auto.
  now apply Hk.
Qed.

Lemma keeps_modify f :
  (forall s, well_formed s -> well_formed (f s)) -> keeps (modify f).
Proof. intros Hf w H. cbn. now apply Hf. Qed.

Lemma keeps_readonly {A} (m : M A) : readonly m -> keeps m.
Proof.
  intros Hr w H. destruct (m w) as [o w'] eqn:E. now rewrite (Hr _ _ _ E).
Qed.

(** A state that differs in the hands, the draw pile and what lies under the
    discard top only. *)
Lemma well_formed_transfer s s' :
  core s' = core s ->
  List.length (players s') = List.length (players s) ->
  py_last (discard_pile s') = py_last (discard_pile s) ->
  well_formed s -> well_formed s'.
Proof.
  intros Hc Hl Hd (H1 & H2 & H3 & H4 & H5 & H6).
  destruct (core_fields Hc) as (_ & Hi & Hdir & Hpd & _ & Hcol).
  assert (Hm : must_play_or_pass s' = must_play_or_pass s)
    by exact (f_equal must_play_or_pass Hc).
  unfold well_formed. rewrite Hi, Hdir, Hpd, Hcol, Hm, Hl, Hd. auto 10.
Qed.

Lemma keeps_modify_player j f : keeps (modify_player j f).
Proof.
  intros w H. cbn. revert H. apply well_formed_transfer; cbn; auto.
  apply list_alter_length.
Qed.

Lemma keeps_discard_append c : keeps (discard_append c).
Proof.
  intros w (H1 & H2 & H3 & H4 & H5 & H6). cbn. unfold well_formed. cbn.
  rewrite py_last_app. repeat split; auto; try tauto. discriminate.
Qed.

(** Drawing never changes the card on top of the discard pile. *)
Lemma draw_one_top w :
  exists c w',
    _draw_one w = (Return c, w')
    /\ core (game w') = core (game w)
    /\ players (game w') = players (game w)
    /\ py_last (discard_pile (game w')) = py_last (discard_pile (game w)).
Proof.
  destruct (draw_pile (game w)) as [|x t] eqn:Hd.
  - destruct (length_le_1_or_last (discard_pile (game w)))
      as [Hl | (rest & top & Hdis & Hrest)].
    + destruct (draw_one_rebuild w Hd Hl) as (c & d & g' & _ & E).
      exists c. eexists. split; [exact E|]. repeat split.
    + pose proof (shuffle_perm rest (rng (env w))) as HP.
      pose proof (@reshuffle_spec w rest top Hd Hdis Hrest) as HR.
      destruct (shuffle rest (rng (env w))) as [r g']. simpl in HP, HR.
      assert (Hr : r <> []).
      { intros ->. apply Permutation_nil in HP. congruence. }
      destruct (exists_last Hr) as (d & c & ->).
      exists c. eexists. split.
      * eapply draw_one_via; [exact HR | reflexivity].
      * split; [reflexivity|]. split; [reflexivity|].
        cbn. rewrite Hdis, py_last_app. reflexivity.
  - destruct (@exists_last _ (x :: t)) as (d & c & E); [discriminate|].
    exists c. eexists. split.
    + apply draw_one_pop. rewrite Hd. exact E.
    + repeat split.
Qed.

Lemma draw_loop_top j k drawn w :
  exists new w',
    draw_loop j k drawn w = (Return new, w')
    /\ core (game w') = core (game w)
    /\ List.length (players (game w')) = List.length (players (game w))
    /\ py_last (discard_pile (game w')) = py_last (discard_pile (game w)).
Proof.
  revert drawn w; induction k as [|k IH]; intros drawn w; cbn [draw_loop].
  - exists drawn, w. repeat split.
  - destruct (draw_one_top w) as (c & w1 & E1 & Hc1 & Hp1 & Hd1).
    rewrite (bind_Return _ _ _ E1).
    unfold modify_player. rewrite bind_modify.
    destruct (IH (drawn ++ [c])
                 (mkWorld (set_players
                             (list_alter (fun p => set_hand (hand p ++ [c]) p) j
                                (players (game w1))) (game w1)) (env w1)))
      as (new & w' & E & Hc & Hl & Hd).
    exists new, w'. split; [exact E|].
    split. { rewrite Hc. cbn. exact Hc1. }
    split. { rewrite Hl. cbn. rewrite list_alter_length, Hp1. reflexivity. }
    rewrite Hd. cbn. exact Hd1.
Qed.

Lemma keeps_draw_cards j count : keeps (_draw_cards_to_player j count).
Proof.
  intros w H. unfold _draw_cards_to_player.
  destruct (draw_loop_top j (Z.to_nat (Z.max 0 count)) [] w)
    as (new & w' & E & Hc & Hl & Hd).
  rewrite E. cbn [snd]. revert H. now apply well_formed_transfer.
Qed.

Ltac wf_setter :=
  let s := fresh "s" in
  let H := fresh "H" in
  intros s H; unfold well_formed in *; cbn;
  destruct H as (?H1 & ?H2 & ?H3 & ?H4 & ?H5 & ?H6);
  repeat split; auto; try tauto; try lia.

Lemma keeps_touch : keeps touch.
Proof.
  unfold touch, time_time. apply keeps_bind; [apply keeps_lift_env|].
  intro t. apply keeps_modify. wf_setter.
Qed.

Lemma keeps_advance steps : keeps (advance steps).
Proof.
  intros w H. unfold advance, _next_index. rewrite bind_assoc, bind_get. cbv zeta.
  destruct (Z.of_nat (List.length (players (game w))) =? 0) eqn:E;
    [exact H|].
  rewrite bind_ret. cbn. revert H. unfold well_formed. cbn.
  intros (H1 & H2 & H3 & H4 & H5 & H6).
  repeat split; auto; try tauto; apply Z.mod_pos_bound; lia.
Qed.

Lemma keeps_flip_if b : keeps (flip_if b).
Proof.
  destruct b; [|apply keeps_ret]. apply keeps_modify. wf_setter.
Qed.

Lemma keeps_effects c : keeps (_apply_action_effects_after_play c).
Proof.
  unfold _apply_action_effects_after_play.
  apply keeps_bind; [apply keeps_get|]. intro s. cbv zeta.
  destruct (value c); try destruct (Nat.eqb _ 2);
    first [ apply keeps_ret
          | apply keeps_bind; [apply keeps_modify; wf_setter | intro; apply keeps_ret] ].
Qed.

Lemma keeps_resolve : keeps _resolve_round_if_won.
Proof.
  unfold _resolve_round_if_won.
  apply keeps_bind; [apply keeps_get|]. intro s.
  destruct (find_index _ _) as [k|]; [|apply keeps_ret].
  apply keeps_bind; [apply keeps_readonly, readonly_player_at|]. intro winner.
  cbv zeta.
  apply keeps_bind; [apply keeps_modify_player|]. intros _.
  apply keeps_bind; [apply keeps_modify; wf_setter|]. intros _.
  apply keeps_bind; [|intro; apply keeps_ret].
  destruct (_ >=? _);
    (apply keeps_bind; [apply keeps_modify; wf_setter|]; intros _;
     apply keeps_modify; wf_setter).
Qed.

Lemma keeps_set_color c :
  In c VALID_COLORS -> keeps (modify (set_current_color (Some c))).
Proof.
  intro Hc. apply keeps_modify. wf_setter. exists c. auto.
Qed.

Lemma ai_choose_color_valid p : In (_ai_choose_color p) VALID_COLORS.
Proof.
  unfold _ai_choose_color, VALID_COLORS. simpl fold_left.
  repeat match goal with |- context [if ?b then _ else _] => destruct b end;
    simpl; tauto.
Qed.

Lemma is_valid_color_In c : is_valid_color c = true -> In c VALID_COLORS.
Proof.
  unfold is_valid_color. intro H.
  apply existsb_exists in H as (x & Hx & He).
  apply color_eqb_eq in He. now subst.
Qed.

Lemma parse_color_valid o c : parse_color o = Some c -> In c VALID_COLORS.
Proof.
  unfold parse_color. destruct o as [s|]; [|discriminate].
  repeat match goal with |- context [if ?b then _ else _] => destruct b end;
    intro H; inversion H; simpl; tauto.
Qed.

Lemma ai_choose_play_color s p o c :
  _ai_choose_play s p = (o, Some c) -> In c VALID_COLORS.
Proof.
  unfold _ai_choose_play. destruct (py_last (discard_pile s)); [|discriminate].
  destruct (sort_by_prio _) as [|x rest]; [discriminate|].
  destruct (color_eqb (color x) wild); [|discriminate].
  intro H. injection H as _ <-. apply ai_choose_color_valid.
Qed.

Ltac keep_wf :=
  repeat first
    [ assumption
    | apply keeps_ret | apply keeps_raise | apply keeps_get
    | apply keeps_touch | apply keeps_advance | apply keeps_flip_if
    | apply keeps_effects | apply keeps_resolve
    | apply keeps_from_option | apply keeps_draw_cards
    | apply keeps_modify_player | apply keeps_discard_append
    | apply keeps_readonly, readonly_player_at
    | apply keeps_readonly, readonly_require_turn
    | apply keeps_set_color;
      first [ apply ai_choose_color_valid
            | apply is_valid_color_In; assumption
            | eapply parse_color_valid; eassumption
            | eapply ai_choose_play_color; eassumption
            | simpl; tauto ]
    | apply keeps_modify; solve [wf_setter]
    | match goal with
      | |- keeps (if ?b then _ else _) => destruct b eqn:?
      | |- keeps (match ?o with Some _ => _ | None => _ end) => destruct o eqn:?
      end
    | match goal with |- keeps (bind _ _) => apply keeps_bind; [| intro] end ].

Lemma keeps_driver fuel : keeps (_auto_resolve_ai_turns fuel).
Proof.
  induction fuel as [|fuel IH]; [intros w H; exact H|].
  cbn [_auto_resolve_ai_turns].
  apply keeps_bind; [apply keeps_get|]. intro s.
  destruct (negb (status_eqb (status s) playing)); [apply keeps_ret|].
  apply keeps_bind; [apply keeps_from_option|]. intro i.
  apply keeps_bind; [apply keeps_readonly, readonly_player_at|]. intro cur.
  destruct (negb (is_ai cur)); [apply keeps_ret|].
  destruct (pending_draw s >? 0); [keep_wf|].
  destruct (_ai_choose_play s cur) as [[chosen|] [c|]] eqn:Ech; cbv iota; keep_wf.
Qed.

Lemma keeps_play_card fuel p cid col : keeps (play_card fuel p cid col).
Proof.
  pose proof (keeps_driver fuel) as Hd.
  unfold play_card. keep_wf.
Qed.

Lemma keeps_draw_card fuel p : keeps (draw_card fuel p).
Proof.
  pose proof (keeps_driver fuel) as Hd.
  unfold draw_card. keep_wf.
  all: apply keeps_set_color;
    match goal with |- context [is_ai ?q] => destruct (is_ai q) end;
    [apply ai_choose_color_valid | simpl; tauto].
Qed.

Lemma keeps_pass_turn fuel p : keeps (pass_turn fuel p).
Proof.
  pose proof (keeps_driver fuel) as Hd.
  unfold pass_turn. keep_wf.
Qed.

Lemma keeps_update_settings patch : keeps (update_settings patch).
Proof.
  unfold update_settings, when_some, modify_settings. keep_wf.
  apply keeps_modify. intros s (H1 & H2 & H3 & H4 & H5 & H6).
  unfold well_formed. cbn. rewrite length_set_ai_beyond_first. auto 10.
Qed.

Lemma keeps_restart_round : keeps restart_round.
Proof.
  intros w (H1 & H2 & H3 & H4 & H5 & H6).
  destruct (@restart_round_spec w) as
    (w' & first & col & E & Hfr & _ & Hd & Hcol & Hin & Hpd & _ & _ & Hm & _ & Hdir
       & Hi & _).
  { intro Hn. rewrite Hn in H2. cbn in H2. lia. }
  rewrite E. cbn [snd].
  assert (Hl : List.length (players (game w')) = List.length (players (game w))).
  { apply map_person_length. unfold frame_of_start in Hfr. now injection Hfr. }
  unfold well_formed. rewrite Hl, Hd, Hcol, Hpd, Hm.
  split; [exact Hdir|]. split; [exact Hi|].
  split. { unfold penalty. destruct (value first); lia. }
  split; [reflexivity|]. split; [discriminate|]. exists col. auto.
Qed.

Lemma keeps_run_action fuel a : keeps (run_action fuel a).
Proof.
  destruct a; cbn [run_action].
  - apply keeps_play_card.
  - apply keeps_bind; [apply keeps_draw_card | intro; apply keeps_ret].
  - apply keeps_pass_turn.
  - apply keeps_update_settings.
  - apply keeps_restart_round.
Qed.

Lemma keeps_run_script fuel acts w :
  well_formed (game w) -> well_formed (game (run_script fuel acts w)).
Proof.
  revert w; induction acts as [|a acts IH]; intros w H; cbn [run_script]; [exact H|].
  apply IH. now apply keeps_run_action.
Qed.

Lemma new_game_well_formed mode human_name cpu_name opt e :
  exists st e',
    new_game mode human_name cpu_name opt e = (Return st, e') /\ well_formed st.
Proof.
  destruct (new_game_spec mode human_name cpu_name opt e) as
    (st & e' & first & col & E & _ & _ & _ & _ & _ & _ & _ & Hd & Hcol & Hin & Hpd
       & Hdir & Hi & _ & Hm).
  exists st, e'. split; [exact E|].
  unfold well_formed. rewrite Hd, Hcol, Hpd, Hm.
  split; [exact Hdir|]. split; [exact Hi|].
  split. { unfold penalty. destruct (value first); lia. }
  split; [reflexivity|]. split; [discriminate|]. exists col. auto.
Qed.

(** X21 — The turn state stays well formed over any sequence of requests
    (plays, draws, passes, settings patches, restarts; accepted or refused,
    and wherever the driver stops): from a state whose direction is 1 or -1,
    whose current player index is a position of the player list, whose
    pending draw is not negative, whose play-or-pass flag is clear, whose
    discard pile has a top card and whose current colour is one of the four
    colours, every operation leads to such a state again. In particular the
    play-or-pass flag is never set by any operation. *)
Theorem operations_keep_well_formed (fuel : nat) (acts : list Action) (w : World) :
  well_formed (game w) -> well_formed (game (run_script fuel acts w)).
Proof. apply keeps_run_script. Qed.

Lemma operations_keep_well_formed_witness :
  well_formed two_player_state
  /\ well_formed
       (game (run_script 5 [APass "p2"; APlay "p1" "a" None; ADraw "p1"; ARestart]
                (mkWorld two_player_state demo_env))).
Proof.
  assert (H : well_formed two_player_state).
  { unfold well_formed. cbn.
    repeat split; try lia; auto; [discriminate|].
    exists red. split; [reflexivity|]. simpl. tauto. }
  split; [exact H|].
  apply (operations_keep_well_formed 5
           [APass "p2"; APlay "p1" "a" None; ADraw "p1"; ARestart]
           (mkWorld two_player_state demo_env)).
  exact H.
Defined.

(** X22 — Every state of a session is well formed: [new_game] returns a game
    for any mode, names, settings and environment, and after any sequence of
    requests on it the direction is 1 or -1, the current player index is a
    position of the player list, the pending draw is not negative, the
    play-or-pass flag is clear, the discard pile has a top card and the
    current colour is one of the four colours. *)
Theorem session_always_well_formed (mode human_name cpu_name : string)
    (opt : option GameSettings) (e : Env) (fuel : nat) (acts : list Action) :
  exists st e',
    new_game mode human_name cpu_name opt e = (Return st, e')
    /\ well_formed (game (run_script fuel acts (mkWorld st e'))).
Proof.
  destruct (new_game_well_formed mode human_name cpu_name opt e) as (st & e' & E & H).
  exists st, e'. split; [exact E|]. now apply keeps_run_script.
Qed.

(** ** The operations, step by step, while no automated player is to act *)

(** The seat [_next_index] computes: [steps] seats on in direction [d]. *)
Definition seat_after (s : GameState) (d steps : Z) : Z :=
  (current_player_index s + d * steps) mod Z.of_nat (List.length (players s)).

(** The player at seat [i] is not automated. *)
Definition human_at (ps : list Player) (i : Z) : Prop :=
  exists q, nth_error ps (Z.to_nat i) = Some q /\ is_ai q = false.

(** [time.time()] read once. *)
Definition now (e : Env) : Z := feed (clock e) (cursor (clock e)).
Definition tick (e : Env) : Env :=
  with_clock (mkOracle (feed (clock e)) (S (cursor (clock e)))) e.

Lemma driver_idle fuel w :
  0 <= current_player_index (game w) < Z.of_nat (List.length (players (game w))) ->
  human_at (players (game w)) (current_player_index (game w)) ->
  _auto_resolve_ai_turns (S fuel) w = (Return tt, w).
Proof.
  intros Hi (q & Hq & Hai).
  destruct (status (game w)) eqn:Hs;
    try (apply driver_not_playing; rewrite Hs; discriminate).
  apply driver_human with (i := Z.to_nat (current_player_index (game w))) (cur := q);
    auto.
  now apply py_index_in_range.
Qed.

Lemma seat_after_range s d steps :
  players s <> [] ->
  0 <= seat_after s d steps < Z.of_nat (List.length (players s)).
Proof.
  intro H. unfold seat_after. apply Z.mod_pos_bound.
  destruct (players s); [congruence | simpl List.length; lia].
Qed.

Lemma require_turn_players p w j :
  _require_turn p w = (Return j, w) -> players (game w) <> [].
Proof.
  intro H. apply require_turn_inv in H as [_ H].
  apply find_index_Some in H as (x & _ & _ & Hl).
  intro E. rewrite E in Hl. simpl in Hl. lia.
Qed.

(** X23 — [pass_turn] by the player whose turn it is, with no penalty
    pending: it is accepted whether or not the player has drawn; the turn
    moves one seat on in the current direction, the drawn-card marker and the
    play-or-pass flag are cleared, the time stamp is refreshed and the message
    is "Turn passed."; hands, piles, colour, scores and everything else stay
    as they were. When the player now to act is not automated the operation
    returns in exactly that state. *)
Theorem pass_turn_effect (fuel : nat) (p : string) (w : World) (j : nat) :
  let s := game w in
  _require_turn p w = (Return j, w) ->
  pending_draw s <= 0 ->
  human_at (players s) (seat_after s (direction s) 1) ->
  pass_turn (S fuel) p w
  = (Return tt,
     mkWorld
       (set_message (Some "Turn passed.")
          (set_updated_at (now (env w))
             (set_current_player_index (seat_after s (direction s) 1)
                (set_last_drawn_card_id None (set_must_play_or_pass false s)))))
       (tick (env w))).
Proof.
  intros s Hturn Hpd Hnext. subst s.
  pose proof (@require_turn_players p w j Hturn) as Hne.
  assert (Hgt : (pending_draw (game w) >? 0) = false)
    by (rewrite Z.gtb_ltb; apply Z.ltb_ge; lia).
  unfold pass_turn.
  rewrite (bind_Return _ _ _ Hturn). rewrite bind_get, Hgt.
  rewrite !bind_modify. cbn [game env].
  erewrite bind_Return by (apply advance_eq; exact Hne). cbv beta.
  unfold bind at 1. rewrite touch_eq. cbv beta iota.
  rewrite bind_modify. cbn [game env].
  apply driver_idle.
  - cbn. apply (@seat_after_range _ (direction (game w)) 1 Hne).
  - exact Hnext.
Qed.

(** A table of two people for closed examples. *)
Definition table_state : GameState :=
  mkState "g" playing 0 0
    [mkPlayer "p1" "Ann" false 0
       [mkCard "a" red V1; mkCard "b" red DRAW_TWO; mkCard "c" green V3];
     mkPlayer "p2" "Bob" false 0 [mkCard "d" blue V3; mkCard "e" red V9]]
    0 1 [mkCard "x" yellow V1; mkCard "y" green V2] [mkCard "t" red V5]
    (Some red) 0 false None None None default_settings.

Lemma pass_turn_effect_witness :
  pass_turn 1 "p1" (mkWorld table_state demo_env)
  = (Return tt,
     mkWorld
       (set_message (Some "Turn passed.")
          (set_updated_at 0
             (set_current_player_index 1
                (set_last_drawn_card_id None (set_must_play_or_pass false table_state)))))
       (tick demo_env)).
Proof.
  apply (@pass_turn_effect 0 "p1" (mkWorld table_state demo_env) 0%nat).
  - reflexivity.
  - cbn. lia.
  - eexists. split; reflexivity.
Defined.

Lemma human_at_alter f j ps i :
  (forall q, is_ai (f q) = is_ai q) ->
  human_at ps i -> human_at (list_alter f j ps) i.
Proof.
  intros Hf (q & Hq & Hai).
  destruct (Nat.eq_dec (Z.to_nat i) j) as [<-|Hne].
  - exists (f q). rewrite list_alter_nth, Hq. split; [reflexivity|]. now rewrite Hf.
  - exists q. rewrite list_alter_nth_other by exact Hne. auto.
Qed.

(** X24 — [draw_card] with no penalty pending, a card on the draw pile and no
    automatic play (the setting is off or the drawn card cannot be played):
    the last card of the draw pile goes to the end of the caller's hand and is
    returned, its id is recorded as the drawn card, and the turn moves one
    seat on at once — the player gets no chance to play the card drawn;
    the discard pile, the colour and the play-or-pass flag stay as they
    were. *)
Theorem draw_card_effect (fuel : nat) (p : string) (w : World) (j : nat) (q : Player)
  (d : list UnoCard) (c top : UnoCard) :
  let s := game w in
  _require_turn p w = (Return j, w) ->
  pending_draw s <= 0 ->
  nth_error (players s) j = Some q ->
  draw_pile s = d ++ [c] ->
  py_last (discard_pile s) = Some top ->
  auto_play_if_drawn_playable (settings s) && can_play_on c top (current_color s) = false ->
  human_at (players s) (seat_after s (direction s) 1) ->
  draw_card (S fuel) p w
  = (Return c,
     mkWorld
       (set_message (Some (name q ++ " drew a card.")%string)
          (set_updated_at (now (env w))
             (set_current_player_index (seat_after s (direction s) 1)
                (set_last_drawn_card_id (Some (card_id c))
                   (set_players (list_alter (append_hand [c]) j (players s))
                      (set_draw_pile d s))))))
       (tick (env w))).
Proof.
  intros s Hturn Hpd Hq Hdraw Htop Hauto Hnext. subst s.
  pose proof (@require_turn_players p w j Hturn) as Hne.
  assert (Hgt : (pending_draw (game w) >? 0) = false)
    by (rewrite Z.gtb_ltb; apply Z.ltb_ge; lia).
  unfold draw_card.
  rewrite (bind_Return _ _ _ Hturn). rewrite bind_get, Hgt.
  rewrite (bind_Return _ _ _ (draw_cards_one j w (draw_one_pop w d c Hdraw))).
  cbn [hd_error from_option game env]. rewrite bind_ret, bind_modify, bind_get.
  cbn [game env discard_pile set_last_drawn_card_id set_players set_draw_pile
       settings current_color].
  rewrite Htop. cbn [from_option]. rewrite bind_ret, Hauto.
  erewrite bind_Return.
  2:{ apply advance_eq. cbn. intro E.
      apply (f_equal (@List.length _)) in E. rewrite list_alter_length in E.
      destruct (players (game w)); [congruence | discriminate]. }
  cbv beta. unfold bind at 1. rewrite touch_eq. cbv beta iota.
  erewrite bind_Return.
  2:{ apply player_at_eq. cbn. rewrite list_alter_nth, Hq. reflexivity. }
  cbv beta. rewrite bind_modify. cbn [game env].
  erewrite bind_Return.
  2:{ apply driver_idle.
      - cbn. rewrite list_alter_length. apply Z.mod_pos_bound.
        destruct (players (game w)); [congruence | simpl List.length; lia].
      - cbn. rewrite list_alter_length. apply human_at_alter; [reflexivity|].
        exact Hnext. }
  cbn. unfold seat_after, now, tick. rewrite list_alter_length. reflexivity.
Qed.

Lemma draw_card_effect_witness :
  draw_card 1 "p1" (mkWorld table_state demo_env)
  = (Return (mkCard "y" green V2),
     mkWorld
       (set_message (Some "Ann drew a card.")
          (set_updated_at 0
             (set_current_player_index 1
                (set_last_drawn_card_id (Some "y")
                   (set_players
                      (list_alter (append_hand [mkCard "y" green V2]) 0
                         (players table_state))
                      (set_draw_pile [mkCard "x" yellow V1] table_state))))))
       (tick demo_env)).
Proof.
  apply (@draw_card_effect 0 "p1" (mkWorld table_state demo_env) 0%nat
           (mkPlayer "p1" "Ann" false 0
              [mkCard "a" red V1; mkCard "b" red DRAW_TWO; mkCard "c" green V3])
           [mkCard "x" yellow V1] (mkCard "y" green V2) (mkCard "t" red V5)).
  - reflexivity.
  - cbn. lia.
  - reflexivity.
  - reflexivity.
  - reflexivity.
  - reflexivity.
  - eexists. split; reflexivity.
Defined.

(** The steps and the direction flip [_apply_action_effects_after_play]
    returns for a card value at a table of [n]. *)
Definition steps_of (n : nat) (v : CardValue) : Z * bool :=
  match v with
  | SKIP => (2, false)
  | REVERSE => if (n =? 2)%nat then (2, true) else (1, true)
  | DRAW_TWO | WILD_DRAW_FOUR => (2, false)
  | _ => (1, false)
  end.

Lemma state_ext (a b : GameState) :
  gid a = gid b -> status a = status b -> created_at a = created_at b ->
  updated_at a = updated_at b -> players a = players b ->
  current_player_index a = current_player_index b -> direction a = direction b ->
  draw_pile a = draw_pile b -> discard_pile a = discard_pile b ->
  current_color a = current_color b -> pending_draw a = pending_draw b ->
  must_play_or_pass a = must_play_or_pass b ->
  last_drawn_card_id a = last_drawn_card_id b ->
  winner_player_id a = winner_player_id b -> message a = message b ->
  settings a = settings b -> a = b.
Proof. destruct a, b. cbn. intros. subst. reflexivity. Qed.

Lemma effects_eq card w :
  _apply_action_effects_after_play card w
  = (Return (steps_of (List.length (players (game w))) (value card)),
     mkWorld (set_pending_draw (pending_draw (game w) + penalty card) (game w)) (env w)).
Proof.
  destruct w as [s e]. unfold _apply_action_effects_after_play, penalty, steps_of.
  rewrite bind_get. cbn [game env].
  destruct (value card); try destruct (Nat.eqb _ 2); unfold ret, bind, modify; cbn;
    try reflexivity;
    (f_equal; f_equal; apply state_ext; cbn; try reflexivity; lia).
Qed.

Lemma flip_if_eq b w :
  flip_if b w
  = (Return tt,
     mkWorld (set_direction (if b then - direction (game w) else direction (game w))
                (game w)) (env w)).
Proof.
  destruct w as [s e]. destruct b; cbn; [reflexivity|].
  unfold ret. f_equal. f_equal. apply state_ext; reflexivity.
Qed.

Lemma resolve_none w :
  (forall q, In q (players (game w)) -> hand q <> []) ->
  _resolve_round_if_won w = (Return false, w).
Proof.
  intro H. unfold _resolve_round_if_won. rewrite bind_get.
  rewrite find_index_None; [reflexivity|].
  intros q Hq. specialize (H q Hq). destruct (hand q); [congruence | reflexivity].
Qed.

(** The colour part of [play_card]: the checks of a wild card, then the
    colour the play leaves. *)
Definition color_after (card : UnoCard) (col : option string) (s : GameState)
  : option CardColor :=
  if is_wild_value (value card) then parse_color col
  else if is_valid_color (color card) then Some (color card)
  else current_color s.

(** X25 — [play_card] of a card that may be played and does not empty the
    hand, spelled out: the card leaves the caller's hand for the top of the
    discard pile; the current colour becomes the chosen colour for a wild
    card and the card's colour otherwise; DRAW_TWO and WILD_DRAW_FOUR add 2
    and 4 to the pending draw; REVERSE flips the direction; the turn moves
    two seats on for SKIP, DRAW_TWO, WILD_DRAW_FOUR and for REVERSE at a
    table of two, one seat otherwise (in the direction after the flip); the
    drawn-card marker and the play-or-pass flag are cleared and the message
    names the player and the card. Draw pile, scores, status and settings
    stay as they were. When the player now to act is not automated the
    operation returns in exactly that state. *)
Theorem play_card_effect (fuel : nat) (w : World) (p cid : string)
  (col : option string) (j : nat) (q : Player) (card top : UnoCard) :
  let s := game w in
  let eff := steps_of (List.length (players s)) (value card) in
  let d' := if snd eff then - direction s else direction s in
  _require_turn p w = (Return j, w) ->
  pending_draw s <= 0 ->
  py_last (discard_pile s) = Some top ->
  nth_error (players s) j = Some q ->
  find (fun c => String.eqb (card_id c) cid) (hand q) = Some card ->
  can_play_on card top (current_color s) = true ->
  (is_wild_value (value card) = true -> parse_color col <> None) ->
  (value card = WILD_DRAW_FOUR ->
   allow_illegal_wild_draw_four (settings s) = false ->
   forall m,
     match current_color s with
     | Some c => Some c
     | None => if is_valid_color (color top) then Some (color top) else None
     end = Some m ->
     existsb (fun c => color_eqb (color c) m) (remove_by_id (card_id card) (hand q))
     = false) ->
  (forall r, In r (without_card card j (players s)) -> hand r <> []) ->
  human_at (players s) (seat_after s d' (fst eff)) ->
  play_card (S fuel) p cid col w
  = (Return tt,
     mkWorld
       (set_message
          (Some (name q ++ " played " ++ value_str (value card) ++ ".")%string)
          (set_updated_at (now (env w))
             (set_current_player_index (seat_after s d' (fst eff))
                (set_direction d'
                   (set_pending_draw (pending_draw s + penalty card)
                      (set_last_drawn_card_id None
                         (set_must_play_or_pass false
                            (set_discard_pile (discard_pile s ++ [card])
                               (set_players (without_card card j (players s))
                                  (set_current_color (color_after card col s) s))))))))))
       (tick (env w))).
Proof.
  intros s eff d' Hturn Hpd Htop Hq Hcard Hplay Hcol Hwd4 Hnone Hnext.
  subst s eff d'.
  pose proof (@require_turn_players p w j Hturn) as Hne.
  assert (Hgt : (pending_draw (game w) >? 0) = false)
    by (rewrite Z.gtb_ltb; apply Z.ltb_ge; lia).
  assert (Hlen : forall f, List.length (list_alter f j (players (game w)))
                           = List.length (players (game w)))
    by (intro f; apply list_alter_length).
  (* everything after the colour is settled *)
  assert (Htail : forall s0,
    players s0 = players (game w) ->
    current_player_index s0 = current_player_index (game w) ->
    direction s0 = direction (game w) ->
    pending_draw s0 = pending_draw (game w) ->
    discard_pile s0 = discard_pile (game w) ->
    exists s1,
      (modify_player j (fun q0 => set_hand (remove_by_id (card_id card) (hand q0)) q0) ;;
       discard_append card ;;
       modify (set_must_play_or_pass false) ;;
       modify (set_last_drawn_card_id None) ;;
       eff <- _apply_action_effects_after_play card ;;
       flip_if (snd eff) ;;
       won <- _resolve_round_if_won ;;
       if (won : bool) then touch
       else
         advance (fst eff) ;;
         touch ;;
         q0 <- player_at j ;;
         modify (set_message
           (Some (name q0 ++ " played " ++ value_str (value card) ++ ".")%string)) ;;
         _auto_resolve_ai_turns (S fuel)) (mkWorld s0 (env w))
      = (Return tt, mkWorld s1 (tick (env w)))
      /\ s1 =
         set_message
           (Some (name q ++ " played " ++ value_str (value card) ++ ".")%string)
           (set_updated_at (now (env w))
              (set_current_player_index
                 (seat_after (game w)
                    (if snd (steps_of (List.length (players (game w))) (value card))
                     then - direction (game w) else direction (game w))
                    (fst (steps_of (List.length (players (game w))) (value card))))
                 (set_direction
                    (if snd (steps_of (List.length (players (game w))) (value card))
                     then - direction (game w) else direction (game w))
                    (set_pending_draw (pending_draw (game w) + penalty card)
                       (set_last_drawn_card_id None
                          (set_must_play_or_pass false
                             (set_discard_pile (discard_pile (game w) ++ [card])
                                (set_players (without_card card j (players (game w)))
                                   s0))))))))).
  { intros s0 Hp0 Hi0 Hd0 Hpd0 Hdis0.
    unfold modify_player, discard_append. rewrite !bind_modify. cbn [game env].
    rewrite (bind_Return _ _ _ (effects_eq card _)). cbn [game env].
    rewrite (bind_Return _ _ _ (flip_if_eq _ _)). cbn [game env].
    erewrite bind_Return.
    2:{ apply resolve_none. cbn. rewrite Hp0. exact Hnone. }
    cbv iota.
    erewrite bind_Return.
    2:{ apply advance_eq. cbn. rewrite Hp0. intro E.
        apply (f_equal (@List.length _)) in E. rewrite Hlen in E.
        destruct (players (game w)); [congruence | discriminate]. }
    cbv beta. unfold bind at 1. rewrite touch_eq. cbv beta iota.
    erewrite bind_Return.
    2:{ apply player_at_eq. cbn. rewrite Hp0, list_alter_nth, Hq. reflexivity. }
    cbv beta. rewrite bind_modify. cbn [game env].
    eexists. split.
    - apply driver_idle.
      + cbn. rewrite Hp0, Hlen. apply Z.mod_pos_bound.
        destruct (players (game w)); [congruence | simpl List.length; lia].
      + cbn. rewrite Hp0, Hlen, Hi0, Hd0.
        apply human_at_alter; [reflexivity|]. exact Hnext.
    - apply state_ext; cbn; rewrite ?Hp0, ?Hlen, ?Hi0, ?Hd0, ?Hpd0, ?Hdis0;
        reflexivity. }
  unfold play_card.
  rewrite (bind_Return _ _ _ Hturn).
  msimp. rewrite Hgt, Htop.
  step_with ltac:(apply player_at_eq; exact Hq).
  rewrite Hcard, Hplay. cbn [negb].
  unfold color_after.
  destruct (is_wild_value (value card)) eqn:Ewild.
  - destruct (parse_color col) as [cc|] eqn:Ecc; [|now destruct (Hcol eq_refl)].
    assert (Hgo : forall (m : M unit) (k : unit -> M unit),
              m w = (Return tt, w) ->
              bind (bind m (fun _ => modify (set_current_color (Some cc)))) k w
              = k tt (mkWorld (set_current_color (Some cc) (game w)) (env w))).
    { intros m k Hm. rewrite bind_assoc, (bind_Return _ _ _ Hm), bind_modify.
      reflexivity. }
    rewrite Hgo.
    + destruct (Htail (set_current_color (Some cc) (game w)))
        as (s1 & E & Hs1); try reflexivity.
      rewrite E, Hs1. reflexivity.
    + destruct (negb (allow_illegal_wild_draw_four (settings (game w)))
                && value_eqb (value card) WILD_DRAW_FOUR) eqn:Echeck;
        [|reflexivity].
      apply andb_prop in Echeck as [Hallow Hval].
      apply negb_true_iff in Hallow.
      assert (Hv : value card = WILD_DRAW_FOUR).
      { destruct (value card); try discriminate; reflexivity. }
      specialize (Hwd4 Hv Hallow). cbv zeta.
      destruct (match current_color (game w) with
                | Some c => Some c
                | None => if is_valid_color (color top) then Some (color top) else None
                end) as [m|] eqn:Em; [|reflexivity].
      rewrite (Hwd4 m eq_refl). reflexivity.
  - destruct (is_valid_color (color card)).
    + rewrite bind_modify.
      destruct (Htail (set_current_color (Some (color card)) (game w)))
        as (s1 & E & Hs1); try reflexivity.
      rewrite E, Hs1. reflexivity.
    + rewrite bind_ret.
      destruct (Htail (game w)) as (s1 & E & Hs1); try reflexivity.
      destruct w as [s e]. cbn [game env] in *. rewrite E, Hs1.
      apply (f_equal (fun x => (Return tt, mkWorld x (tick e)))).
      apply state_ext; reflexivity.
Qed.

Lemma play_card_effect_witness :
  play_card 1 "p1" "b" None (mkWorld table_state demo_env)
  = (Return tt,
     mkWorld
       (set_message (Some "Ann played DRAW_TWO.")
          (set_updated_at 0
             (set_current_player_index 0
                (set_direction 1
                   (set_pending_draw 2
                      (set_last_drawn_card_id None
                         (set_must_play_or_pass false
                            (set_discard_pile [mkCard "t" red V5; mkCard "b" red DRAW_TWO]
                               (set_players
                                  (without_card (mkCard "b" red DRAW_TWO) 0
                                     (players table_state))
                                  (set_current_color (Some red) table_state))))))))))
       (tick demo_env)).
Proof.
  apply (@play_card_effect 0 (mkWorld table_state demo_env) "p1" "b" None 0%nat
           (mkPlayer "p1" "Ann" false 0
              [mkCard "a" red V1; mkCard "b" red DRAW_TWO; mkCard "c" green V3])
           (mkCard "b" red DRAW_TWO) (mkCard "t" red V5)).
  - reflexivity.
  - cbn. lia.
  - reflexivity.
  - reflexivity.
  - reflexivity.
  - reflexivity.
  - intro H. discriminate H.
  - intro H. discriminate H.
  - intros r [<-|[<-|[]]]; discriminate.
  - eexists. split; reflexivity.
Defined.

(** X26 — Where an action card sends the turn. The effect of a played card
    followed by the turn advance always succeeds at a table with players:
    DRAW_TWO and WILD_DRAW_FOUR add their penalty to the pending draw and
    move the turn two seats on, exactly as SKIP does, so the player who finds
    the penalty pending is the one two seats after the player of the card;
    at a table of two that is the player of the card. *)
Theorem action_card_turn (w : World) (card : UnoCard) :
  let s := game w in
  players s <> [] ->
  value card = SKIP \/ value card = DRAW_TWO \/ value card = WILD_DRAW_FOUR ->
  exists w',
    effect_then_advance card w = (Return tt, w')
    /\ env w' = env w
    /\ pending_draw (game w') = pending_draw s + penalty card
    /\ direction (game w') = direction s
    /\ current_player_index (game w') = seat_after s (direction s) 2
    /\ (List.length (players s) = 2%nat ->
        current_player_index (game w') = current_player_index s mod 2).
Proof.
  intros s Hne Hv. subst s. unfold effect_then_advance.
  rewrite (bind_Return _ _ _ (effects_eq card w)).
  rewrite (bind_Return _ _ _ (flip_if_eq _ _)). cbn [game env].
  rewrite advance_eq by exact Hne.
  assert (Hs : steps_of (List.length (players (game w))) (value card) = (2, false)).
  { destruct Hv as [->|[->| ->]]; reflexivity. }
  eexists. split; [reflexivity|]. cbn. rewrite Hs. cbn.
  repeat split.
  intro H2. unfold seat_after. rewrite H2.
  change (Z.of_nat 2) with 2. apply Z_mod_plus_full.
Qed.

Lemma action_card_turn_witness :
  exists w',
    effect_then_advance (mkCard "b" red DRAW_TWO) (mkWorld table_state demo_env)
    = (Return tt, w')
    /\ env w' = demo_env
    /\ pending_draw (game w') = 2
    /\ direction (game w') = 1
    /\ current_player_index (game w') = 0
    /\ (List.length (players table_state) = 2%nat -> current_player_index (game w') = 0).
Proof.
  apply (@action_card_turn (mkWorld table_state demo_env) (mkCard "b" red DRAW_TWO)).
  - intro H. discriminate H.
  - right. left. reflexivity.
Defined.

(** ** Who sits at the table *)

(** The same person, with a score that has not gone down. *)
Definition grown (q q' : Player) : Prop :=
  pid q' = pid q /\ name q' = name q /\ score q <= score q'.

(** The same game with the same people in the same seats, no score lower
    than before, and the first seat as automated as before. *)
Definition same_table (s s' : GameState) : Prop :=
  gid s' = gid s
  /\ created_at s' = created_at s
  /\ Forall2 grown (players s) (players s')
  /\ option_map is_ai (hd_error (players s')) = option_map is_ai (hd_error (players s)).

Lemma grown_refl q : grown q q.
Proof. unfold grown. repeat split; lia. Qed.

Lemma grown_all_refl l : Forall2 grown l l.
Proof. induction l; constructor; auto using grown_refl. Qed.

Lemma grown_all_trans l1 l2 l3 :
  Forall2 grown l1 l2 -> Forall2 grown l2 l3 -> Forall2 grown l1 l3.
Proof.
  intro H. revert l3. induction H as [|a b l1 l2 (H1 & H2 & H3) _ IH]; intros l3 H';
    inversion H' as [|b' c l2' l3' (G1 & G2 & G3) Hr]; subst; constructor; auto.
  unfold grown. repeat split; try congruence; lia.
Qed.

Lemma same_table_refl s : same_table s s.
Proof. unfold same_table. repeat split. apply grown_all_refl. Qed.

Lemma same_table_trans s1 s2 s3 :
  same_table s1 s2 -> same_table s2 s3 -> same_table s1 s3.
Proof.
  intros (A1 & A2 & A3 & A4) (B1 & B2 & B3 & B4). unfold same_table.
  repeat split; try congruence. eapply grown_all_trans; eauto.
Qed.

Lemma grown_alter f j l :
  (forall q, grown q (f q)) -> Forall2 grown l (list_alter f j l).
Proof.
  intro H. revert j; induction l as [|a l IH]; intros [|j]; cbn; constructor; auto;
    try apply grown_refl; apply grown_all_refl.
Qed.

Lemma first_alter f j (l : list Player) :
  (forall q, is_ai (f q) = is_ai q) ->
  option_map is_ai (hd_error (list_alter f j l)) = option_map is_ai (hd_error l).
Proof. intro H. destruct l as [|a l], j as [|j]; cbn; auto. now rewrite H. Qed.

(** [m] keeps the table, whatever its outcome. *)
Definition stays {A} (m : M A) : Prop :=
  forall w, same_table (game w) (game (snd (m w))).

Lemma stays_ret {A} (a : A) : stays (ret a).
Proof. intro w. apply same_table_refl. Qed.

Lemma stays_raise {A} e : stays (@raise A e).
Proof. intro w. apply same_table_refl. Qed.

Lemma stays_get : stays get.
Proof. intro w. apply same_table_refl. Qed.

Lemma stays_from_option {A} e (o : option A) : stays (from_option e o).
Proof. intro w. destruct o; apply same_table_refl. Qed.

Lemma stays_lift_env {A} (f : Env -> A * Env) : stays (lift_env f).
Proof. intro w. unfold lift_env. destruct (f (env w)). apply same_table_refl. Qed.

Lemma stays_bind {A B} (m : M A) (k : A -> M B) :
  stays m -> (forall a, stays (k a)) -> stays (bind m k).
Proof.
  intros Hm Hk w. unfold bind. specialize (Hm w).
  destruct (m w) as [[a|e|] w1]; cbn [snd] in *; auto.
  eapply same_table_trans; [exact Hm | apply Hk].
Qed.

Lemma stays_modify f : (forall s, same_table s (f s)) -> stays (modify f).
Proof. intros Hf w. cbn. apply Hf. Qed.

Lemma stays_readonly {A} (m : M A) : readonly m -> stays m.
Proof.
  intros Hr w. destruct (m w) as [o w'] eqn:E. rewrite (Hr _ _ _ E).
  apply same_table_refl.
Qed.

Lemma stays_modify_player j f :
  (forall q, grown q (f q)) -> (forall q, is_ai (f q) = is_ai q) ->
  stays (modify_player j f).
Proof.
  intros Hg Ha w. cbn. unfold same_table. cbn.
  repeat split; [now apply grown_alter | now apply first_alter].
Qed.

Ltac table_setter :=
  let s := fresh "s" in
  intro s; unfold same_table; cbn; repeat split; apply grown_all_refl.

Lemma stays_draw_cards j count : stays (_draw_cards_to_player j count).
Proof.
  intro w. destruct (draw_cards_total j count w) as (new & w' & E & _ & Hc & Hp).
  rewrite E. cbn [snd]. unfold same_table. rewrite Hp.
  split; [exact (f_equal gid Hc)|]. split; [exact (f_equal created_at Hc)|].
  split; [apply grown_alter; intro q; unfold grown; cbn; repeat split; lia
         | now apply first_alter].
Qed.

Lemma stays_draw_one : stays _draw_one.
Proof.
  intro w. destruct (draw_one_total w) as (c & w' & E & Hc & Hp).
  rewrite E. cbn [snd]. unfold same_table. rewrite Hp.
  split; [exact (f_equal gid Hc)|]. split; [exact (f_equal created_at Hc)|].
  split; [apply grown_all_refl | reflexivity].
Qed.

Lemma score_card_nonneg c : 0 <= score_card c.
Proof. unfold score_card. destruct (value c); cbn; lia. Qed.

Lemma hand_points_ge acc h : acc <= hand_points acc h.
Proof.
  unfold hand_points. revert acc; induction h as [|c h IH]; intro acc; cbn; [lia|].
  pose proof (score_card_nonneg c). specialize (IH (acc + score_card c)). lia.
Qed.

Lemma round_points_nonneg wid ps : 0 <= round_points wid ps.
Proof.
  unfold round_points.
  assert (H : forall acc, 0 <= acc ->
            0 <= fold_left
                   (fun a p => if String.eqb (pid p) wid then a
                               else hand_points a (hand p)) ps acc).
  { induction ps as [|p ps IH]; intros acc Hacc; cbn; [exact Hacc|].
    apply IH. destruct (String.eqb (pid p) wid); [exact Hacc|].
    pose proof (hand_points_ge acc (hand p)). lia. }
  apply H. lia.
Qed.

Lemma stays_touch : stays touch.
Proof.
  unfold touch, time_time. apply stays_bind; [apply stays_lift_env|].
  intro t. apply stays_modify. table_setter.
Qed.

Lemma stays_advance steps : stays (advance steps).
Proof.
  unfold advance, _next_index.
  apply stays_bind; [|intro; apply stays_modify; table_setter].
  apply stays_bind; [apply stays_get|]. intro s. cbv zeta.
  destruct (_ =? 0); [apply stays_raise | apply stays_ret].
Qed.

Lemma stays_flip_if b : stays (flip_if b).
Proof. destruct b; [apply stays_modify; table_setter | apply stays_ret]. Qed.

Lemma stays_effects c : stays (_apply_action_effects_after_play c).
Proof.
  unfold _apply_action_effects_after_play.
  apply stays_bind; [apply stays_get|]. intro s. cbv zeta.
  destruct (value c); try destruct (Nat.eqb _ 2);
    first [ apply stays_ret
          | apply stays_bind; [apply stays_modify; table_setter | intro; apply stays_ret] ].
Qed.

Lemma stays_resolve : stays _resolve_round_if_won.
Proof.
  unfold _resolve_round_if_won.
  apply stays_bind; [apply stays_get|]. intro s.
  destruct (find_index _ _) as [k|]; [|apply stays_ret].
  apply stays_bind; [apply stays_readonly, readonly_player_at|]. intro winner.
  cbv zeta.
  apply stays_bind.
  { apply stays_modify_player; [|reflexivity].
    intro q. pose proof (round_points_nonneg (pid winner) (players s)).
    unfold grown. cbn. repeat split. lia. }
  intros _.
  apply stays_bind; [apply stays_modify; table_setter|]. intros _.
  apply stays_bind; [|intro; apply stays_ret].
  destruct (_ >=? _);
    (apply stays_bind; [apply stays_modify; table_setter|]; intros _;
     apply stays_modify; table_setter).
Qed.

Lemma stays_remove j cid :
  stays (modify_player j (fun q => set_hand (remove_by_id cid (hand q)) q)).
Proof.
  apply stays_modify_player; [|reflexivity].
  intro q. unfold grown. cbn. repeat split. lia.
Qed.

Ltac stay :=
  repeat match goal with
  | H : stays ?m |- stays ?m => exact H
  | H : forall x, stays (?m x) |- stays (?m _) => apply H
  | |- stays (bind _ _) => apply stays_bind; [| intro]
  | |- stays (ret _) => apply stays_ret
  | |- stays (raise _) => apply stays_raise
  | |- stays get => apply stays_get
  | |- stays touch => apply stays_touch
  | |- stays (advance _) => apply stays_advance
  | |- stays (flip_if _) => apply stays_flip_if
  | |- stays (_apply_action_effects_after_play _) => apply stays_effects
  | |- stays _resolve_round_if_won => apply stays_resolve
  | |- stays (from_option _ _) => apply stays_from_option
  | |- stays (_draw_cards_to_player _ _) => apply stays_draw_cards
  | |- stays _draw_one => apply stays_draw_one
  | |- stays (modify_player _ _) => apply stays_remove
  | |- stays (lift_env _) => apply stays_lift_env
  | |- stays (player_at _) => apply stays_readonly, readonly_player_at
  | |- stays (_require_turn _) => apply stays_readonly, readonly_require_turn
  | |- stays (modify _) => apply stays_modify; solve [table_setter]
  | |- stays (if ?b then _ else _) => destruct b
  | |- stays (match ?o with Some _ => _ | None => _ end) => destruct o
  end.

Lemma stays_driver fuel : stays (_auto_resolve_ai_turns fuel).
Proof.
  induction fuel as [|fuel IH]; [intro w; apply same_table_refl|].
  cbn [_auto_resolve_ai_turns].
  apply stays_bind; [apply stays_get|]. intro s.
  destruct (negb (status_eqb (status s) playing)); [apply stays_ret|].
  apply stays_bind; [apply stays_from_option|]. intro i.
  apply stays_bind; [apply stays_readonly, readonly_player_at|]. intro cur.
  destruct (negb (is_ai cur)); [apply stays_ret|].
  destruct (pending_draw s >? 0); [unfold discard_append; stay|].
  destruct (_ai_choose_play s cur) as [[chosen|] wc]; unfold discard_append; stay.
Qed.

Lemma stays_play_card fuel p cid col : stays (play_card fuel p cid col).
Proof.
  pose proof (stays_driver fuel) as Hd.
  unfold play_card, discard_append. stay.
Qed.

Lemma stays_draw_card fuel p : stays (draw_card fuel p).
Proof.
  pose proof (stays_driver fuel) as Hd.
  unfold draw_card, discard_append. stay.
Qed.

Lemma stays_pass_turn fuel p : stays (pass_turn fuel p).
Proof.
  pose proof (stays_driver fuel) as Hd.
  unfold pass_turn. stay.
Qed.

Lemma stays_update_settings patch : stays (update_settings patch).
Proof.
  unfold update_settings, when_some, modify_settings. stay.
  apply stays_modify. intro s. unfold same_table. cbn.
  repeat split.
  - destruct (players s) as [|q0 ps]; cbn; constructor; [apply grown_refl|].
    induction ps as [|q ps IH]; cbn; constructor; auto.
    unfold grown. cbn. repeat split. lia.
  - destruct (players s); reflexivity.
Qed.

Lemma stays_deal js : stays (deal js).
Proof. induction js as [|j js IH]; cbn [deal]; stay. Qed.

Lemma stays_restart_round : stays restart_round.
Proof.
  pose proof stays_deal as Hd.
  unfold restart_round, _find_starting_discard, rng_choice_color, apply_start_effect.
  apply stays_bind.
  { apply stays_modify. intro s. unfold same_table. cbn. repeat split.
    - induction (players s) as [|q ps IH]; cbn; constructor; auto.
      unfold grown. cbn. repeat split. lia.
    - destruct (players s); reflexivity. }
  intros _. stay.
Qed.

Lemma stays_run_action fuel a : stays (run_action fuel a).
Proof.
  destruct a; cbn [run_action].
  - apply stays_play_card.
  - apply stays_bind; [apply stays_draw_card | intro; apply stays_ret].
  - apply stays_pass_turn.
  - apply stays_update_settings.
  - apply stays_restart_round.
Qed.

(** X27 — The table never changes under the engine's operations: over any
    sequence of requests (plays, draws, passes, settings patches, restarts;
    accepted or refused) the game keeps its id and creation time, the players
    stay the same in number, order, ids and names, no score ever goes down
    (not even at a restart), and the first player's automation flag is
    never changed (a settings patch switches the others only). *)
Theorem script_keeps_table (fuel : nat) (acts : list Action) (w : World) :
  let s := game w in
  let s' := game (run_script fuel acts w) in
  gid s' = gid s
  /\ created_at s' = created_at s
  /\ map pid (players s') = map pid (players s)
  /\ map name (players s') = map name (players s)
  /\ Forall2 (fun q q' => score q <= score q') (players s) (players s')
  /\ option_map is_ai (hd_error (players s')) = option_map is_ai (hd_error (players s)).
Proof.
  cbv zeta.
  assert (H : same_table (game w) (game (run_script fuel acts w))).
  { revert w; induction acts as [|a acts IH]; intro w; cbn [run_script].
    - apply same_table_refl.
    - eapply same_table_trans; [apply stays_run_action | apply IH]. }
  destruct H as (H1 & H2 & H3 & H4).
  split; [exact H1|]. split; [exact H2|].
  assert (G : forall l l', Forall2 grown l l' ->
            map pid l' = map pid l /\ map name l' = map name l
            /\ Forall2 (fun q q' => score q <= score q') l l').
  { induction 1 as [|a b l l' (G1 & G2 & G3) _ (I1 & I2 & I3)]; cbn.
    - repeat split. constructor.
    - rewrite G1, G2, I1, I2. repeat split. constructor; auto. }
  destruct (G _ _ H3) as (G1 & G2 & G3). auto.
Qed.

(** ** One turn of an automated player *)

Lemma ai_choose_play_wild s p c wc :
  _ai_choose_play s p = (Some c, wc) ->
  wc = if is_valid_color (color c) then None else Some (_ai_choose_color p).
Proof.
  unfold _ai_choose_play. destruct (py_last (discard_pile s)); [|discriminate].
  destruct (sort_by_prio _) as [|x rest]; [discriminate|].
  intro H. injection H as -> <-. destruct (color c); reflexivity.
Qed.

(** X28 — A turn of an automated player that holds a playable card, with no
    penalty pending: the driver plays the card [_ai_choose_play] selects — the
    card leaves that player's hand for the top of the discard pile, the
    current colour becomes the card's colour, or for a wild card the colour
    [_ai_choose_color] picks from the hand, and the card's effect and the
    turn advance apply as for a human play. Unlike [play_card], the driver
    makes no Wild Draw Four check, and it leaves the message, the drawn-card
    marker and the play-or-pass flag as they were. When the card does not
    empty the hand and the player now to act is not automated, the driver
    returns in exactly that state. *)
Theorem driver_plays_chosen_card (fuel : nat) (w : World) (i : nat) (cur : Player)
  (chosen : UnoCard) (wc : option CardColor) :
  let s := game w in
  let eff := steps_of (List.length (players s)) (value chosen) in
  let d' := if snd eff then - direction s else direction s in
  status s = playing ->
  py_index (players s) (current_player_index s) = Some i ->
  nth_error (players s) i = Some cur ->
  is_ai cur = true ->
  pending_draw s <= 0 ->
  _ai_choose_play s cur = (Some chosen, wc) ->
  (forall r, In r (without_card chosen i (players s)) -> hand r <> []) ->
  human_at (players s) (seat_after s d' (fst eff)) ->
  _auto_resolve_ai_turns (S (S fuel)) w
  = (Return tt,
     mkWorld
       (set_updated_at (now (env w))
          (set_current_player_index (seat_after s d' (fst eff))
             (set_direction d'
                (set_pending_draw (pending_draw s + penalty chosen)
                   (set_discard_pile (discard_pile s ++ [chosen])
                      (set_players (without_card chosen i (players s))
                         (set_current_color
                            (Some (if is_valid_color (color chosen) then color chosen
                                   else _ai_choose_color cur)) s)))))))
       (tick (env w))).
Proof.
  intros s eff d' Hst Hi Hcur Hai Hpd Hch Hnone Hnext. subst s eff d'.
  assert (Hne : players (game w) <> []).
  { intro E. rewrite E in Hcur. destruct i; discriminate. }
  assert (Hgt : (pending_draw (game w) >? 0) = false)
    by (rewrite Z.gtb_ltb; apply Z.ltb_ge; lia).
  assert (Hlen : forall f, List.length (list_alter f i (players (game w)))
                           = List.length (players (game w)))
    by (intro f; apply list_alter_length).
  pose proof (ai_choose_play_wild _ _ Hch) as Hwc.
  remember (S fuel) as fuel1 eqn:Hf.
  cbn [_auto_resolve_ai_turns].
  rewrite bind_get, Hst. cbn [status_eqb negb]. rewrite Hi.
  rewrite (bind_Return _ _ _ (from_option_Some _ i w)).
  rewrite (bind_Return _ _ _ (player_at_eq i w Hcur)).
  rewrite Hai. cbn [negb]. rewrite Hgt, Hch.
  unfold modify_player, discard_append. rewrite !bind_modify. cbn [game env].
  set (col := if is_valid_color (color chosen) then color chosen
              else _ai_choose_color cur).
  match goal with |- bind ?m ?k ?W = _ =>
    assert (Hcol : m W = (Return tt,
                          mkWorld (set_current_color (Some col) (game W)) (env W)))
  end.
  { unfold col. destruct (is_valid_color (color chosen)); [reflexivity|].
    erewrite bind_Return.
    2:{ apply player_at_eq. cbn. rewrite list_alter_nth, Hcur. reflexivity. }
    rewrite Hwc. reflexivity. }
  rewrite (bind_Return _ _ _ Hcol). cbn [game env].
  rewrite (bind_Return _ _ _ (effects_eq chosen _)). cbn [game env].
  rewrite (bind_Return _ _ _ (flip_if_eq _ _)). cbn [game env].
  erewrite bind_Return.
  2:{ apply resolve_none. cbn. exact Hnone. }
  cbv iota.
  erewrite bind_Return.
  2:{ apply advance_eq. cbn. intro E.
      apply (f_equal (@List.length _)) in E. rewrite Hlen in E.
      destruct (players (game w)); [congruence | discriminate]. }
  cbv beta. unfold bind at 1. rewrite touch_eq. cbv beta iota. cbn [game env].
  subst fuel1.
  rewrite driver_idle.
  - apply (f_equal (fun x => (Return tt, mkWorld x (tick (env w))))).
    apply state_ext; cbn; rewrite ?Hlen; reflexivity.
  - cbn. rewrite Hlen. apply Z.mod_pos_bound.
    destruct (players (game w)); [congruence | simpl List.length; lia].
  - cbn. rewrite Hlen. apply human_at_alter; [reflexivity|]. exact Hnext.
Qed.

(** A table of two people and one automated player, who holds red cards and
    a Wild Draw Four while red is the current colour. *)
Definition cpu_state : GameState :=
  mkState "g" playing 0 0
    [mkPlayer "p1" "You" false 0 [mkCard "a" red V1; mkCard "b" blue V3];
     mkPlayer "p2" "CPU" true 0
       [mkCard "c" red V9; mkCard "d" wild WILD_DRAW_FOUR; mkCard "e" red V2];
     mkPlayer "p3" "Bob" false 0 [mkCard "f" green V4]]
    1 1 [mkCard "x" yellow V1; mkCard "y" green V2] [mkCard "t" red V5]
    (Some red) 0 false None None None default_settings.

Lemma driver_plays_chosen_card_witness :
  _auto_resolve_ai_turns 2 (mkWorld cpu_state demo_env)
  = (Return tt,
     mkWorld
       (set_updated_at 0
          (set_current_player_index 0
             (set_direction 1
                (set_pending_draw 4
                   (set_discard_pile [mkCard "t" red V5; mkCard "d" wild WILD_DRAW_FOUR]
                      (set_players
                         (without_card (mkCard "d" wild WILD_DRAW_FOUR) 1
                            (players cpu_state))
                         (set_current_color (Some red) cpu_state)))))))
       (tick demo_env)).
Proof.
  apply (@driver_plays_chosen_card 0 (mkWorld cpu_state demo_env) 1%nat
           (mkPlayer "p2" "CPU" true 0
              [mkCard "c" red V9; mkCard "d" wild WILD_DRAW_FOUR; mkCard "e" red V2])
           (mkCard "d" wild WILD_DRAW_FOUR) (Some red)).
  - reflexivity.
  - reflexivity.
  - reflexivity.
  - reflexivity.
  - cbn. lia.
  - reflexivity.
  - intros r [<-|[<-|[<-|[]]]]; discriminate.
  - eexists. split; reflexivity.
Defined.

(** X29 — A turn of an automated player that finds a penalty pending: the
    driver draws exactly [pending_draw] cards into that player's hand, resets
    the penalty to 0, clears the drawn-card marker and the play-or-pass flag,
    moves the turn one seat on and refreshes the time stamp; the automated
    player plays no card, and the message is left as it was. When the player
    now to act is not automated, the driver returns in exactly that state. *)
Theorem driver_takes_penalty (fuel : nat) (w : World) (i : nat) (cur : Player) :
  let s := game w in
  status s = playing ->
  py_index (players s) (current_player_index s) = Some i ->
  nth_error (players s) i = Some cur ->
  is_ai cur = true ->
  0 < pending_draw s ->
  human_at (players s) (seat_after s (direction s) 1) ->
  exists new w1,
    _draw_cards_to_player i (pending_draw s) w = (Return new, w1)
    /\ List.length new = Z.to_nat (pending_draw s)
    /\ players (game w1) = list_alter (append_hand new) i (players s)
    /\ _auto_resolve_ai_turns (S (S fuel)) w
       = (Return tt,
          mkWorld
            (set_updated_at (now (env w1))
               (set_current_player_index (seat_after s (direction s) 1)
                  (set_last_drawn_card_id None
                     (set_must_play_or_pass false (set_pending_draw 0 (game w1))))))
            (tick (env w1))).
Proof.
  intros s Hst Hi Hcur Hai Hpd Hnext. subst s.
  assert (Hne : players (game w) <> []).
  { intro E. rewrite E in Hcur. destruct i; discriminate. }
  assert (Hgt : (pending_draw (game w) >? 0) = true)
    by (rewrite Z.gtb_ltb; apply Z.ltb_lt; lia).
  destruct (draw_cards_total i (pending_draw (game w)) w)
    as (new & w1 & E & Hlen & Hc & Hp).
  destruct (core_fields Hc) as (_ & Hi1 & Hd1 & _).
  assert (Hl1 : List.length (players (game w1)) = List.length (players (game w))).
  { rewrite Hp. apply list_alter_length. }
  exists new, w1. split; [exact E|]. split; [lia|]. split; [exact Hp|].
  remember (S fuel) as fuel1 eqn:Hf.
  cbn [_auto_resolve_ai_turns].
  rewrite bind_get, Hst. cbn [status_eqb negb]. rewrite Hi.
  rewrite (bind_Return _ _ _ (from_option_Some _ i w)).
  rewrite (bind_Return _ _ _ (player_at_eq i w Hcur)).
  rewrite Hai. cbn [negb]. rewrite Hgt.
  rewrite (bind_Return _ _ _ E).
  rewrite !bind_modify. cbn [game env].
  erewrite bind_Return.
  2:{ apply advance_eq. cbn. intro E0.
      apply (f_equal (@List.length _)) in E0. rewrite Hl1 in E0.
      destruct (players (game w)); [congruence | discriminate]. }
  cbv beta. unfold bind at 1. rewrite touch_eq. cbv beta iota. cbn [game env].
  subst fuel1.
  rewrite driver_idle.
  - apply (f_equal (fun x => (Return tt, mkWorld x (tick (env w1))))).
    apply state_ext; cbn; unfold seat_after; rewrite ?Hl1, ?Hi1, ?Hd1; reflexivity.
  - cbn. rewrite Hl1. apply Z.mod_pos_bound.
    destruct (players (game w)); [congruence | simpl List.length; lia].
  - cbn. rewrite Hl1, Hi1, Hd1, Hp.
    apply human_at_alter; [reflexivity|]. exact Hnext.
Qed.

(** The automated player of [cpu_state] under a penalty of two. *)
Definition cpu_penalty_state : GameState := set_pending_draw 2 cpu_state.

Lemma driver_takes_penalty_witness :
  exists new w1,
    _draw_cards_to_player 1 2 (mkWorld cpu_penalty_state demo_env) = (Return new, w1)
    /\ List.length new = 2%nat
    /\ players (game w1) = list_alter (append_hand new) 1 (players cpu_penalty_state)
    /\ _auto_resolve_ai_turns 2 (mkWorld cpu_penalty_state demo_env)
       = (Return tt,
          mkWorld
            (set_updated_at (now (env w1))
               (set_current_player_index 2
                  (set_last_drawn_card_id None
                     (set_must_play_or_pass false (set_pending_draw 0 (game w1))))))
            (tick (env w1))).
Proof.
  apply (@driver_takes_penalty 0 (mkWorld cpu_penalty_state demo_env) 1%nat
           (mkPlayer "p2" "CPU" true 0
              [mkCard "c" red V9; mkCard "d" wild WILD_DRAW_FOUR; mkCard "e" red V2])).
  - reflexivity.
  - reflexivity.
  - reflexivity.
  - reflexivity.
  - cbn. lia.
  - eexists. split; reflexivity.
Defined.

(** X30 — A turn of an automated player that holds no playable card, with no
    penalty pending and a card on the draw pile: the driver draws the last
    card of the draw pile into that player's hand; unless automatic play is
    on and the card can be played, the turn then moves one seat on and the
    time stamp is refreshed, and nothing else changes (the drawn-card marker
    is not set, the message is left as it was). When the player now to act is
    not automated, the driver returns in exactly that state. *)
Theorem driver_draws_without_play (fuel : nat) (w : World) (i : nat) (cur : Player)
  (wc : option CardColor) (d : list UnoCard) (c : UnoCard) :
  let s := game w in
  status s = playing ->
  py_index (players s) (current_player_index s) = Some i ->
  nth_error (players s) i = Some cur ->
  is_ai cur = true ->
  pending_draw s <= 0 ->
  _ai_choose_play s cur = (None, wc) ->
  draw_pile s = d ++ [c] ->
  (auto_play_if_drawn_playable (settings s) = false
   \/ exists top, py_last (discard_pile s) = Some top
                  /\ can_play_on c top (current_color s) = false) ->
  human_at (players s) (seat_after s (direction s) 1) ->
  _auto_resolve_ai_turns (S (S fuel)) w
  = (Return tt,
     mkWorld
       (set_updated_at (now (env w))
          (set_current_player_index (seat_after s (direction s) 1)
             (set_players (list_alter (append_hand [c]) i (players s))
                (set_draw_pile d s))))
       (tick (env w))).
Proof.
  intros s Hst Hi Hcur Hai Hpd Hch Hdraw Hauto Hnext. subst s.
  assert (Hne : players (game w) <> []).
  { intro E. rewrite E in Hcur. destruct i; discriminate. }
  assert (Hgt : (pending_draw (game w) >? 0) = false)
    by (rewrite Z.gtb_ltb; apply Z.ltb_ge; lia).
  assert (Hlen : forall f, List.length (list_alter f i (players (game w)))
                           = List.length (players (game w)))
    by (intro f; apply list_alter_length).
  remember (S fuel) as fuel1 eqn:Hf.
  cbn [_auto_resolve_ai_turns].
  rewrite bind_get, Hst. cbn [status_eqb negb]. rewrite Hi.
  rewrite (bind_Return _ _ _ (from_option_Some _ i w)).
  rewrite (bind_Return _ _ _ (player_at_eq i w Hcur)).
  rewrite Hai. cbn [negb]. rewrite Hgt, Hch.
  rewrite (bind_Return _ _ _ (draw_cards_one i w (draw_one_pop w d c Hdraw))).
  cbn [hd_error from_option game env]. rewrite bind_ret, bind_get.
  cbn [game env discard_pile set_players set_draw_pile settings current_color].
  match goal with |- bind ?m ?k ?W = _ =>
    assert (Hno : m W = (Return false, W))
  end.
  { destruct Hauto as [-> | (top & Ht & Hc)]; [reflexivity|].
    destruct (auto_play_if_drawn_playable (settings (game w))); [|reflexivity].
    rewrite Ht. cbn [from_option]. rewrite bind_ret, Hc. reflexivity. }
  rewrite (bind_Return _ _ _ Hno). cbv iota.
  erewrite bind_Return.
  2:{ apply advance_eq. cbn. intro E.
      apply (f_equal (@List.length _)) in E. rewrite Hlen in E.
      destruct (players (game w)); [congruence | discriminate]. }
  cbv beta. unfold bind at 1. rewrite touch_eq. cbv beta iota. cbn [game env].
  subst fuel1.
  rewrite driver_idle.
  - apply (f_equal (fun x => (Return tt, mkWorld x (tick (env w))))).
    apply state_ext; cbn; unfold seat_after; rewrite ?Hlen; reflexivity.
  - cbn. rewrite Hlen. apply Z.mod_pos_bound.
    destruct (players (game w)); [congruence | simpl List.length; lia].
  - cbn. rewrite Hlen. apply human_at_alter; [reflexivity|]. exact Hnext.
Qed.

(** An automated player with nothing to play on a red five. *)
Definition cpu_stuck_state : GameState :=
  mkState "g" playing 0 0
    [mkPlayer "p1" "You" false 0 [mkCard "a" red V1; mkCard "b" blue V3];
     mkPlayer "p2" "CPU" true 0 [mkCard "c" blue V9; mkCard "e" green V2]]
    1 1 [mkCard "x" yellow V1; mkCard "y" green V7] [mkCard "t" red V5]
    (Some red) 0 false None None None default_settings.

Lemma driver_draws_without_play_witness :
  _auto_resolve_ai_turns 2 (mkWorld cpu_stuck_state demo_env)
  = (Return tt,
     mkWorld
       (set_updated_at 0
          (set_current_player_index 0
             (set_players
                (list_alter (append_hand [mkCard "y" green V7]) 1 (players cpu_stuck_state))
                (set_draw_pile [mkCard "x" yellow V1] cpu_stuck_state))))
       (tick demo_env)).
Proof.
  apply (@driver_draws_without_play 0 (mkWorld cpu_stuck_state demo_env) 1%nat
           (mkPlayer "p2" "CPU" true 0 [mkCard "c" blue V9; mkCard "e" green V2])
           None [mkCard "x" yellow V1] (mkCard "y" green V7)).
  - reflexivity.
  - reflexivity.
  - reflexivity.
  - reflexivity.
  - cbn. lia.
  - reflexivity.
  - reflexivity.
  - right. exists (mkCard "t" red V5). split; reflexivity.
  - eexists. split; reflexivity.
Defined.

(** * Determinism up to identifiers and time *)

(** ** Lists under a map *)

Section ListMaps.
Context {A B : Type} (f : A -> B).

Lemma list_set_map (l : list A) i v :
  list_set (map f l) i (f v) = map f (list_set l i v).
Proof.
  revert i; induction l as [|a l IH]; intros [|i]; cbn; auto. now rewrite IH.
Qed.

Lemma swap_map (l : list A) i j : swap (map f l) i j = map f (swap l i j).
Proof.
  unfold swap. rewrite !nth_error_map.
  destruct (nth_error l i) as [a|], (nth_error l j) as [b|]; cbn; auto.
  now rewrite !list_set_map.
Qed.

Lemma shuffle_from_map i (l : list A) g :
  shuffle_from i (map f l) g
  = (map f (fst (shuffle_from i l g)), snd (shuffle_from i l g)).
Proof.
  revert l g; induction i as [|i IH]; intros l g; cbn [shuffle_from]; [reflexivity|].
  destruct (randbelow (S (S i)) g) as [j g']. rewrite swap_map. apply IH.
Qed.

Lemma shuffle_map (l : list A) g :
  shuffle (map f l) g = (map f (fst (shuffle l g)), snd (shuffle l g)).
Proof. unfold shuffle. rewrite length_map. apply shuffle_from_map. Qed.

Lemma py_last_map (l : list A) : py_last (map f l) = option_map f (py_last l).
Proof.
  unfold py_last. rewrite <- map_rev. destruct (rev l); reflexivity.
Qed.

Lemma removelast_map (l : list A) : removelast (map f l) = map f (removelast l).
Proof.
  induction l as [|a [|b l] IH]; cbn; auto. cbn in IH. now rewrite IH.
Qed.

Lemma find_index_map (p : B -> bool) (l : list A) :
  find_index p (map f l) = find_index (fun x => p (f x)) l.
Proof. induction l as [|a l IH]; cbn; auto. now rewrite IH. Qed.

Lemma find_map (p : B -> bool) (l : list A) :
  find p (map f l) = option_map f (find (fun x => p (f x)) l).
Proof. induction l as [|a l IH]; cbn; auto. destruct (p (f a)); auto. Qed.

Lemma filter_map_comm (p : B -> bool) (l : list A) :
  filter p (map f l) = map f (filter (fun x => p (f x)) l).
Proof.
  induction l as [|a l IH]; cbn; auto. destruct (p (f a)); cbn; now rewrite IH.
Qed.

Lemma existsb_map_comm (p : B -> bool) (l : list A) :
  existsb p (map f l) = existsb (fun x => p (f x)) l.
Proof. induction l as [|a l IH]; cbn; auto. now rewrite IH. Qed.

Lemma py_index_map (l : list A) i : py_index (map f l) i = py_index l i.
Proof. unfold py_index. now rewrite length_map. Qed.

Lemma hd_error_map (l : list A) : hd_error (map f l) = option_map f (hd_error l).
Proof. destruct l; reflexivity. Qed.
End ListMaps.

Lemma find_index_ext {A} (p q : A -> bool) (l : list A) :
  (forall x, p x = q x) -> find_index p l = find_index q l.
Proof. intro H. induction l as [|a l IH]; cbn; auto. now rewrite H, IH. Qed.

Lemma find_ext {A} (p q : A -> bool) (l : list A) :
  (forall x, p x = q x) -> find p l = find q l.
Proof. intro H. induction l as [|a l IH]; cbn; auto. now rewrite H, IH. Qed.

(** ** Renaming the identifiers and forgetting the time

    [rho] renames the tokens of [uuid4] (the game id and the card ids); the
    time stamps are set to 0 and the clock to one that always reads 0, [d]
    readings further on. *)

Section Renaming.
Variable rho : string -> string.
Variable d : nat.
Hypothesis rho_inj : forall a b, rho a = rho b -> a = b.

Definition ren_card (c : UnoCard) : UnoCard := mkCard (rho (card_id c)) (color c) (value c).

Definition ren_player (p : Player) : Player := set_hand (map ren_card (hand p)) p.

Definition ren_state (s : GameState) : GameState :=
  mkState (rho (gid s)) (status s) 0 0 (map ren_player (players s))
    (current_player_index s) (direction s) (map ren_card (draw_pile s))
    (map ren_card (discard_pile s)) (current_color s) (pending_draw s)
    (must_play_or_pass s) (option_map rho (last_drawn_card_id s))
    (winner_player_id s) (message s) (settings s).

Definition ren_uuid (u : Oracle string) : Oracle string :=
  mkOracle (fun n => rho (feed u n)) (cursor u).

Definition still_clock (c : Oracle Z) : Oracle Z :=
  mkOracle (fun _ => 0) (cursor c + d).

Definition ren_env (e : Env) : Env :=
  mkEnv (rng e) (ren_uuid (uuid e)) (still_clock (clock e)).

Definition ren_world (w : World) : World := mkWorld (ren_state (game w)) (ren_env (env w)).

Definition omap {A B} (f : A -> B) (o : Outcome A) : Outcome B :=
  match o with
  | Return a => Return (f a)
  | Raise e => Raise e
  | OutOfFuel => OutOfFuel
  end.

(** [m2] does on the renamed world what [m1] does on the world, up to the
    renaming [f] of what is returned. *)
Definition comm {A B} (f : A -> B) (m1 : M A) (m2 : M B) : Prop :=
  forall w, m2 (ren_world w) = (omap f (fst (m1 w)), ren_world (snd (m1 w))).

Lemma comm_ret {A B} (f : A -> B) a : comm f (ret a) (ret (f a)).
Proof. intro w. reflexivity. Qed.

Lemma comm_raise {A B} (f : A -> B) e : comm f (raise e) (raise e).
Proof. intro w. reflexivity. Qed.

Lemma comm_bind {A A' B B'} (f : A -> A') (g : B -> B')
  (m1 : M A) (m2 : M A') (k1 : A -> M B) (k2 : A' -> M B') :
  comm f m1 m2 -> (forall a, comm g (k1 a) (k2 (f a))) ->
  comm g (bind m1 k1) (bind m2 k2).
Proof.
  intros Hm Hk w. unfold bind. rewrite Hm.
  destruct (m1 w) as [[a|e|] w1]; cbn [fst snd omap]; auto. apply Hk.
Qed.

Lemma comm_get : comm ren_state get get.
Proof. intro w. reflexivity. Qed.

Lemma comm_modify (f1 f2 : GameState -> GameState) :
  (forall s, f2 (ren_state s) = ren_state (f1 s)) ->
  comm (fun x : unit => x) (modify f1) (modify f2).
Proof. intros H w. unfold modify. cbn. now rewrite H. Qed.

Lemma comm_lift_env {A B} (h : A -> B) (f1 : Env -> A * Env) (f2 : Env -> B * Env) :
  (forall e, f2 (ren_env e) = (h (fst (f1 e)), ren_env (snd (f1 e)))) ->
  comm h (lift_env f1) (lift_env f2).
Proof.
  intros H w. unfold lift_env. cbn [ren_world env game]. rewrite H.
  destruct (f1 (env w)) as [a e']. reflexivity.
Qed.

Lemma comm_from_option {A B} (f : A -> B) e (o : option A) :
  comm f (from_option e o) (from_option e (option_map f o)).
Proof. intro w. destruct o; reflexivity. Qed.

(** The same computation on both sides, when it returns no identifier. *)
Definition same {A} (m : M A) : Prop := comm (fun x : A => x) m m.

Lemma comm_ext {A B} (f : A -> B) (m1 : M A) (m2 m2' : M B) :
  (forall w, m2 w = m2' w) -> comm f m1 m2' -> comm f m1 m2.
Proof. intros H Hc w. rewrite H. apply Hc. Qed.

(** *** Cards and players under the renaming *)

Lemma ren_card_color c : color (ren_card c) = color c.
Proof. reflexivity. Qed.

Lemma ren_card_value c : value (ren_card c) = value c.
Proof. reflexivity. Qed.

Lemma id_eqb_ren a b : String.eqb (rho a) (rho b) = String.eqb a b.
Proof.
  destruct (String.eqb a b) eqn:E.
  - apply String.eqb_eq in E. subst. apply String.eqb_refl.
  - apply String.eqb_neq. intro H. apply rho_inj in H.
    apply String.eqb_neq in E. contradiction.
Qed.

Lemma remove_by_id_ren cid h :
  remove_by_id (rho cid) (map ren_card h) = map ren_card (remove_by_id cid h).
Proof.
  unfold remove_by_id. rewrite filter_map_comm. f_equal.
  apply filter_ext. intro c. cbn. now rewrite id_eqb_ren.
Qed.

Lemma find_card_ren cid h :
  find (fun c => String.eqb (card_id c) (rho cid)) (map ren_card h)
  = option_map ren_card (find (fun c => String.eqb (card_id c) cid) h).
Proof.
  rewrite find_map. f_equal. apply find_ext. intro c. cbn. apply id_eqb_ren.
Qed.

Lemma can_play_on_ren c t col :
  can_play_on (ren_card c) (ren_card t) col = can_play_on c t col.
Proof. reflexivity. Qed.

Lemma score_card_ren c : score_card (ren_card c) = score_card c.
Proof. reflexivity. Qed.

Lemma count_color_ren h c : count_color (map ren_card h) c = count_color h c.
Proof.
  unfold count_color. rewrite filter_map_comm, length_map. reflexivity.
Qed.

Lemma ai_choose_color_ren p : _ai_choose_color (ren_player p) = _ai_choose_color p.
Proof.
  unfold _ai_choose_color. cbn [hand ren_player set_hand fold_left].
  now rewrite !count_color_ren.
Qed.

Lemma map_flat_map {X Y Z} (g : Y -> Z) (h : X -> list Y) (l : list X) :
  map g (flat_map h l) = flat_map (fun x => map g (h x)) l.
Proof. induction l as [|a l IH]; cbn; auto. now rewrite map_app, IH. Qed.

Lemma sort_by_prio_ren l : sort_by_prio (map ren_card l) = map ren_card (sort_by_prio l).
Proof.
  unfold sort_by_prio. rewrite map_flat_map. apply flat_map_ext. intro k.
  apply filter_map_comm.
Qed.

Lemma ai_choose_play_ren s p :
  _ai_choose_play (ren_state s) (ren_player p)
  = (option_map ren_card (fst (_ai_choose_play s p)), snd (_ai_choose_play s p)).
Proof.
  unfold _ai_choose_play. cbn [discard_pile current_color ren_state].
  change (hand (ren_player p)) with (map ren_card (hand p)).
  rewrite py_last_map. destruct (py_last (discard_pile s)) as [top|]; cbn [option_map];
    [|reflexivity].
  rewrite filter_map_comm, sort_by_prio_ren.
  rewrite (filter_ext _ (fun c => can_play_on c top (current_color s)))
    by (intro c; apply can_play_on_ren).
  destruct (sort_by_prio _) as [|x rest]; cbn [map option_map fst snd]; [reflexivity|].
  rewrite ai_choose_color_ren. reflexivity.
Qed.

Lemma hand_points_ren acc h : hand_points acc (map ren_card h) = hand_points acc h.
Proof.
  unfold hand_points. revert acc; induction h as [|c h IH]; intro acc; cbn; auto.
Qed.

Lemma round_points_ren wid ps :
  round_points wid (map ren_player ps) = round_points wid ps.
Proof.
  unfold round_points. generalize 0 as acc.
  induction ps as [|p ps IH]; intro acc; cbn [map fold_left]; auto.
  change (pid (ren_player p)) with (pid p).
  change (hand (ren_player p)) with (map ren_card (hand p)).
  rewrite hand_points_ren. apply IH.
Qed.

Lemma new_cards_ren faces u :
  new_cards faces (ren_uuid u)
  = (map ren_card (fst (new_cards faces u)), ren_uuid (snd (new_cards faces u))).
Proof.
  revert u; induction faces as [|[c v] fs IH]; intro u; cbn [new_cards]; [reflexivity|].
  unfold _new_card_id, next. cbn [feed cursor ren_uuid].
  change (mkOracle (fun n => rho (feed u n)) (S (cursor u)))
    with (ren_uuid (mkOracle (feed u) (S (cursor u)))).
  rewrite IH.
  destruct (new_cards fs (mkOracle (feed u) (S (cursor u)))) as [cs u2]. reflexivity.
Qed.

Lemma build_uno_deck_ren e :
  build_uno_deck (ren_env e)
  = (map ren_card (fst (build_uno_deck e)), ren_env (snd (build_uno_deck e))).
Proof.
  unfold build_uno_deck. cbn [uuid rng ren_env].
  generalize deck_faces as fs. intro fs.
  rewrite new_cards_ren.
  destruct (new_cards fs (uuid e)) as [deck u']. cbn [fst snd].
  rewrite shuffle_map.
  destruct (shuffle deck (rng e)) as [deck' g']. reflexivity.
Qed.

(** *** The steps of the engine under the renaming *)

Local Abbreviation idf := (fun x => x).

Lemma comm_time_time : comm (fun _ : Z => 0) time_time time_time.
Proof. unfold time_time. apply comm_lift_env. intro e. reflexivity. Qed.

Lemma same_touch : same touch.
Proof.
  unfold same, touch. eapply comm_bind; [apply comm_time_time|]. intro t. cbv beta.
  apply comm_modify. reflexivity.
Qed.

Lemma same_next_index steps : same (_next_index steps).
Proof.
  unfold same, _next_index. eapply comm_bind; [apply comm_get|]. intro s.
  cbv beta zeta. cbn [players current_player_index direction ren_state].
  rewrite length_map.
  destruct (_ =? 0); [apply comm_raise | apply (comm_ret idf)].
Qed.

Lemma same_advance steps : same (advance steps).
Proof.
  unfold same, advance. eapply comm_bind; [apply same_next_index|]. intro i. cbv beta.
  apply comm_modify. reflexivity.
Qed.

Lemma same_flip_if b : same (flip_if b).
Proof.
  unfold same. destruct b; cbn [flip_if]; [|apply (comm_ret idf)].
  apply comm_modify. reflexivity.
Qed.

Lemma comm_effects c :
  comm idf (_apply_action_effects_after_play c)
           (_apply_action_effects_after_play (ren_card c)).
Proof.
  unfold _apply_action_effects_after_play.
  eapply comm_bind; [apply comm_get|]. intro s. cbv beta zeta.
  cbn [players ren_state value ren_card]. rewrite length_map.
  destruct (value c); try destruct (Nat.eqb _ 2);
    first [ apply (comm_ret idf)
          | eapply comm_bind;
            [apply comm_modify; reflexivity | intro; apply (comm_ret idf)] ].
Qed.

Lemma comm_modify_player j f1 f2 :
  (forall p, f2 (ren_player p) = ren_player (f1 p)) ->
  comm idf (modify_player j f1) (modify_player j f2).
Proof.
  intro H. unfold modify_player. apply comm_modify. intro s.
  unfold ren_state, set_players. cbn.
  now rewrite (map_list_alter ren_player f1 f2 j (players s)) by (intro; symmetry; apply H).
Qed.

Lemma comm_player_at j : comm ren_player (player_at j) (player_at j).
Proof.
  unfold player_at. eapply comm_bind; [apply comm_get|]. intro s. cbv beta.
  cbn [players ren_state]. rewrite nth_error_map. apply comm_from_option.
Qed.

Lemma comm_discard_append c : comm idf (discard_append c) (discard_append (ren_card c)).
Proof.
  unfold discard_append. apply comm_modify. intro s.
  unfold ren_state, set_discard_pile. cbn. now rewrite map_app.
Qed.

Lemma comm_rng_shuffle l :
  comm (map ren_card) (rng_shuffle l) (rng_shuffle (map ren_card l)).
Proof.
  unfold rng_shuffle. apply comm_lift_env. intro e. cbn [rng ren_env].
  rewrite shuffle_map. destruct (shuffle l (rng e)) as [r g']. reflexivity.
Qed.

Lemma same_rng_choice_color : same rng_choice_color.
Proof.
  unfold same, rng_choice_color. apply comm_lift_env. intro e. cbn [rng ren_env].
  destruct (choice red VALID_COLORS (rng e)) as [c g']. reflexivity.
Qed.

Lemma same_reshuffle : same _reshuffle_if_needed.
Proof.
  unfold same, _reshuffle_if_needed.
  eapply comm_bind; [apply comm_get|]. intro s. cbv beta.
  cbn [draw_pile discard_pile ren_state].
  destruct (draw_pile s) as [|x t]; cbn [map]; [|apply (comm_ret idf)].
  rewrite length_map, py_last_map, removelast_map.
  destruct (_ <=? 1)%nat; [apply (comm_ret idf)|].
  eapply comm_bind; [apply comm_from_option|]. intro top. cbv beta.
  eapply comm_bind; [apply comm_rng_shuffle|]. intro rest. cbv beta.
  eapply comm_bind; [apply comm_modify; reflexivity|]. intros _.
  apply comm_modify. reflexivity.
Qed.

Lemma comm_build_deck : comm (map ren_card) (lift_env build_uno_deck) (lift_env build_uno_deck).
Proof. apply comm_lift_env. intro e. apply build_uno_deck_ren. Qed.

Lemma comm_draw_one : comm ren_card _draw_one _draw_one.
Proof.
  unfold _draw_one.
  eapply comm_bind; [apply same_reshuffle|]. intros _.
  eapply comm_bind; [apply comm_get|]. intro s. cbv beta.
  cbn [draw_pile ren_state].
  eapply (comm_bind (f := idf)).
  { destruct (draw_pile s) as [|x t]; cbn [map]; [|apply (comm_ret idf)].
    eapply comm_bind; [apply comm_build_deck|]. intro deck. cbv beta.
    apply comm_modify. reflexivity. }
  intros _.
  eapply comm_bind; [apply comm_get|]. intro s1. cbv beta.
  cbn [draw_pile ren_state]. rewrite py_last_map, removelast_map.
  eapply comm_bind; [apply comm_from_option|]. intro c. cbv beta.
  eapply comm_bind; [apply comm_modify; reflexivity|]. intros _.
  apply comm_ret.
Qed.

Lemma comm_draw_loop j k drawn :
  comm (map ren_card) (draw_loop j k drawn) (draw_loop j k (map ren_card drawn)).
Proof.
  revert drawn; induction k as [|k IH]; intro drawn; cbn [draw_loop].
  - apply comm_ret.
  - eapply comm_bind; [apply comm_draw_one|]. intro c. cbv beta.
    eapply comm_bind.
    { apply comm_modify_player. intro p. unfold ren_player, set_hand. cbn.
      now rewrite map_app. }
    intros _. cbv beta.
    change (map ren_card drawn ++ [ren_card c]) with (map ren_card drawn ++ map ren_card [c]).
    rewrite <- map_app. apply IH.
Qed.

Lemma comm_draw_cards j count :
  comm (map ren_card) (_draw_cards_to_player j count) (_draw_cards_to_player j count).
Proof. unfold _draw_cards_to_player. apply (comm_draw_loop j _ []). Qed.

Lemma comm_find_starting_discard :
  comm ren_card _find_starting_discard _find_starting_discard.
Proof.
  unfold _find_starting_discard.
  eapply comm_bind; [apply comm_draw_one|]. intro c. cbv beta.
  eapply comm_bind.
  { apply comm_modify. intro s. unfold ren_state, set_discard_pile. cbn.
    now rewrite map_app. }
  intros _. cbn [value color ren_card].
  eapply (comm_bind (f := idf)); [|intros _; apply comm_ret].
  destruct (is_wild_value (value c)); [|destruct (is_valid_color (color c))];
    first [ apply comm_modify; reflexivity
          | eapply comm_bind; [apply same_rng_choice_color|]; intro col; cbv beta;
            apply comm_modify; reflexivity ].
Qed.

Lemma comm_resolve : same _resolve_round_if_won.
Proof.
  unfold same, _resolve_round_if_won.
  eapply comm_bind; [apply comm_get|]. intro s. cbv beta.
  cbn [players settings ren_state].
  rewrite find_index_map.
  rewrite (find_index_ext (fun x => (List.length (hand (ren_player x)) =? 0)%nat)
             (fun p => (List.length (hand p) =? 0)%nat))
    by (intro p; cbn; now rewrite length_map).
  destruct (find_index _ (players s)) as [k|]; [|apply (comm_ret idf)].
  eapply comm_bind; [apply comm_player_at|]. intro winner. cbv beta zeta.
  change (pid (ren_player winner)) with (pid winner).
  change (score (ren_player winner)) with (score winner).
  change (name (ren_player winner)) with (name winner).
  rewrite round_points_ren.
  eapply comm_bind; [apply comm_modify_player; intro p; reflexivity|]. intros _.
  eapply comm_bind; [apply comm_modify; reflexivity|]. intros _.
  eapply (comm_bind (f := idf)); [|intros _; apply (comm_ret idf)].
  destruct (_ >=? _);
    (eapply comm_bind; [apply comm_modify; reflexivity|]; intros _;
     apply comm_modify; reflexivity).
Qed.

Lemma same_require_playing : same _require_playing.
Proof.
  unfold same, _require_playing.
  eapply comm_bind; [apply comm_get|]. intro s. cbv beta. cbn [status ren_state].
  destruct (status_eqb _ _); [apply (comm_ret idf) | apply comm_raise].
Qed.

Lemma same_get_player p : same (_get_player p).
Proof.
  unfold same, _get_player.
  eapply comm_bind; [apply comm_get|]. intro s. cbv beta. cbn [players ren_state].
  rewrite find_index_map. cbn [pid ren_player set_hand].
  destruct (find_index _ (players s)); [apply (comm_ret idf) | apply comm_raise].
Qed.

Lemma same_require_turn p : same (_require_turn p).
Proof.
  unfold same, _require_turn.
  eapply comm_bind; [apply same_require_playing|]. intros _.
  eapply comm_bind; [apply same_get_player|]. intro j. cbv beta.
  eapply comm_bind; [apply comm_get|]. intro s. cbv beta. cbn [players current_player_index ren_state].
  rewrite py_index_map.
  eapply (comm_bind (f := idf)).
  { destruct (py_index _ _); [apply (comm_ret idf) | apply comm_raise]. }
  intro i. cbv beta.
  eapply comm_bind; [apply comm_player_at|]. intro cur. cbv beta.
  change (pid (ren_player cur)) with (pid cur).
  destruct (negb _); [apply comm_raise | apply (comm_ret idf)].
Qed.

Lemma comm_remove j c :
  comm idf
    (modify_player j (fun q => set_hand (remove_by_id (card_id c) (hand q)) q))
    (modify_player j
       (fun q => set_hand (remove_by_id (card_id (ren_card c)) (hand q)) q)).
Proof.
  apply comm_modify_player. intro p. unfold ren_player, set_hand.
  cbn [hand pid name is_ai score card_id ren_card].
  now rewrite remove_by_id_ren.
Qed.

(** Everything a play runs once the colour is settled. *)
Lemma comm_finish {A} (c : UnoCard) (kw1 kw2 : M A) (kc1 kc2 : Z * bool -> M A) :
  comm idf kw1 kw2 -> (forall eff, comm idf (kc1 eff) (kc2 eff)) ->
  comm idf
    (eff <- _apply_action_effects_after_play c ;;
     flip_if (snd eff) ;;
     won <- _resolve_round_if_won ;;
     if (won : bool) then kw1 else kc1 eff)
    (eff <- _apply_action_effects_after_play (ren_card c) ;;
     flip_if (snd eff) ;;
     won <- _resolve_round_if_won ;;
     if (won : bool) then kw2 else kc2 eff).
Proof.
  intros Hw Hc.
  eapply comm_bind; [apply comm_effects|]. intro eff. cbv beta.
  eapply comm_bind; [apply same_flip_if|]. intros _.
  eapply comm_bind; [apply comm_resolve|]. intros [|]; cbv beta; auto.
Qed.

Lemma same_driver fuel : same (_auto_resolve_ai_turns fuel).
Proof.
  unfold same. induction fuel as [|fuel IH]; [intro w; reflexivity|].
  cbn [_auto_resolve_ai_turns].
  eapply comm_bind; [apply comm_get|]. intro s. cbv beta.
  cbn [status players current_player_index pending_draw ren_state].
  destruct (negb (status_eqb (status s) playing)); [apply (comm_ret idf)|].
  rewrite py_index_map.
  eapply (comm_bind (f := idf)).
  { destruct (py_index _ _); [apply (comm_ret idf) | apply comm_raise]. }
  intro i. cbv beta.
  eapply comm_bind; [apply comm_player_at|]. intro cur. cbv beta.
  change (is_ai (ren_player cur)) with (is_ai cur).
  destruct (negb (is_ai cur)); [apply (comm_ret idf)|].
  destruct (pending_draw s >? 0).
  { eapply comm_bind; [apply comm_draw_cards|]. intros _.
    eapply comm_bind; [apply comm_modify; reflexivity|]. intros _.
    eapply comm_bind; [apply comm_modify; reflexivity|]. intros _.
    eapply comm_bind; [apply comm_modify; reflexivity|]. intros _.
    eapply comm_bind; [apply same_advance|]. intros _.
    eapply comm_bind; [apply same_touch|]. intros _.
    exact IH. }
  fold (ren_state s). rewrite ai_choose_play_ren.
  destruct (_ai_choose_play s cur) as [[chosen|] wc]; cbn [option_map fst snd].
  - eapply comm_bind; [apply comm_remove|]. intros _.
    eapply comm_bind; [apply comm_discard_append|]. intros _.
    cbn [color ren_card].
    eapply (comm_bind (f := idf)).
    { destruct (is_valid_color (color chosen)); [apply comm_modify; reflexivity|].
      eapply comm_bind; [apply comm_player_at|]. intro cur'. cbv beta.
      rewrite ai_choose_color_ren. apply comm_modify. reflexivity. }
    intros _. apply comm_finish; [apply same_touch|]. intro eff.
    eapply comm_bind; [apply same_advance|]. intros _.
    eapply comm_bind; [apply same_touch|]. intros _.
    exact IH.
  - eapply comm_bind; [apply comm_draw_cards|]. intro drawn_l. cbv beta.
    rewrite hd_error_map.
    eapply comm_bind; [apply comm_from_option|]. intro drawn. cbv beta.
    eapply comm_bind; [apply comm_get|]. intro s1. cbv beta.
    cbn [settings discard_pile current_color ren_state].
    rewrite py_last_map.
    eapply (comm_bind (f := idf)).
    { destruct (auto_play_if_drawn_playable (settings s1)); [|apply (comm_ret idf)].
      eapply comm_bind; [apply comm_from_option|]. intro top. cbv beta.
      apply (comm_ret idf). }
    intros [|]; cbv beta.
    + eapply comm_bind; [apply comm_remove|]. intros _.
      eapply comm_bind; [apply comm_discard_append|]. intros _.
      cbn [color ren_card].
      eapply (comm_bind (f := idf)).
      { destruct (is_valid_color (color drawn)); [apply comm_modify; reflexivity|].
        eapply comm_bind; [apply comm_player_at|]. intro cur'. cbv beta.
        rewrite ai_choose_color_ren. apply comm_modify. reflexivity. }
      intros _. apply comm_finish; [apply same_touch|]. intro eff.
      eapply comm_bind; [apply same_advance|]. intros _.
      eapply comm_bind; [apply same_touch|]. intros _.
      exact IH.
    + eapply comm_bind; [apply same_advance|]. intros _.
      eapply comm_bind; [apply same_touch|]. intros _.
      exact IH.
Qed.

Lemma same_play_card fuel p cid col :
  comm idf (play_card fuel p cid col) (play_card fuel p (rho cid) col).
Proof.
  unfold play_card.
  eapply comm_bind; [apply same_require_turn|]. intro j. cbv beta.
  eapply comm_bind; [apply comm_get|]. intro s. cbv beta.
  cbn [pending_draw discard_pile current_color settings ren_state].
  destruct (pending_draw s >? 0); [apply comm_raise|].
  rewrite py_last_map.
  destruct (py_last (discard_pile s)) as [top|]; cbn [option_map]; [|apply comm_raise].
  eapply comm_bind; [apply comm_player_at|]. intro q. cbv beta.
  change (hand (ren_player q)) with (map ren_card (hand q)).
  rewrite find_card_ren.
  destruct (find _ (hand q)) as [card|]; cbn [option_map]; [|apply comm_raise].
  rewrite can_play_on_ren.
  destruct (negb (can_play_on card top (current_color s))); [apply comm_raise|].
  cbn [value color card_id ren_card].
  eapply (comm_bind (f := idf)).
  { destruct (is_wild_value (value card)).
    - destruct (parse_color col) as [cc|]; [|apply comm_raise].
      eapply (comm_bind (f := idf)); [|intros _; apply comm_modify; reflexivity].
      destruct (negb (allow_illegal_wild_draw_four (settings s))
                && value_eqb (value card) WILD_DRAW_FOUR); [|apply (comm_ret idf)].
      cbv zeta.
      destruct (match current_color s with
                | Some c => Some c
                | None => if is_valid_color (color top) then Some (color top) else None
                end) as [m|]; [|apply (comm_ret idf)].
      rewrite remove_by_id_ren, existsb_map_comm. cbn [color ren_card].
      destruct (existsb _ _); [apply comm_raise | apply (comm_ret idf)].
    - destruct (is_valid_color (color card));
        [apply comm_modify; reflexivity | apply (comm_ret idf)]. }
  intros _.
  eapply comm_bind; [apply (comm_remove j card)|]. intros _.
  eapply comm_bind; [apply comm_discard_append|]. intros _.
  eapply comm_bind; [apply comm_modify; reflexivity|]. intros _.
  eapply comm_bind; [apply comm_modify; reflexivity|]. intros _.
  apply comm_finish; [apply same_touch|]. intro eff.
  eapply comm_bind; [apply same_advance|]. intros _.
  eapply comm_bind; [apply same_touch|]. intros _.
  eapply comm_bind; [apply comm_player_at|]. intro q'. cbv beta.
  change (name (ren_player q')) with (name q').
  eapply comm_bind; [apply comm_modify; reflexivity|]. intros _.
  apply same_driver.
Qed.

Lemma comm_draw_card fuel p : comm ren_card (draw_card fuel p) (draw_card fuel p).
Proof.
  unfold draw_card.
  eapply comm_bind; [apply same_require_turn|]. intro j. cbv beta.
  eapply comm_bind; [apply comm_get|]. intro s. cbv beta.
  cbn [pending_draw ren_state].
  destruct (pending_draw s >? 0).
  { eapply comm_bind; [apply comm_draw_cards|]. intros _.
    eapply comm_bind; [apply comm_player_at|]. intro q. cbv beta.
    eapply comm_bind; [apply comm_get|]. intro s'. cbv beta.
    change (name (ren_player q)) with (name q). cbn [pending_draw ren_state].
    eapply comm_bind; [apply comm_modify; reflexivity|]. intros _.
    eapply comm_bind; [apply comm_modify; reflexivity|]. intros _.
    eapply comm_bind; [apply comm_modify; reflexivity|]. intros _.
    eapply comm_bind; [apply comm_modify; reflexivity|]. intros _.
    eapply comm_bind; [apply same_advance|]. intros _.
    eapply comm_bind; [apply same_touch|]. intros _.
    eapply comm_bind; [apply same_driver|]. intros _.
    eapply comm_bind; [apply comm_player_at|]. intro q'. cbv beta.
    change (hand (ren_player q')) with (map ren_card (hand q')).
    rewrite py_last_map. apply comm_from_option. }
  eapply comm_bind; [apply comm_draw_cards|]. intro drawn_l. cbv beta.
  rewrite hd_error_map.
  eapply comm_bind; [apply comm_from_option|]. intro drawn. cbv beta.
  cbn [card_id value color ren_card].
  eapply comm_bind; [apply comm_modify; reflexivity|]. intros _.
  eapply comm_bind; [apply comm_get|]. intro s1. cbv beta.
  cbn [settings discard_pile current_color ren_state].
  rewrite py_last_map.
  eapply comm_bind; [apply comm_from_option|]. intro top. cbv beta.
  rewrite can_play_on_ren.
  destruct (auto_play_if_drawn_playable (settings s1)
            && can_play_on drawn top (current_color s1)).
  - eapply comm_bind; [apply (comm_remove j drawn)|]. intros _.
    eapply comm_bind; [apply comm_discard_append|]. intros _.
    eapply (comm_bind (f := idf)).
    { destruct (is_wild_value (value drawn)).
      - eapply comm_bind; [apply comm_player_at|]. intro q. cbv beta.
        change (is_ai (ren_player q)) with (is_ai q).
        rewrite ai_choose_color_ren. apply comm_modify. reflexivity.
      - destruct (is_valid_color (color drawn));
          [apply comm_modify; reflexivity | apply (comm_ret idf)]. }
    intros _.
    eapply comm_bind; [apply comm_effects|]. intro eff. cbv beta.
    eapply comm_bind; [apply same_flip_if|]. intros _.
    eapply comm_bind; [apply comm_resolve|]. intros [|]; cbv beta.
    + eapply comm_bind; [apply same_touch|]. intros _. apply comm_ret.
    + eapply comm_bind; [apply same_advance|]. intros _.
      eapply comm_bind; [apply same_touch|]. intros _.
      eapply comm_bind; [apply comm_player_at|]. intro q. cbv beta.
      change (name (ren_player q)) with (name q).
      eapply comm_bind; [apply comm_modify; reflexivity|]. intros _.
      eapply comm_bind; [apply same_driver|]. intros _. apply comm_ret.
  - eapply comm_bind; [apply same_advance|]. intros _.
    eapply comm_bind; [apply same_touch|]. intros _.
    eapply comm_bind; [apply comm_player_at|]. intro q. cbv beta.
    change (name (ren_player q)) with (name q).
    eapply comm_bind; [apply comm_modify; reflexivity|]. intros _.
    eapply comm_bind; [apply same_driver|]. intros _. apply comm_ret.
Qed.

Lemma same_pass_turn fuel p : same (pass_turn fuel p).
Proof.
  unfold same, pass_turn.
  eapply comm_bind; [apply same_require_turn|]. intros _.
  eapply comm_bind; [apply comm_get|]. intro s. cbv beta.
  cbn [pending_draw ren_state].
  destruct (pending_draw s >? 0); [apply comm_raise|].
  eapply comm_bind; [apply comm_modify; reflexivity|]. intros _.
  eapply comm_bind; [apply comm_modify; reflexivity|]. intros _.
  eapply comm_bind; [apply same_advance|]. intros _.
  eapply comm_bind; [apply same_touch|]. intros _.
  eapply comm_bind; [apply comm_modify; reflexivity|]. intros _.
  apply same_driver.
Qed.

Lemma set_ai_beyond_first_ren b ps :
  set_ai_beyond_first b (map ren_player ps) = map ren_player (set_ai_beyond_first b ps).
Proof.
  destruct ps as [|p ps]; cbn [set_ai_beyond_first map]; [reflexivity|]. f_equal.
  rewrite !map_map. apply map_ext. reflexivity.
Qed.

Lemma same_update_settings patch : same (update_settings patch).
Proof.
  unfold same, update_settings, when_some, modify_settings.
  repeat (eapply (comm_bind (f := idf)); [|intros _]);
    repeat match goal with
           | |- comm _ (match ?o with Some _ => _ | None => _ end) _ => destruct o
           end;
    try apply (comm_ret idf); try apply same_touch;
    try (apply comm_modify; reflexivity).
  eapply comm_bind; [apply comm_modify; reflexivity|]. intros _.
  apply comm_modify. intro s. unfold ren_state, set_players. cbn.
  now rewrite set_ai_beyond_first_ren.
Qed.

Lemma same_deal js : same (deal js).
Proof.
  unfold same. induction js as [|j js IH]; cbn [deal]; [apply (comm_ret idf)|].
  eapply comm_bind; [apply comm_get|]. intro s. cbv beta. cbn [settings ren_state].
  eapply comm_bind; [apply comm_draw_cards|]. intros _. exact IH.
Qed.

Lemma comm_apply_start_effect first :
  comm idf (apply_start_effect first) (apply_start_effect (ren_card first)).
Proof.
  unfold apply_start_effect. cbn [value ren_card].
  destruct (is_action_start (value first)); [|apply (comm_ret idf)].
  eapply comm_bind; [apply comm_effects|]. intro eff. cbv beta.
  eapply comm_bind; [apply same_flip_if|]. intros _.
  apply same_advance.
Qed.

Lemma same_restart_round : same restart_round.
Proof.
  unfold same, restart_round.
  eapply comm_bind.
  { apply comm_modify. intro s. unfold ren_state, set_players. cbn.
    rewrite !map_map. f_equal. }
  intros _.
  eapply comm_bind; [apply comm_build_deck|]. intro deck. cbv beta.
  eapply comm_bind; [apply comm_modify; reflexivity|]. intros _.
  eapply comm_bind; [apply comm_modify; reflexivity|]. intros _.
  eapply comm_bind; [apply comm_get|]. intro s. cbv beta.
  cbn [players ren_state]. rewrite length_map.
  eapply comm_bind; [apply same_deal|]. intros _.
  eapply comm_bind; [apply comm_find_starting_discard|]. intro first. cbv beta.
  do 7 (eapply comm_bind; [apply comm_modify; reflexivity|]; intros _).
  eapply comm_bind; [apply same_touch|]. intros _.
  eapply comm_bind; [apply comm_modify; reflexivity|]. intros _.
  apply comm_apply_start_effect.
Qed.

(** *** Scripts and views under the renaming *)

(** The card a request names, renamed. *)
Definition ren_action (a : Action) : Action :=
  match a with
  | APlay p cid col => APlay p (rho cid) col
  | other => other
  end.

Lemma same_run_action fuel a : comm idf (run_action fuel a) (run_action fuel (ren_action a)).
Proof.
  destruct a; cbn [run_action ren_action].
  - apply same_play_card.
  - eapply comm_bind; [apply comm_draw_card|]. intros _. apply (comm_ret idf).
  - apply same_pass_turn.
  - apply same_update_settings.
  - apply same_restart_round.
Qed.

Lemma run_script_ren fuel acts w :
  run_script fuel (map ren_action acts) (ren_world w)
  = ren_world (run_script fuel acts w).
Proof.
  revert w; induction acts as [|a acts IH]; intro w; cbn [run_script map]; [reflexivity|].
  rewrite same_run_action. cbn [snd]. apply IH.
Qed.

Lemma new_game_ren mode human_name cpu_name opt e :
  new_game mode human_name cpu_name opt (ren_env e)
  = (omap ren_state (fst (new_game mode human_name cpu_name opt e)),
     ren_env (snd (new_game mode human_name cpu_name opt e))).
Proof.
  unfold new_game. cbv beta iota zeta delta [next].
  cbn [uuid clock ren_env feed cursor ren_uuid still_clock].
  set (stg := match opt with Some s => s | None => default_settings end).
  set (ps := new_game_players mode human_name cpu_name stg).
  assert (Hps : map ren_player ps = ps).
  { unfold ps, new_game_players.
    destruct (_ || _); [destruct (ai_enabled stg)|destruct (_ || _)]; reflexivity. }
  match goal with
  | |- (let (r2, w2) := ?b2 ?W2 in _) = (omap _ (fst (let (r1, w1) := ?b1 ?W1 in _)), _) =>
      assert (Hb : comm ren_state b1 b2); [| assert (HW : W2 = ren_world W1) ]
  end.
  - cbn [players].
    eapply comm_bind; [apply comm_build_deck|]. intro deck. cbv beta.
    eapply comm_bind; [apply comm_modify; reflexivity|]. intros _.
    eapply comm_bind; [apply comm_modify; reflexivity|]. intros _.
    eapply comm_bind; [apply same_deal|]. intros _.
    eapply comm_bind; [apply comm_find_starting_discard|]. intro first. cbv beta.
    eapply comm_bind; [apply comm_apply_start_effect|]. intros _.
    eapply comm_bind; [apply comm_modify; reflexivity|]. intros _.
    eapply comm_bind; [apply same_touch|]. intros _.
    eapply comm_bind; [apply comm_modify; reflexivity|]. intros _.
    apply comm_get.
  - unfold ren_world, ren_state, ren_env. cbn. rewrite Hps. reflexivity.
  - rewrite HW, Hb.
    match goal with |- context [?b1 ?W1] =>
      match type of Hb with comm _ b1 _ => destruct (b1 W1) as [r w] end
    end.
    reflexivity.
Qed.

(** The view with its identifiers renamed. *)
Definition rename_ids (v : PublicView) : PublicView :=
  mkView (rho (v_gameId v)) (v_status v) (v_message v) (v_currentPlayerIndex v)
    (v_direction v) (v_players v) (v_you_playerId v) (map ren_card (v_you_hand v))
    (option_map ren_card (v_discardTop v)) (v_currentColor v) (v_drawPileCount v)
    (v_pendingDraw v) (v_mustPlayOrPass v) (v_winnerPlayerId v) (v_updatedAt v)
    (v_settings v).

(** The view without its time stamp. *)
Definition without_time (v : PublicView) : PublicView :=
  mkView (v_gameId v) (v_status v) (v_message v) (v_currentPlayerIndex v)
    (v_direction v) (v_players v) (v_you_playerId v) (v_you_hand v)
    (v_discardTop v) (v_currentColor v) (v_drawPileCount v)
    (v_pendingDraw v) (v_mustPlayOrPass v) (v_winnerPlayerId v) 0 (v_settings v).

Lemma as_public_state_ren s you :
  as_public_state (ren_state s) you
  = option_map (fun v => without_time (rename_ids v)) (as_public_state s you).
Proof.
  unfold as_public_state. cbv zeta.
  cbn [gid status message current_player_index direction players discard_pile
       current_color draw_pile pending_draw must_play_or_pass winner_player_id
       updated_at settings ren_state].
  rewrite py_last_map, length_map, map_map.
  rewrite (map_ext
             (fun x => mkPlayerView (pid (ren_player x)) (name (ren_player x))
                         (is_ai (ren_player x)) (score (ren_player x))
                         (List.length (hand (ren_player x)))
                         (String.eqb (pid (ren_player x)) you))
             (fun p => mkPlayerView (pid p) (name p) (is_ai p) (score p)
                         (List.length (hand p)) (String.eqb (pid p) you)))
    by (intro p; cbn; now rewrite length_map).
  rewrite find_map. cbn [pid ren_player set_hand].
  destruct (players s) as [|p0 ps]; cbn [map option_map]; [reflexivity|].
  destruct (find _ (p0 :: ps)); reflexivity.
Qed.

Lemma session_view_ren fuel mode acts you e :
  session_view fuel mode (map ren_action acts) you (ren_env e)
  = option_map (fun v => without_time (rename_ids v)) (session_view fuel mode acts you e).
Proof.
  unfold session_view. rewrite new_game_ren.
  destruct (new_game mode "You" "CPU" None e) as [[st|x|] e']; cbn [fst snd omap];
    try reflexivity.
  change (mkWorld (ren_state st) (ren_env e')) with (ren_world (mkWorld st e')).
  rewrite run_script_ren. apply as_public_state_ren.
Qed.
End Renaming.

Lemma ren_card_id c : ren_card (fun x => x) c = c.
Proof. destruct c. reflexivity. Qed.

Lemma ren_action_id a : ren_action (fun x => x) a = a.
Proof. destruct a; reflexivity. Qed.

Lemma rename_ids_id v : rename_ids (fun x => x) v = v.
Proof.
  destruct v as [g st msg i dr ps y h top col n pd mp win t stg].
  unfold rename_ids. cbn. f_equal.
  - rewrite (map_ext _ (fun c => c)) by apply ren_card_id. apply map_id.
  - destruct top as [c|]; cbn; [|reflexivity]. now rewrite ren_card_id.
Qed.

Lemma ren_uuid_id u : ren_uuid (fun x => x) u = u.
Proof. destruct u. reflexivity. Qed.

(** ** Determinism of a session *)

(** A second environment: the same random source and clock as [demo_env],
    another run of [uuid4], whose tokens are those of [demo_env] with a [u]
    in front. *)
Definition demo_env_other_ids : Env :=
  mkEnv (rng demo_env) (ren_uuid (String.append "u") (uuid demo_env)) (clock demo_env).

(** A third one: the random source and the tokens of [demo_env], read at
    another time. *)
Definition demo_env_later : Env :=
  mkEnv (rng demo_env) (uuid demo_env) (mkOracle (fun n => 1000 + Z.of_nat n) 5).

(** C5 (as stated, refuted) — two runs with the same random source and the
    same script show different views. With other tokens from [uuid4] and the
    empty script, the game id and the ids of the cards in hand differ; with
    other tokens and a script that plays the card with id 4, the play is
    accepted in one run and refused in the other, so that the hand counts
    differ; with the same tokens at another time, [updatedAt] differs. *)
Lemma same_seed_different_view :
  rng demo_env = rng demo_env_other_ids
  /\ rng demo_env = rng demo_env_later
  /\ session_view 1 "local" [] "p1" demo_env
     <> session_view 1 "local" [] "p1" demo_env_other_ids
  /\ option_map v_gameId (session_view 1 "local" [] "p1" demo_env)
     <> option_map v_gameId (session_view 1 "local" [] "p1" demo_env_other_ids)
  /\ option_map (fun v => map card_id (v_you_hand v))
       (session_view 1 "local" [] "p1" demo_env)
     <> option_map (fun v => map card_id (v_you_hand v))
          (session_view 1 "local" [] "p1" demo_env_other_ids)
  /\ option_map (fun v => map pv_handCount (v_players v))
       (session_view 1 "local" [APlay "p1" "4" None] "p1" demo_env)
     <> option_map (fun v => map pv_handCount (v_players v))
          (session_view 1 "local" [APlay "p1" "4" None] "p1" demo_env_other_ids)
  /\ option_map v_updatedAt (session_view 1 "local" [] "p1" demo_env)
     <> option_map v_updatedAt (session_view 1 "local" [] "p1" demo_env_later).
Proof.
  split; [reflexivity|]. split; [reflexivity|].
  assert (H1 : option_map v_gameId (session_view 1 "local" [] "p1" demo_env)
               <> option_map v_gameId
                    (session_view 1 "local" [] "p1" demo_env_other_ids)).
  { intro H. vm_compute in H. discriminate H. }
  split. { intro H. apply H1. now rewrite H. }
  split; [exact H1|].
  split. { intro H. vm_compute in H. discriminate H. }
  split. { intro H. vm_compute in H. discriminate H. }
  intro H. vm_compute in H. discriminate H.
Qed.

(** C5 (amended) — Determinism up to identifiers and time. Take two runs
    with the same random source. If [uuid4] returns the same tokens in both,
    [createSession] followed by the same scripted sequence of actions gives
    the same final public view in both runs, except for [updatedAt]. More
    generally, if the tokens [uuid4] returns in the second run are those of
    the first under a one-to-one renaming, then the script of the first run,
    with the card ids it names renamed, gives in the second run the view of
    the first with its game id and card ids renamed, except for [updatedAt].
    The clock is free in both runs. *)
Theorem session_view_deterministic (e1 e2 : Env) (fuel : nat) (mode : string)
  (acts : list Action) (you : string) :
  rng e2 = rng e1 ->
  (uuid e2 = uuid e1 ->
   option_map without_time (session_view fuel mode acts you e2)
   = option_map without_time (session_view fuel mode acts you e1))
  /\ (forall rho : string -> string,
        (forall a b, rho a = rho b -> a = b) ->
        uuid e2 = ren_uuid rho (uuid e1) ->
        option_map without_time
          (session_view fuel mode (map (ren_action rho) acts) you e2)
        = option_map (fun v => without_time (rename_ids rho v))
            (session_view fuel mode acts you e1)).
Proof.
  intro Hr.
  assert (G : forall rho : string -> string,
            (forall a b, rho a = rho b -> a = b) ->
            uuid e2 = ren_uuid rho (uuid e1) ->
            option_map without_time
              (session_view fuel mode (map (ren_action rho) acts) you e2)
            = option_map (fun v => without_time (rename_ids rho v))
                (session_view fuel mode acts you e1)).
  { intros rho Hinj Hu.
    pose proof (@session_view_ren rho (cursor (clock e2)) Hinj fuel mode acts you e1)
      as H1.
    pose proof (@session_view_ren (fun x => x) (cursor (clock e1)) (fun a b H => H)
                  fuel mode (map (ren_action rho) acts) you e2) as H2.
    assert (He : ren_env (fun x => x) (cursor (clock e1)) e2
                 = ren_env rho (cursor (clock e2)) e1).
    { unfold ren_env, still_clock. rewrite Hr, Hu, ren_uuid_id.
      now rewrite (Nat.add_comm (cursor (clock e2))). }
    rewrite (map_ext (ren_action (fun x => x)) (fun a => a)) in H2
      by apply ren_action_id.
    rewrite map_id, He, H1 in H2. rewrite H2.
    destruct (session_view fuel mode (map (ren_action rho) acts) you e2) as [v|];
      cbn [option_map]; [|reflexivity].
    now rewrite rename_ids_id. }
  split; [|exact G].
  intro Hu.
  specialize (G (fun x => x) (fun a b H => H)).
  rewrite ren_uuid_id in G. specialize (G Hu).
  rewrite (map_ext (ren_action (fun x => x)) (fun a => a)) in G
    by apply ren_action_id.
  rewrite map_id in G. rewrite G.
  destruct (session_view fuel mode acts you e1) as [v|]; cbn [option_map]; [|reflexivity].
  now rewrite rename_ids_id.
Qed.

Lemma append_u_injective (a b : string) : String.append "u" a = String.append "u" b -> a = b.
Proof. cbn. intro H. now injection H. Qed.

Lemma session_view_deterministic_witness :
  option_map without_time
    (session_view 2 "local" [APlay "p1" "4" None; ADraw "p2"] "p1" demo_env_later)
  = option_map without_time
      (session_view 2 "local" [APlay "p1" "4" None; ADraw "p2"] "p1" demo_env)
  /\ option_map without_time
       (session_view 2 "local"
          (map (ren_action (String.append "u")) [APlay "p1" "4" None; ADraw "p2"]) "p1"
          demo_env_other_ids)
     = option_map (fun v => without_time (rename_ids (String.append "u") v))
         (session_view 2 "local" [APlay "p1" "4" None; ADraw "p2"] "p1" demo_env).
Proof.
  split.
  - apply (proj1 (@session_view_deterministic demo_env demo_env_later 2 "local"
                    [APlay "p1" "4" None; ADraw "p2"] "p1" eq_refl)).
    reflexivity.
  - apply (proj2 (@session_view_deterministic demo_env demo_env_other_ids 2 "local"
                    [APlay "p1" "4" None; ADraw "p2"] "p1" eq_refl)).
    + exact append_u_injective.
    + reflexivity.
Defined.
